(** * Agent SDK: sliding-window conversation manager, agent loop, sub-agent tree

    A shallow embedding of
    - [src/conversation-manager/sliding-window-conversation-manager.ts]
    - [src/agent/agent.ts]
    - [src/tools/transfer-to-agent-tool.ts]
    - the stop reasons of [src/models/bedrock.ts]
    followed by the properties established about them. *)

From Stdlib Require Import ZArith Lia Bool Ascii.
From Stdlib Require Import Floats.SpecFloat.
From stdpp Require Import base option list gmap strings.

Local Open Scope string_scope.
Local Open Scope nat_scope.

(** ** Errors *)

(** Modelled from the spec: [src/errors.ts] is not among the sources.  The
    error taxonomy of the spec (context-window overflow, concurrent
    invocation, max tokens, everything else) with the message the code
    passes to the constructor. *)
Inductive ErrorClass :=
| ContextWindowOverflowError
| ConcurrentInvocationError
| MaxTokensError
| PlainError.

Record Error := mkError { errClass : ErrorClass; errMessage : string }.

Definition isContextWindowOverflow (e : Error) : bool :=
  match errClass e with ContextWindowOverflowError => true | _ => false end.

Definition isConcurrentInvocation (e : Error) : bool :=
  match errClass e with ConcurrentInvocationError => true | _ => false end.

(** A computation that returns or throws. *)
Inductive Result (A : Type) :=
| Ok (a : A)
| Throw (e : Error).
Arguments Ok {A} a.
Arguments Throw {A} e.

(** ** Messages and content blocks *)

(** Modelled from the spec: [src/types/messages.ts] is not among the
    sources.  Content blocks are the tagged union of the spec's data model;
    the fields are the ones the code under [src/] reads and writes. *)
Inductive Role := user | assistant.

Inductive ToolResultStatus := status_success | status_error.

#[warnings="-register-all"]
Inductive JSONValue :=
| JNull
| JBool (b : bool)
| JNumber (z : Z)
| JString (s : string)
| JArray (items : list JSONValue)
| JObject (fields : list (string * JSONValue)).

Inductive ToolResultContent :=
| TextContent (text : string)
| JsonContent (json : JSONValue).

(** The fields of a tool-use block: [name], [toolUseId], [input]. *)
Record ToolUse := mkToolUse {
  toolUseName : string;
  toolUseId : string;
  toolUseInput : JSONValue
}.

(** The fields of a tool-result block: [toolUseId], [status], [content],
    [error]. *)
Record ToolResult := mkToolResult {
  resultToolUseId : string;
  resultStatus : ToolResultStatus;
  resultContent : list ToolResultContent;
  resultError : option Error
}.

Inductive ContentBlock :=
| TextBlock (text : string)
| ToolUseBlock (toolUse : ToolUse)
| ToolResultBlock (result : ToolResult)
| ReasoningBlock (text : string)
| CachePointBlock.

Record Message := mkMessage {
  role : Role;
  content : list ContentBlock;
  author : option string
}.

(** [block.type === 'toolResultBlock'] *)
Definition isToolResultBlock (block : ContentBlock) : bool :=
  match block with ToolResultBlock _ => true | _ => false end.

(** [block.type === 'toolUseBlock'] *)
Definition isToolUseBlock (block : ContentBlock) : bool :=
  match block with ToolUseBlock _ => true | _ => false end.

(** [message.content.some((block) => block.type === 'toolResultBlock')] *)
Definition hasToolResult (m : Message) : bool := existsb isToolResultBlock (content m).

(** [message.content.some((block) => block.type === 'toolUseBlock')] *)
Definition hasToolUse (m : Message) : bool := existsb isToolUseBlock (content m).

(** ** Numbers *)

(** A [number] of the source is an IEEE 754 double, whatever the caller
    passes: a whole number, a fraction, [NaN] or an infinity.  [Integer z]
    is the number whose value is the integer [z]; [Double x] is a number
    given by its binary64 representation, in the format of the standard
    library's [SpecFloat], and stands for every number that is no integer.

    On integers the operators compute exactly, which is what binary64 does
    as long as the result fits the 53 bits of a mantissa.  Past that a
    double rounds to nearest; the manager only compares such a result with
    an array length, itself a double, and rounding to nearest does not
    move a number across a double.  As soon as an operand is given as a
    double the operators are those of binary64, rounding to nearest
    even. *)
Module Number.

Inductive t :=
| Integer (z : Z)
| Double (x : spec_float).

Definition prec : Z := 53.
Definition emax : Z := 1024.

(** The double nearest to [m * 2 ^ e]. *)
Definition ofDyadic (m e : Z) : spec_float := binary_normalize prec emax m e false.

Definition toDouble (a : t) : spec_float :=
  match a with
  | Integer z => ofDyadic z 0
  | Double x => x
  end.

Definition NaN : t := Double S754_nan.
Definition Infinity : t := Double (S754_infinity false).

(** [array.length] *)
Definition ofNat (n : nat) : t := Integer (Z.of_nat n).

(** [a <= b]; a comparison with [NaN] is [false]. *)
Definition leb (a b : t) : bool :=
  match a, b with
  | Integer x, Integer y => (x <=? y)%Z
  | _, _ => SFleb (toDouble a) (toDouble b)
  end.

(** [a < b] *)
Definition ltb (a b : t) : bool :=
  match a, b with
  | Integer x, Integer y => (x <? y)%Z
  | _, _ => SFltb (toDouble a) (toDouble b)
  end.

(** [a - b] *)
Definition sub (a b : t) : t :=
  match a, b with
  | Integer x, Integer y => Integer (x - y)
  | _, _ => Double (SFsub prec emax (toDouble a) (toDouble b))
  end.

(** [a + 1], as in [a++] *)
Definition succ (a : t) : t :=
  match a with
  | Integer x => Integer (x + 1)
  | Double x => Double (SFadd prec emax x (ofDyadic 1 0))
  end.

(** The integer part of a finite double, towards zero. *)
Definition truncate (x : spec_float) : option Z :=
  match x with
  | S754_zero _ => Some 0%Z
  | S754_finite s m e =>
      let magnitude :=
        if (0 <=? e)%Z then Z.shiftl (Z.pos m) e else Z.shiftr (Z.pos m) (- e) in
      Some (if s then (- magnitude)%Z else magnitude)
  | S754_infinity _ | S754_nan => None
  end.

(** Whether a double has no fractional part. *)
Definition isIntegral (x : spec_float) : bool :=
  match x with
  | S754_zero _ => true
  | S754_finite _ m e => (0 <=? e)%Z || (Z.land (Z.pos m) (Z.ones (- e)) =? 0)%Z
  | S754_infinity _ | S754_nan => false
  end.

(** The value of a number that is an integer. *)
Definition integerValue (a : t) : option Z :=
  match a with
  | Integer z => Some z
  | Double x => if isIntegral x then truncate x else None
  end.

(** [array[index]]: the element when [index] is an integer from [0] to
    [array.length - 1], and [undefined] for any other number, a fraction
    included: the array has no property of that name. *)
Definition elementAt {A : Type} (array : list A) (index : t) : option A :=
  match integerValue index with
  | Some z =>
      if (0 <=? z)%Z && (z <? Z.of_nat (length array))%Z
      then array !! Z.to_nat z
      else None
  | None => None
  end.

(** How many elements [array.splice(0, deleteCount)] removes from an array
    of [len] elements: [deleteCount] is converted to an integer ([NaN] to
    [0], a fraction towards zero) and clamped between [0] and [len]. *)
Definition deleteCount (a : t) (len : nat) : nat :=
  let clamp (z : Z) :=
    if (z <? 0)%Z then 0 else if (Z.of_nat len <=? z)%Z then len else Z.to_nat z in
  match a with
  | Integer z => clamp z
  | Double x =>
      match x with
      | S754_nan => 0
      | S754_infinity negative => if negative then 0 else len
      | _ => clamp (default 0%Z (truncate x))
      end
  end.

End Number.

(** ** Sliding-window conversation manager *)

Module SlidingWindow.

(** The two private fields of the manager.  The constructor takes the
    window size as it is given: nothing checks that it is a whole number. *)
Record Manager := mkManager {
  _windowSize : Number.t;
  _shouldTruncateResults : bool
}.

(** [constructor(config?)]: [windowSize ?? 40], [shouldTruncateResults ?? true]. *)
Definition new (windowSize : option Number.t) (shouldTruncateResults : option bool)
  : Manager :=
  {| _windowSize := default (Number.Integer 40) windowSize;
     _shouldTruncateResults := default true shouldTruncateResults |}.

Definition toolResultTooLargeMessage : string := "The tool result was too large!".

(** The backward loop of [findLastMessageWithToolResults]: [n] is [idx + 1].
    [messages[idx]!] is always defined since [idx < messages.length]. *)
Fixpoint findLastFrom (messages : list Message) (n : nat) : option nat :=
  match n with
  | O => None
  | S idx =>
      match messages !! idx with
      | Some currentMessage =>
          if hasToolResult currentMessage then Some idx
          else findLastFrom messages idx
      | None => None
      end
  end.

Definition findLastMessageWithToolResults (messages : list Message) : option nat :=
  findLastFrom messages (length messages).

(** Outcome of the first loop of [truncateToolResults]: it stops at the
    first tool-result block of the message. *)
Inductive Scan := AlreadyTruncated | FoundToolResultToTruncate | NoToolResult.

Definition isErrorStatus (s : ToolResultStatus) : bool :=
  match s with status_error => true | status_success => false end.

(** [firstContent && firstContent.type === 'textBlock' ? firstContent.text : ''] *)
Definition contentText (c : list ToolResultContent) : string :=
  match c with
  | TextContent text :: _ => text
  | _ => ""
  end.

Fixpoint scanContent (blocks : list ContentBlock) : Scan :=
  match blocks with
  | [] => NoToolResult
  | ToolResultBlock toolResultBlock :: _ =>
      if isErrorStatus (resultStatus toolResultBlock)
         && String.eqb (contentText (resultContent toolResultBlock)) toolResultTooLargeMessage
      then AlreadyTruncated
      else FoundToolResultToTruncate
  | _ :: rest => scanContent rest
  end.

(** The callback of [message.content.map] in [truncateToolResults]. *)
Definition truncateBlock (block : ContentBlock) : ContentBlock :=
  match block with
  | ToolResultBlock toolResultBlock =>
      ToolResultBlock
        (mkToolResult (resultToolUseId toolResultBlock) status_error
           [TextContent toolResultTooLargeMessage] None)
  | _ => block
  end.

(** [truncateToolResults(messages, msgIdx)]: the array after the call and
    the returned flag.  The replacement message is built from [role] and
    the new content only, so it carries no author. *)
Definition truncateToolResults (messages : list Message) (msgIdx : Z)
  : list Message * bool :=
  if (msgIdx >=? Z.of_nat (length messages))%Z || (msgIdx <? 0)%Z then (messages, false)
  else
    match messages !! Z.to_nat msgIdx with
    | None => (messages, false)
    | Some message =>
        match scanContent (content message) with
        | AlreadyTruncated => (messages, false)
        | NoToolResult => (messages, false)
        | FoundToolResultToTruncate =>
            let newContent := map truncateBlock (content message) in
            (<[Z.to_nat msgIdx := mkMessage (role message) newContent None]> messages, true)
        end
    end.

(** One test of the [while] loop of [reduceContext] at [trimIndex]:
    [true] when the loop executes [trimIndex++; continue]. *)
Definition invalidTrimPoint (messages : list Message) (trimIndex : Number.t) : bool :=
  match Number.elementAt messages trimIndex with
  | None => false
  | Some oldestMessage =>
      if hasToolResult oldestMessage then true
      else if hasToolUse oldestMessage then
        let nextHasToolResult :=
          match Number.elementAt messages (Number.succ trimIndex) with
          | Some nextMessage => hasToolResult nextMessage
          | None => false
          end in
        negb nextHasToolResult
      else false
  end.

(** The [while (trimIndex < messages.length)] loop; every iteration that
    does not leave the loop increments [trimIndex], so [messages.length]
    iterations are enough.  [messages[trimIndex]] is [undefined] for a
    [trimIndex] that is not an index, and the loop is left at once. *)
Fixpoint findTrimIndex (fuel : nat) (messages : list Message) (trimIndex : Number.t)
  : Number.t :=
  match fuel with
  | O => trimIndex
  | S fuel' =>
      if Number.ltb trimIndex (Number.ofNat (length messages)) then
        match Number.elementAt messages trimIndex with
        | None => trimIndex
        | Some _ =>
            if invalidTrimPoint messages trimIndex
            then findTrimIndex fuel' messages (Number.succ trimIndex)
            else trimIndex
        end
      else trimIndex
  end.

(** [messages.length <= this._windowSize ? 2 : messages.length - this._windowSize] *)
Definition initialTrimIndex (mgr : Manager) (messages : list Message) : Number.t :=
  if Number.leb (Number.ofNat (length messages)) (_windowSize mgr) then Number.Integer 2
  else Number.sub (Number.ofNat (length messages)) (_windowSize mgr).

Definition unableToTrim : Error :=
  mkError ContextWindowOverflowError "Unable to trim conversation context!".

(** Phase 1 of [reduceContext]: the array after the attempt and whether
    [reduceContext] returns there. *)
Definition tryTruncate (mgr : Manager) (messages : list Message) : list Message * bool :=
  match findLastMessageWithToolResults messages with
  | Some lastMessageIdxWithToolResults =>
      if _shouldTruncateResults mgr
      then truncateToolResults messages (Z.of_nat lastMessageIdxWithToolResults)
      else (messages, false)
  | None => (messages, false)
  end.

(** Phase 2 of [reduceContext]: the scan, [if (trimIndex >= messages.length)
    throw], and [messages.splice(0, trimIndex)]. *)
Definition trimMessages (mgr : Manager) (messages : list Message) : Result (list Message) :=
  let trimIndex :=
    findTrimIndex (length messages) messages (initialTrimIndex mgr messages) in
  if Number.leb (Number.ofNat (length messages)) trimIndex then Throw unableToTrim
  else Ok (drop (Number.deleteCount trimIndex (length messages)) messages).

(** [reduceContext(messages, _error)]: the array after the call, or the
    thrown error (the array is then as it was). *)
Definition reduceContext (mgr : Manager) (messages : list Message) : Result (list Message) :=
  match tryTruncate mgr messages with
  | (messages', true) => Ok messages'
  | (messages', false) => trimMessages mgr messages'
  end.

(** [applyManagement(messages)] *)
Definition applyManagement (mgr : Manager) (messages : list Message) : Result (list Message) :=
  if Number.leb (Number.ofNat (length messages)) (_windowSize mgr) then Ok messages
  else reduceContext mgr messages.

End SlidingWindow.

(** ** Events *)

(** Modelled from the spec: [src/models/model.ts], [src/models/streaming.ts]
    and [src/tools/tool.ts] are not among the sources.  A model call ends in
    a stop reason; model and tool stream events are opaque to the loop. *)
Inductive StopReason := StopToolUse | StopEndTurn | StopMaxTokens | StopOther (reason : string).

Inductive ModelStreamEvent := ModelEvent (type : string).

Inductive ToolStreamEvent := ToolEvent (data : JSONValue).

(** [stopReason !== 'toolUse'] *)
Definition isToolUseStop (s : StopReason) : bool :=
  match s with StopToolUse => true | _ => false end.

Record AgentResult := mkAgentResult {
  stopReason : StopReason;
  lastMessage : Message
}.

(** Modelled from the spec: [src/hooks/events.ts] is not among the sources.
    The event classes are the lifecycle events of the spec; the payload of
    each is what [agent.ts] passes to its constructor. *)
Inductive EventKind :=
| InitializedEvent
| BeforeInvocationEvent
| AfterInvocationEvent
| MessageAddedEvent
| BeforeModelCallEvent
| AfterModelCallEvent
| ModelStreamEventHook
| BeforeToolsEvent
| AfterToolsEvent
| BeforeToolCallEvent
| AfterToolCallEvent
| BeforeTransferEvent
| AfterTransferEvent.

#[global] Instance EventKind_eq_dec : EqDecision EventKind.
Proof. solve_decision. Defined.

Inductive EventData :=
| Initialized
| BeforeInvocation
| AfterInvocation
| MessageAdded (message : Message)
| BeforeModelCall
| AfterModelCall (stopData : option (Message * StopReason)) (error : option Error)
| ModelStream (event : ModelStreamEvent)
| BeforeTools (message : Message)
| AfterTools (message : Message)
| BeforeToolCall (toolUse : ToolUse) (toolFound : bool)
| AfterToolCall (toolUse : ToolUse) (toolFound : bool) (result : ToolResult)
                (error : option Error)
| BeforeTransfer (fromAgentName toAgentName : string)
| AfterTransfer (fromAgentName toAgentName : string).

Definition kindOf (d : EventData) : EventKind :=
  match d with
  | Initialized => InitializedEvent
  | BeforeInvocation => BeforeInvocationEvent
  | AfterInvocation => AfterInvocationEvent
  | MessageAdded _ => MessageAddedEvent
  | BeforeModelCall => BeforeModelCallEvent
  | AfterModelCall _ _ => AfterModelCallEvent
  | ModelStream _ => ModelStreamEventHook
  | BeforeTools _ => BeforeToolsEvent
  | AfterTools _ => AfterToolsEvent
  | BeforeToolCall _ _ => BeforeToolCallEvent
  | AfterToolCall _ _ _ _ => AfterToolCallEvent
  | BeforeTransfer _ _ => BeforeTransferEvent
  | AfterTransfer _ _ => AfterTransferEvent
  end.

(** An event object: the payload it was constructed with and the boolean
    properties that have been assigned on it since, by property name.  A
    property that was never assigned reads as [undefined]. *)
Record HookEvent := mkHookEvent {
  eventData : EventData;
  eventProps : gmap string bool
}.

Definition newEvent (d : EventData) : HookEvent := mkHookEvent d ∅.

(** [event.p = b] *)
Definition assignProp (p : string) (b : bool) (event : HookEvent) : HookEvent :=
  mkHookEvent (eventData event) (<[p := b]> (eventProps event)).

(** [if (event.p)]: [undefined] is falsy. *)
Definition propIsTruthy (p : string) (event : HookEvent) : bool :=
  default false (eventProps event !! p).

(** [event.error], for the events that carry one. *)
Definition eventError (event : HookEvent) : option Error :=
  match eventData event with
  | AfterModelCall _ error => error
  | AfterToolCall _ _ _ error => error
  | _ => None
  end.

(** What the consumer of [stream] receives. *)
Inductive AgentStreamEvent :=
| HookStreamEvent (event : HookEvent)
| ModelStreamed (event : ModelStreamEvent)
| ToolStreamed (event : ToolStreamEvent)
| ToolResultStreamed (result : ToolResult)
| AgentResultStreamed (result : AgentResult).

(** ** Tools *)

Inductive ToolOutcome :=
| ToolReturns (result : option ToolResult)
| ToolThrows (e : Error).

(** One run of an external tool's [stream]: the events it yields and how it
    ends. *)
Record ToolRun := mkToolRun {
  toolEvents : list ToolStreamEvent;
  toolOutcome : ToolOutcome
}.

(** A tool of the effective registry: an external tool, or the synthetic
    [transfer_to_agent] tool with the targets it was built for. *)
Inductive ToolBody :=
| ExternalTool
| TransferToAgentTool (allowedTargets : list string).

Record Tool := mkTool {
  toolName : string;
  toolBody : ToolBody
}.

(** One call of the model provider: the events it streams and how it ends. *)
Record ModelTurn := mkModelTurn {
  modelEvents : list ModelStreamEvent;
  modelOutcome : Result (Message * StopReason)
}.

(** *** Tool lists *)

(** Modelled from the spec: "MCP client integration" is an external
    collaborator and [src/mcp.ts] is not among the sources.  A client is
    known by what its [listTools()] answers: the tools it lists, or the
    error it fails with. *)
Record McpClient := mkMcpClient {
  clientName : string;
  listTools : Result (list Tool)
}.

(** [ToolList = (Tool | McpClient | ToolList)[]]: an item of a tool list. *)
#[warnings="-register-all"]
Inductive ToolListItem :=
| ToolItem (tool : Tool)
| McpClientItem (client : McpClient)
| NestedToolList (items : list ToolListItem).

(** What the loop of [flattenTools] pushes for one item: the item itself,
    or what the recursive call returns for an item that is an array, whose
    items are taken from left to right. *)
Fixpoint flattenItem (item : ToolListItem) : list Tool * list McpClient :=
  match item with
  | NestedToolList items =>
      (fix flattenEach (toolList : list ToolListItem) : list Tool * list McpClient :=
         match toolList with
         | [] => ([], [])
         | first :: rest =>
             let nested := flattenItem first in
             let later := flattenEach rest in
             ((nested.1 ++ later.1)%list, (nested.2 ++ later.2)%list)
         end) items
  | McpClientItem client => ([], [client])
  | ToolItem tool => ([tool], [])
  end.

(** [flattenTools(toolList)]: [{ tools, mcpClients }]. *)
Definition flattenTools (toolList : list ToolListItem) : list Tool * list McpClient :=
  flattenItem (NestedToolList toolList).

Definition MAX_CONSECUTIVE_TRANSFERS : nat := 8.

(** How a piece of the generator code ends: it returns, it throws (and an
    enclosing [try] of the generator sees the error), the driver of the
    generator threw while the generator was suspended at a [yield] (the
    generator is abandoned: none of its [catch] or [finally] blocks runs),
    the iterations it was given ran out, or the world does not say how to go
    on (a reference that does not resolve, a model provider or an external
    tool with no scripted behaviour left). *)
Inductive Outcome (A : Type) :=
| Returned (a : A)
| Thrown (e : Error)
| Abandoned (e : Error)
| OutOfFuel
| Stuck.
Arguments Returned {A} a.
Arguments Thrown {A} e.
Arguments Abandoned {A} e.
Arguments OutOfFuel {A}.
Arguments Stuck {A}.

(** ** Hooks, agents and the world they live in *)

Section AgentModel.
(** The private state of the hook callbacks the application registers. *)
Context {HS : Type}.

(** What one callback did: the event and the history as it left them, its
    own state, and the error it threw, if any. *)
Record CallbackEffect := mkEffect {
  effEvent : HookEvent;
  effMessages : list Message;
  effState : HS;
  effThrown : option Error
}.

Definition HookCallback : Type := HookEvent → list Message → HS → CallbackEffect.

(** Modelled from the spec: [src/hooks/registry.ts] is not among the
    sources.  The registry holds the callbacks in registration order, each
    registered against one event kind. *)
Definition HookRegistry : Type := list (EventKind * HookCallback).

(** A hook provider, by the callbacks its [registerCallbacks] adds. *)
Definition HookProvider : Type := list (EventKind * HookCallback).

Fixpoint runCallbacks (callbacks : list HookCallback)
    (event : HookEvent) (messages : list Message) (hs : HS) : CallbackEffect :=
  match callbacks with
  | [] => mkEffect event messages hs None
  | callback :: rest =>
      let effect := callback event messages hs in
      match effThrown effect with
      | Some _ => effect
      | None => runCallbacks rest (effEvent effect) (effMessages effect) (effState effect)
      end
  end.

(** Modelled from the spec: "[invokeCallbacks(event)] runs every registered
    callback for that event's kind, in registration order ... later
    callbacks observe mutations made by earlier ones ... A callback throwing
    propagates immediately, aborting remaining callbacks". *)
Definition invokeCallbacks (registry : HookRegistry)
    (event : HookEvent) (messages : list Message) (hs : HS) : CallbackEffect :=
  runCallbacks
    (map snd (filter (λ entry, entry.1 = kindOf (eventData event)) registry))
    event messages hs.

(** [SlidingWindowConversationManager.registerCallbacks]: the callback for
    [AfterInvocationEvent] and the callback for [AfterModelCallEvent]. *)
Definition slidingWindowAfterInvocation (mgr : SlidingWindow.Manager) : HookCallback :=
  λ event messages hs,
    match SlidingWindow.applyManagement mgr messages with
    | Ok messages' => mkEffect event messages' hs None
    | Throw e => mkEffect event messages hs (Some e)
    end.

Definition slidingWindowAfterModelCall (mgr : SlidingWindow.Manager) : HookCallback :=
  λ event messages hs,
    match eventError event with
    | Some error =>
        if isContextWindowOverflow error then
          match SlidingWindow.reduceContext mgr messages with
          | Ok messages' => mkEffect (assignProp "retryModelCall" true event) messages' hs None
          | Throw e => mkEffect event messages hs (Some e)
          end
        else mkEffect event messages hs None
    | None => mkEffect event messages hs None
    end.

Definition slidingWindowCallbacks (mgr : SlidingWindow.Manager) : HookProvider :=
  [(AfterInvocationEvent, slidingWindowAfterInvocation mgr);
   (AfterModelCallEvent, slidingWindowAfterModelCall mgr)].

(** [NullConversationManager.registerCallbacks] registers nothing. *)
Definition nullConversationManagerCallbacks : HookProvider := [].

(** An [Agent] object.  Objects and arrays live in the world and are named
    by reference: [messages] and [subAgents] are references to arrays, so
    that two agents can hold the same array.

    Modelled from the spec: the tool registry is a "name-keyed lookup of
    invocable tools" whose class is not among the sources.
    [_toolRegistry] is the tools it holds, in the order they were added. *)
Record Agent := mkAgent {
  messages : nat;
  hooks : HookRegistry;
  name : option string;
  subAgents : nat;
  parentAgent : option nat;
  disallowTransferToParent : bool;
  disallowTransferToPeers : bool;
  model : list ModelTurn;
  _toolRegistry : list Tool;
  _mcpClients : list McpClient;
  _initialized : bool;
  _activeAgentName : option string;
  _pendingTransferTarget : option string;
  _consecutiveTransfers : nat
}.

Record World := mkWorld {
  agents : gmap nat Agent;
  agentArrays : gmap nat (list nat);
  messageArrays : gmap nat (list Message);
  nextRef : nat;
  toolRuns : list ToolRun;
  hookState : HS;
  emitted : list AgentStreamEvent
}.

Definition emptyWorld (hs : HS) : World :=
  mkWorld ∅ ∅ ∅ 0 [] hs [].

Definition M (A : Type) : Type := World → Outcome A * World.

#[global] Instance M_ret : MRet M := λ A a w, (Returned a, w).

#[global] Instance M_bind : MBind M := λ A B f m w,
  match m w with
  | (Returned a, w') => f a w'
  | (Thrown e, w') => (Thrown e, w')
  | (Abandoned e, w') => (Abandoned e, w')
  | (OutOfFuel, w') => (OutOfFuel, w')
  | (Stuck, w') => (Stuck, w')
  end.

Definition getWorld : M World := λ w, (Returned w, w).
Definition putWorld (w : World) : M unit := λ _, (Returned tt, w).
Definition throw {A : Type} (e : Error) : M A := λ w, (Thrown e, w).
Definition abandon {A : Type} (e : Error) : M A := λ w, (Abandoned e, w).
Definition outOfFuel {A : Type} : M A := λ w, (OutOfFuel, w).
Definition stuck {A : Type} : M A := λ w, (Stuck, w).

(** [try { body } catch (e) { handler e }] *)
Definition tryCatch {A : Type} (body : M A) (handler : Error → M A) : M A :=
  λ w,
    match body w with
    | (Thrown e, w') => handler e w'
    | other => other
    end.

(** [try { body } finally { finalizer }] *)
Definition tryFinally {A : Type} (body : M A) (finalizer : M unit) : M A :=
  λ w,
    match body w with
    | (Returned a, w') => (finalizer ;; mret a) w'
    | (Thrown e, w') => (finalizer ;; throw e) w'
    | other => other
    end.

(** Run [m] and look at how it ended and at the world it left. *)
Definition inspect {A B : Type} (m : M A) (look : Outcome A → World → B) : M B :=
  λ w, let r := m w in (Returned (look r.1 r.2), r.2).

(** [throw new Error(message)] *)
Definition throwError {A : Type} (message : string) : M A :=
  throw (mkError PlainError message).

Fixpoint forEach {A : Type} (l : list A) (body : A → M unit) : M unit :=
  match l with
  | [] => mret tt
  | x :: rest => body x ;; forEach rest body
  end.

(** *** Reading and writing objects *)

(** Dereferencing.  References are handed out by allocation only, so a
    reference held by the program always resolves. *)

Definition readAgent (ref : nat) : M Agent :=
  w ← getWorld;
  match agents w !! ref with
  | Some a => mret a
  | None => stuck
  end.

Definition writeAgent (ref : nat) (a : Agent) : M unit :=
  w ← getWorld;
  putWorld (mkWorld (<[ref := a]> (agents w)) (agentArrays w) (messageArrays w)
              (nextRef w) (toolRuns w) (hookState w) (emitted w)).

Definition readAgentArray (ref : nat) : M (list nat) :=
  w ← getWorld;
  match agentArrays w !! ref with
  | Some l => mret l
  | None => stuck
  end.

Definition writeAgentArray (ref : nat) (l : list nat) : M unit :=
  w ← getWorld;
  putWorld (mkWorld (agents w) (<[ref := l]> (agentArrays w)) (messageArrays w)
              (nextRef w) (toolRuns w) (hookState w) (emitted w)).

Definition readMessages (ref : nat) : M (list Message) :=
  w ← getWorld;
  match messageArrays w !! ref with
  | Some l => mret l
  | None => stuck
  end.

Definition writeMessages (ref : nat) (l : list Message) : M unit :=
  w ← getWorld;
  putWorld (mkWorld (agents w) (agentArrays w) (<[ref := l]> (messageArrays w))
              (nextRef w) (toolRuns w) (hookState w) (emitted w)).

Definition freshRef : M nat :=
  w ← getWorld;
  putWorld (mkWorld (agents w) (agentArrays w) (messageArrays w)
              (S (nextRef w)) (toolRuns w) (hookState w) (emitted w)) ;;
  mret (nextRef w).

(** An array literal [[a, b, ...]] of agents. *)
Definition newAgentArray (l : list nat) : M nat :=
  ref ← freshRef;
  writeAgentArray ref l ;;
  mret ref.

Definition newMessageArray (l : list Message) : M nat :=
  ref ← freshRef;
  writeMessages ref l ;;
  mret ref.


(** *** Construction and tree wiring *)

(** The part of [AgentConfig] the conversation core reads.  [cfgSubAgents]
    is the array object the caller passes, by reference. *)
Record AgentConfig := mkAgentConfig {
  cfgName : option string;
  cfgModel : list ModelTurn;
  cfgMessages : list Message;
  cfgTools : list ToolListItem;
  cfgSubAgents : option nat;
  cfgParentAgent : option nat;
  cfgDisallowTransferToParent : option bool;
  cfgDisallowTransferToPeers : option bool;
  cfgConversationManager : option HookProvider;
  cfgHooks : list HookProvider
}.

Definition nestedSubAgentsMessage : string :=
  "Nested sub-agents are not supported. Child agents cannot define subAgents.".

Definition nameRequiredMessage : string :=
  "Agent name is required when using subAgents or parentAgent".

(** [agent.name ?? '<unnamed>'] *)
Definition nameOrUnnamed (a : Agent) : string := default "<unnamed>" (name a).

(** [_assertNamePresent(agent)]: [!agent.name] holds for [undefined] and for
    the empty string. *)
Definition _assertNamePresent (agent : nat) : M unit :=
  a ← readAgent agent;
  match name a with
  | Some n => if String.eqb n "" then throwError nameRequiredMessage else mret tt
  | None => throwError nameRequiredMessage
  end.

(** The loop of [_validateSiblingNames] over the children's names. *)
Fixpoint validateNames (parentName : string) (names : list (option string))
    (seen : gset string) : M unit :=
  match names with
  | [] => mret tt
  | None :: rest => validateNames parentName rest seen
  | Some childName :: rest =>
      if bool_decide (childName ∈ seen)
      then throwError ("Duplicate sub-agent name '" ++ childName
                       ++ "' under parent '" ++ parentName ++ "'")
      else validateNames parentName rest ({[childName]} ∪ seen)
  end.

Fixpoint readAgents (refs : list nat) : M (list Agent) :=
  match refs with
  | [] => mret []
  | ref :: rest => a ← readAgent ref; others ← readAgents rest; mret (a :: others)
  end.

Definition _validateSiblingNames (this : nat) : M unit :=
  self ← readAgent this;
  children ← readAgentArray (subAgents self);
  childAgents ← readAgents children;
  validateNames (nameOrUnnamed self) (map name childAgents) ∅.

(** The body of the loop of [_wireAgentTree] over [this.subAgents]. *)
Definition wireChild (this child : nat) : M unit :=
  c ← readAgent child;
  grandChildren ← readAgentArray (subAgents c);
  (if negb (bool_decide (grandChildren = []))
   then throwError nestedSubAgentsMessage
   else mret tt) ;;
  match parentAgent c with
  | Some other =>
      if bool_decide (other ≠ this)
      then o ← readAgent other;
           throwError ("Agent '" ++ nameOrUnnamed c ++ "' already has parent '"
                       ++ nameOrUnnamed o ++ "'")
      else mret tt
  | None => mret tt
  end ;;
  self ← readAgent this;
  writeAgent child
    (mkAgent (messages self) (hooks c) (name c) (subAgents c) (Some this)
       (disallowTransferToParent c) (disallowTransferToPeers c) (model c)
       (_toolRegistry c) (_mcpClients c) (_initialized c) (_activeAgentName c)
       (_pendingTransferTarget c) (_consecutiveTransfers c)).

Definition _wireAgentTree (this : nat) : M unit :=
  self ← readAgent this;
  ownChildren ← readAgentArray (subAgents self);
  (if bool_decide (is_Some (parentAgent self)) && negb (bool_decide (ownChildren = []))
   then throwError nestedSubAgentsMessage
   else mret tt) ;;
  match parentAgent self with
  | Some parent =>
      p ← readAgent parent;
      siblings ← readAgentArray (subAgents p);
      if bool_decide (this ∈ siblings) then mret tt
      else writeAgentArray (subAgents p) (siblings ++ [this])%list
  | None => mret tt
  end ;;
  children ← readAgentArray (subAgents self);
  forEach children (wireChild this) ;;
  _validateSiblingNames this ;;
  if negb (bool_decide (children = [])) || bool_decide (is_Some (parentAgent self))
  then _assertNamePresent this ;; forEach children _assertNamePresent
  else mret tt.

(** [new Agent(config)].  The printer, the state store and the system
    prompt play no part in what follows and are left out. *)
Definition newAgent (config : AgentConfig) : M nat :=
  messagesRef ← newMessageArray (cfgMessages config);
  let conversationManager :=
    default (slidingWindowCallbacks
               (SlidingWindow.new (Some (Number.Integer 40)) None))
            (cfgConversationManager config) in
  let registry := (conversationManager ++ concat (cfgHooks config))%list in
  subAgentsRef ← match cfgSubAgents config with
                 | Some array => mret array
                 | None => newAgentArray []
                 end;
  let flattened := flattenTools (cfgTools config) in
  this ← freshRef;
  writeAgent this
    (mkAgent messagesRef registry (cfgName config) subAgentsRef (cfgParentAgent config)
       (default false (cfgDisallowTransferToParent config))
       (default false (cfgDisallowTransferToPeers config))
       (cfgModel config) flattened.1 flattened.2 false None None 0) ;;
  _wireAgentTree this ;;
  mret this.

(** [getRootAgent(agent)]: the [while] loop up the parent links. *)
Fixpoint getRootAgent (fuel : nat) (w : World) (current : nat) : nat :=
  match fuel with
  | O => current
  | S fuel' =>
      match agents w !! current with
      | Some a =>
          match parentAgent a with
          | Some parent => getRootAgent fuel' w parent
          | None => current
          end
      | None => current
      end
  end.

(** [findAgent(name)], with [findSubAgent(name)] as its inner loop: [fuel]
    bounds the depth of the descent. *)
Fixpoint findAgent (fuel : nat) (w : World) (this : nat) (target : string) : option nat :=
  match fuel with
  | O => None
  | S fuel' =>
      match agents w !! this with
      | None => None
      | Some self =>
          if bool_decide (name self = Some target) then Some this
          else
            foldr (λ child later,
                     match findAgent fuel' w child target with
                     | Some found => Some found
                     | None => later
                     end)
                  None (default [] (agentArrays w !! subAgents self))
      end
  end.

(** The deduplication loop of [_getTransferTargets]. *)
Fixpoint dedupeTargets (w : World) (targets : list nat) (seenNames : gset string)
  : list nat :=
  match targets with
  | [] => []
  | target :: rest =>
      match agents w !! target ≫= name with
      | Some targetName =>
          if String.eqb targetName "" || bool_decide (targetName ∈ seenNames)
          then dedupeTargets w rest seenNames
          else target :: dedupeTargets w rest ({[targetName]} ∪ seenNames)
      | None => dedupeTargets w rest seenNames
      end
  end.

Definition _getTransferTargets (w : World) (agent : nat) : list nat :=
  match agents w !! agent with
  | None => []
  | Some a =>
      let children := default [] (agentArrays w !! subAgents a) in
      let upward :=
        match parentAgent a with
        | Some parent =>
            let peers :=
              default [] (agents w !! parent ≫= λ p, agentArrays w !! subAgents p) in
            ((if disallowTransferToParent a then [] else [parent])
             ++ (if disallowTransferToPeers a then []
                 else filter (λ peer, peer ≠ agent) peers))%list
        | None => []
        end in
      dedupeTargets w (children ++ upward)%list ∅
  end.


(** *** Field assignments *)

Definition withModel (a : Agent) (turns : list ModelTurn) : Agent :=
  mkAgent (messages a) (hooks a) (name a) (subAgents a) (parentAgent a)
    (disallowTransferToParent a) (disallowTransferToPeers a) turns
    (_toolRegistry a) (_mcpClients a) (_initialized a) (_activeAgentName a)
    (_pendingTransferTarget a) (_consecutiveTransfers a).

(** [agent._toolRegistry.addAll(tools)] *)
Definition addAll (a : Agent) (tools : list Tool) : Agent :=
  mkAgent (messages a) (hooks a) (name a) (subAgents a) (parentAgent a)
    (disallowTransferToParent a) (disallowTransferToPeers a) (model a)
    (_toolRegistry a ++ tools)%list (_mcpClients a) (_initialized a) (_activeAgentName a)
    (_pendingTransferTarget a) (_consecutiveTransfers a).

Definition withInitialized (a : Agent) (b : bool) : Agent :=
  mkAgent (messages a) (hooks a) (name a) (subAgents a) (parentAgent a)
    (disallowTransferToParent a) (disallowTransferToPeers a) (model a)
    (_toolRegistry a) (_mcpClients a) b (_activeAgentName a)
    (_pendingTransferTarget a) (_consecutiveTransfers a).

Definition withActiveAgentName (a : Agent) (n : option string) : Agent :=
  mkAgent (messages a) (hooks a) (name a) (subAgents a) (parentAgent a)
    (disallowTransferToParent a) (disallowTransferToPeers a) (model a)
    (_toolRegistry a) (_mcpClients a) (_initialized a) n
    (_pendingTransferTarget a) (_consecutiveTransfers a).

Definition withPendingTransferTarget (a : Agent) (t : option string) : Agent :=
  mkAgent (messages a) (hooks a) (name a) (subAgents a) (parentAgent a)
    (disallowTransferToParent a) (disallowTransferToPeers a) (model a)
    (_toolRegistry a) (_mcpClients a) (_initialized a) (_activeAgentName a)
    t (_consecutiveTransfers a).

Definition withConsecutiveTransfers (a : Agent) (n : nat) : Agent :=
  mkAgent (messages a) (hooks a) (name a) (subAgents a) (parentAgent a)
    (disallowTransferToParent a) (disallowTransferToPeers a) (model a)
    (_toolRegistry a) (_mcpClients a) (_initialized a) (_activeAgentName a)
    (_pendingTransferTarget a) n.

(** [agent.field = value] *)
Definition assign {V : Type} (ref : nat) (setter : Agent → V → Agent) (v : V) : M unit :=
  a ← readAgent ref;
  writeAgent ref (setter a v).

(** *** Yielding and hook dispatch *)

(** The consumer receives [e]. *)
Definition emit (e : AgentStreamEvent) : M unit :=
  w ← getWorld;
  putWorld (mkWorld (agents w) (agentArrays w) (messageArrays w) (nextRef w)
              (toolRuns w) (hookState w) (emitted w ++ [e])%list).

(** [await owner.hooks.invokeCallbacks(event)], the event's [agent] being
    [owner]: the event as the callbacks left it and the error one of them
    threw, if any. *)
Definition runHooks (owner : nat) (event : HookEvent) : M (HookEvent * option Error) :=
  a ← readAgent owner;
  history ← readMessages (messages a);
  w ← getWorld;
  let effect := invokeCallbacks (hooks a) event history (hookState w) in
  putWorld (mkWorld (agents w) (agentArrays w)
              (<[messages a := effMessages effect]> (messageArrays w)) (nextRef w)
              (toolRuns w) (effState effect) (emitted w)) ;;
  mret (effEvent effect, effThrown effect).

(** [yield event] for a hook event other than [MessageAddedEvent], as
    served by the loop of [_streamFromEntry]: the root's callbacks run on
    the event while the generator is suspended, then the consumer receives
    it, and the generator resumes with the event object as the callbacks
    left it.  A callback that throws ends [_streamFromEntry] there. *)
Definition yieldHook (this : nat) (d : EventData) : M HookEvent :=
  dispatched ← runHooks this (newEvent d);
  match dispatched.2 with
  | Some e => abandon e
  | None => emit (HookStreamEvent dispatched.1) ;; mret dispatched.1
  end.

(** [_appendMessage(message, author)] *)
Definition _appendMessage (this : nat) (message : Message) (messageAuthor : option string)
  : M HookEvent :=
  let messageToAppend :=
    match messageAuthor, author message with
    | Some a, None => mkMessage (role message) (content message) (Some a)
    | _, _ => message
    end in
  self ← readAgent this;
  history ← readMessages (messages self);
  writeMessages (messages self) (history ++ [messageToAppend])%list ;;
  dispatched ← runHooks this (newEvent (MessageAdded messageToAppend));
  match dispatched.2 with
  | Some e => throw e
  | None => mret dispatched.1
  end.

(** [yield await this._appendMessage(message, author)] *)
Definition appendAndYield (this : nat) (message : Message) (messageAuthor : option string)
  : M unit :=
  event ← _appendMessage this message messageAuthor;
  emit (HookStreamEvent event).

(** [initialize()].  [Promise.all] asks every client for its tools at
    once and fails with the first failure; here the clients answer in the
    order of the list, each adding its tools as it answers, and a client
    that fails ends the call before the clients after it have answered. *)
Definition initialize (this : nat) : M unit :=
  self ← readAgent this;
  if _initialized self then mret tt
  else
    forEach (_mcpClients self)
      (λ client,
         match listTools client with
         | Ok tools => assign this addAll tools
         | Throw e => throw e
         end) ;;
    dispatched ← runHooks this (newEvent Initialized);
    match dispatched.2 with
    | Some e => throw e
    | None => assign this withInitialized true
    end.

(** *** Input *)

Inductive InvokeArgs :=
| TextArgs (text : string)
| BlockArgs (blocks : list ContentBlock)
| MessageArgs (messages : list Message).

(** [_normalizeInput(args)] *)
Definition _normalizeInput (args : option InvokeArgs) : list Message :=
  match args with
  | Some (TextArgs text) => [mkMessage user [TextBlock text] None]
  | Some (MessageArgs (first :: rest)) => first :: rest
  | Some (BlockArgs (first :: rest)) => [mkMessage user (first :: rest) None]
  | _ => []
  end.

(** *** The model call *)

(** [_streamFromModel(activeAgent, messages, streamOptions)].  The provider
    is external: what it streams and how it ends is read off the agent's
    [model], one entry per call. *)
Definition _streamFromModel (this activeAgent : nat) : M (Message * StopReason) :=
  active ← readAgent activeAgent;
  match model active with
  | [] => stuck
  | turn :: later =>
      assign activeAgent withModel later ;;
      forEach (modelEvents turn)
        (λ event, yieldHook this (ModelStream event) ;; emit (ModelStreamed event)) ;;
      match modelOutcome turn with
      | Ok result => mret result
      | Throw e => throw e
      end
  end.

(** [invokeModel(activeAgent, runtime, args)]; [fuel] bounds the chain of
    retries. *)
Fixpoint invokeModel (fuel : nat) (this activeAgent : nat) (args : option InvokeArgs)
  : M (Message * StopReason) :=
  match fuel with
  | O => outOfFuel
  | S fuel' =>
      let messagesToAppend := _normalizeInput args in
      forEach messagesToAppend (λ message, appendAndYield this message None) ;;
      yieldHook this BeforeModelCall ;;
      tryCatch
        (result ← _streamFromModel this activeAgent;
         afterModelCallEvent ← yieldHook this (AfterModelCall (Some result) None);
         if propIsTruthy "retry" afterModelCallEvent
         then invokeModel fuel' this activeAgent args
         else mret result)
        (λ error,
           let modelError := error in
           errorEvent ← yieldHook this (AfterModelCall None (Some modelError));
           if propIsTruthy "retry" errorEvent
           then invokeModel fuel' this activeAgent args
           else throw error)
  end.


(** *** Tools *)

Definition transferToolName : string := "transfer_to_agent".

(** The [queueTransfer] closure that [_buildRuntimeForActiveAgent] hands to
    the transfer tool. *)
Definition queueTransfer (this : nat) (targetAgentName : string) : M unit :=
  root ← readAgent this;
  if MAX_CONSECUTIVE_TRANSFERS <=? _consecutiveTransfers root
  then throwError
         "Transfer guard triggered after 8 consecutive transfers in one invocation"
  else assign this withPendingTransferTarget (Some targetAgentName).

(** [input.agentName], when the input matches the tool's schema. *)
Definition agentNameOf (input : JSONValue) : option string :=
  match input with
  | JObject fields =>
      match snd <$> find (λ field, String.eqb (fst field) "agentName") fields with
      | Some (JString agentName) => Some agentName
      | _ => None
      end
  | _ => None
  end.

(** The stream of the tool made by [createTransferToAgentTool].
    Modelled from the spec: [src/tools/zod-tool.ts] is not among the
    sources.  The tool takes "schema [{agentName: string}]"; an input off
    the schema and a callback that throws are errors of the tool; the value
    the callback returns becomes a success result for the tool use. *)
Definition transferToolStream (this : nat) (allowedTargets : list string)
    (toolUse : ToolUse) : M (option ToolResult) :=
  match agentNameOf (toolUseInput toolUse) with
  | None => throwError "Invalid tool input"
  | Some agentName =>
      (if bool_decide (agentName ∈ allowedTargets) then mret tt
       else throwError ("Agent '" ++ agentName ++ "' is not a valid transfer target")) ;;
      queueTransfer this agentName ;;
      mret (Some (mkToolResult (toolUseId toolUse) status_success
                    [JsonContent (JObject [("success", JBool true);
                                           ("action", JString "transfer_to_agent");
                                           ("targetAgentName", JString agentName)])]
                    None))
  end.

(** [tool.stream(toolContext)].  An external tool's run is read off the
    world, one entry per call. *)
Definition toolStream (this : nat) (tool : Tool) (toolUse : ToolUse)
  : M (option ToolResult) :=
  match toolBody tool with
  | TransferToAgentTool allowedTargets => transferToolStream this allowedTargets toolUse
  | ExternalTool =>
      w ← getWorld;
      match toolRuns w with
      | [] => stuck
      | run :: later =>
          putWorld (mkWorld (agents w) (agentArrays w) (messageArrays w) (nextRef w)
                      later (hookState w) (emitted w)) ;;
          forEach (toolEvents run) (λ event, emit (ToolStreamed event)) ;;
          match toolOutcome run with
          | ToolReturns result => mret result
          | ToolThrows e => throw e
          end
      end
  end.

Definition toolNotFound (toolUseBlock : ToolUse) : ToolResult :=
  mkToolResult (toolUseId toolUseBlock) status_error
    [TextContent ("Tool '" ++ toolUseName toolUseBlock ++ "' not found in registry")] None.

Definition toolDidNotReturn (toolUseBlock : ToolUse) : ToolResult :=
  mkToolResult (toolUseId toolUseBlock) status_error
    [TextContent ("Tool '" ++ toolUseName toolUseBlock ++ "' did not return a result")] None.

Definition toolThrew (toolUseBlock : ToolUse) (error : Error) : ToolResult :=
  mkToolResult (toolUseId toolUseBlock) status_error
    [TextContent (errMessage error)] (Some error).

(** The part of the loop body of [executeTool] between the two [yield]s:
    it computes [toolResult] and [error]. *)
Definition toolAttempt (this : nat) (tool : option Tool) (toolUseBlock : ToolUse)
  : M (ToolResult * option Error) :=
  match tool with
  | None => mret (toolNotFound toolUseBlock, None)
  | Some t =>
      tryCatch
        (result ← toolStream this t toolUseBlock;
         match result with
         | None => mret (toolDidNotReturn toolUseBlock, None)
         | Some toolResult => mret (toolResult, resultError toolResult)
         end)
        (λ e, mret (toolThrew toolUseBlock e, Some e))
  end.

(** [toolRegistry.find((t) => t.name === toolUseBlock.name)] *)
Definition findTool (toolRegistry : list Tool) (toolUseBlock : ToolUse) : option Tool :=
  find (λ t, String.eqb (toolName t) (toolUseName toolUseBlock)) toolRegistry.

(** [executeTool(toolUseBlock, toolRegistry, activeAgent)]; [fuel] bounds
    the number of runs of its [while (true)] loop. *)
Fixpoint executeTool (fuel : nat) (this : nat) (toolUseBlock : ToolUse)
    (toolRegistry : list Tool) : M ToolResult :=
  match fuel with
  | O => outOfFuel
  | S fuel' =>
      let tool := findTool toolRegistry toolUseBlock in
      yieldHook this (BeforeToolCall toolUseBlock (bool_decide (is_Some tool))) ;;
      attempt ← toolAttempt this tool toolUseBlock;
      afterToolCallEvent ←
        yieldHook this (AfterToolCall toolUseBlock (bool_decide (is_Some tool))
                          attempt.1 attempt.2);
      if propIsTruthy "retry" afterToolCallEvent
      then executeTool fuel' this toolUseBlock toolRegistry
      else mret attempt.1
  end.

(** The [for] loop of [executeTools]. *)
Fixpoint executeEach (fuel : nat) (this : nat) (toolUseBlocks : list ToolUse)
    (toolRegistry : list Tool) : M (list ToolResult) :=
  match toolUseBlocks with
  | [] => mret []
  | toolUseBlock :: rest =>
      toolResultBlock ← executeTool fuel this toolUseBlock toolRegistry;
      emit (ToolResultStreamed toolResultBlock) ;;
      others ← executeEach fuel this rest toolRegistry;
      mret (toolResultBlock :: others)
  end.

(** [assistantMessage.content.filter((block) => block.type === 'toolUseBlock')] *)
Definition toolUseBlocksOf (assistantMessage : Message) : list ToolUse :=
  omap (λ block, match block with ToolUseBlock toolUse => Some toolUse | _ => None end)
       (content assistantMessage).

(** [executeTools(assistantMessage, toolRegistry, activeAgent)] *)
Definition executeTools (fuel : nat) (this : nat) (assistantMessage : Message)
    (toolRegistry : list Tool) : M Message :=
  yieldHook this (BeforeTools assistantMessage) ;;
  let toolUseBlocks := toolUseBlocksOf assistantMessage in
  (if bool_decide (toolUseBlocks = [])
   then throwError "Model indicated toolUse but no tool use blocks found in message"
   else mret tt) ;;
  toolResultBlocks ← executeEach fuel this toolUseBlocks toolRegistry;
  let toolResultMessage := mkMessage user (map ToolResultBlock toolResultBlocks) None in
  yieldHook this (AfterTools toolResultMessage) ;;
  mret toolResultMessage.

(** The tools of [_buildRuntimeForActiveAgent(activeAgent)]: the agent's own
    tools and, when there is a transfer target, the transfer tool. *)
Definition _buildRuntimeForActiveAgent (w : World) (activeAgent : nat) : list Tool :=
  let transferTargets := _getTransferTargets w activeAgent in
  let runtimeTools := default [] (_toolRegistry <$> agents w !! activeAgent) in
  if bool_decide (transferTargets = []) then runtimeTools
  else (runtimeTools
        ++ [mkTool transferToolName
              (TransferToAgentTool
                 (omap (λ target, agents w !! target ≫= name) transferTargets))])%list.

(** [if (s)] on an optional string: [undefined] and [''] are falsy. *)
Definition truthyString (s : option string) : option string :=
  match s with
  | Some text => if String.eqb text "" then None else Some text
  | None => None
  end.

(** [_resolveInitialActiveAgent(initialAgent)] *)
Definition _resolveInitialActiveAgent (w : World) (this initialAgent : nat) : nat :=
  if bool_decide (initialAgent ≠ this) then initialAgent
  else
    match truthyString (agents w !! this ≫= _activeAgentName) with
    | Some remembered =>
        default initialAgent (findAgent (S (size (agents w))) w this remembered)
    | None => initialAgent
    end.

(** *** The loop of [_stream] *)

(** The [while (true)] loop of [_stream]; [fuel] bounds its iterations (and
    those of the loops inside). *)
Fixpoint streamLoop (fuel : nat) (this : nat) (currentArgs : option InvokeArgs)
    (activeAgent : nat) : M AgentResult :=
  match fuel with
  | O => outOfFuel
  | S fuel' =>
      initialize activeAgent ;;
      w ← getWorld;
      let runtime := _buildRuntimeForActiveAgent w activeAgent in
      modelResult ← invokeModel fuel this activeAgent currentArgs;
      active ← readAgent activeAgent;
      if negb (isToolUseStop modelResult.2) then
        appendAndYield this modelResult.1 (name active) ;;
        assign this withActiveAgentName (name active) ;;
        mret (mkAgentResult modelResult.2 modelResult.1)
      else
        toolResultMessage ← executeTools fuel this modelResult.1 runtime;
        appendAndYield this modelResult.1 (name active) ;;
        appendAndYield this toolResultMessage (name active) ;;
        root ← readAgent this;
        let pendingTarget := _pendingTransferTarget root in
        assign this withPendingTransferTarget None ;;
        match truthyString pendingTarget with
        | Some target =>
            w ← getWorld;
            match findAgent (S (size (agents w))) w this target with
            | None => throwError ("Agent '" ++ target ++ "' not found in the agent tree")
            | Some nextAgent =>
                root ← readAgent this;
                if MAX_CONSECUTIVE_TRANSFERS <=? _consecutiveTransfers root then
                  assign this withConsecutiveTransfers 0 ;;
                  streamLoop fuel' this None activeAgent
                else
                  next ← readAgent nextAgent;
                  let fromAgentName := default "unnamed_agent" (name active) in
                  let toAgentName := default "unnamed_agent" (name next) in
                  yieldHook this (BeforeTransfer fromAgentName toAgentName) ;;
                  assign this withActiveAgentName (name next) ;;
                  root ← readAgent this;
                  assign this withConsecutiveTransfers (S (_consecutiveTransfers root)) ;;
                  yieldHook this (AfterTransfer fromAgentName toAgentName) ;;
                  streamLoop fuel' this None nextAgent
            end
        | None =>
            assign this withConsecutiveTransfers 0 ;;
            streamLoop fuel' this None activeAgent
        end
  end.

(** [_stream(args, initialAgent)] *)
Definition _stream (fuel : nat) (this : nat) (args : InvokeArgs) (initialAgent : nat)
  : M AgentResult :=
  w ← getWorld;
  let activeAgent := _resolveInitialActiveAgent w this initialAgent in
  yieldHook this BeforeInvocation ;;
  tryFinally (streamLoop fuel this (Some args) activeAgent)
             (yieldHook this AfterInvocation ;; mret tt).

(** What the body of [_streamFromEntry(args, initialAgent)] does between
    taking the lock and releasing it, when its consumer drains it: an error
    thrown while a hook event is dispatched leaves it like any other. *)
Definition streamFromEntryBody (fuel : nat) (this : nat) (args : InvokeArgs)
    (initialAgent : nat) : M AgentResult :=
  λ w,
    match (initialize this ;;
           result ← _stream fuel this args initialAgent;
           emit (AgentResultStreamed result) ;;
           mret result) w with
    | (Abandoned e, w') => (Thrown e, w')
    | other => other
    end.

End AgentModel.

(** ** The invocation lock and the generator of [stream] *)

(** What a call of [next()] on the generator of [_stream] gives: a yielded
    event, the returned result, or a thrown error. *)
Inductive InnerStep (Inner St : Type) :=
| InnerYields (event : AgentStreamEvent) (inner : Inner) (st : St)
| InnerReturns (result : AgentResult) (st : St)
| InnerThrows (e : Error) (st : St).
Arguments InnerYields {Inner St} event inner st.
Arguments InnerReturns {Inner St} result st.
Arguments InnerThrows {Inner St} e st.

(** What a call of [next()] on the generator of [stream] gives its caller. *)
Inductive IteratorResult :=
| YieldedValue (event : AgentStreamEvent)
| DoneValue (value : option AgentResult)
| Raised (e : Error).

Definition concurrentInvocation : Error :=
  mkError ConcurrentInvocationError
    "Agent is already processing an invocation. Wait for the current invoke() or stream() call to complete before invoking again.".

Section Generators.
(** [St] is the state of the agent tree apart from the lock, [Inner] a
    suspended generator of [_stream], [Args] the argument of a call. *)
Context {St Inner Args : Type}.
(** [await this.initialize()] *)
Variable initializeRoot : St → option Error * St.
(** [this._stream(args, initialAgent)]: making the generator runs nothing. *)
Variable startInner : Args → nat → Inner.
(** [await streamGenerator.next()] *)
Variable nextInner : Inner → St → InnerStep Inner St.
(** [await this.hooks.invokeCallbacks(event)] for the events it is called
    on, then [this._printer?.processEvent(event)]. *)
Variable processEvent : AgentStreamEvent → St → option Error * St.

(** The root agent: its lock and the rest of the state. *)
Record RootAgent := mkRootAgent {
  _isInvoking : bool;
  rootState : St
}.

(** [acquireLock()] *)
Definition acquireLock (root : RootAgent) : Result RootAgent :=
  if _isInvoking root then Throw concurrentInvocation
  else Ok (mkRootAgent true (rootState root)).

(** The [Symbol.dispose] of the object [acquireLock] returns, run when the
    scope of [using _lock] is left. *)
Definition disposeLock (root : RootAgent) : RootAgent :=
  mkRootAgent false (rootState root).

(** The generator object [_streamFromEntry(args, initialAgent)] returns:
    not started, suspended at [yield event], suspended at
    [yield result.value], or completed. *)
Inductive StreamGen :=
| NotStarted (args : Args) (initialAgent : nat)
| AtEvent (inner : Inner)
| AtResult (result : AgentResult)
| Completed.

(** From [await streamGenerator.next()] to the next [yield] of
    [_streamFromEntry], or to its end; the lock is held. *)
Definition advance (inner : Inner) (st : St) : IteratorResult * StreamGen * RootAgent :=
  match nextInner inner st with
  | InnerThrows e st' => (Raised e, Completed, disposeLock (mkRootAgent true st'))
  | InnerReturns result st' =>
      (YieldedValue (AgentResultStreamed result), AtResult result, mkRootAgent true st')
  | InnerYields event inner' st' =>
      match processEvent event st' with
      | (Some e, st'') => (Raised e, Completed, disposeLock (mkRootAgent true st''))
      | (None, st'') => (YieldedValue event, AtEvent inner', mkRootAgent true st'')
      end
  end.

(** [gen.next()] *)
Definition genNext (gen : StreamGen) (root : RootAgent)
  : IteratorResult * StreamGen * RootAgent :=
  match gen with
  | NotStarted args initialAgent =>
      match acquireLock root with
      | Throw e => (Raised e, Completed, root)
      | Ok locked =>
          match initializeRoot (rootState locked) with
          | (Some e, st) => (Raised e, Completed, disposeLock (mkRootAgent true st))
          | (None, st) => advance (startInner args initialAgent) st
          end
      end
  | AtEvent inner => advance inner (rootState root)
  | AtResult result => (DoneValue (Some result), Completed, disposeLock root)
  | Completed => (DoneValue None, Completed, root)
  end.

(** [gen.return()]: the consumer leaves the generator early. *)
Definition genReturn (gen : StreamGen) (root : RootAgent) : StreamGen * RootAgent :=
  match gen with
  | NotStarted _ _ => (Completed, root)
  | AtEvent _ => (Completed, disposeLock root)
  | AtResult _ => (Completed, disposeLock root)
  | Completed => (Completed, root)
  end.

(** [stream(args)] called on the agent [this] of the tree: the generator of
    [root._streamFromEntry(args, this)], which [stream] delegates to. *)
Definition stream (this : nat) (args : Args) : StreamGen := NotStarted args this.

(** The loop of [invoke]: [fuel] bounds the calls of [gen.next()]. *)
Fixpoint drain (fuel : nat) (gen : StreamGen) (root : RootAgent)
  : option (Result (option AgentResult) * RootAgent) :=
  match fuel with
  | O => None
  | S fuel' =>
      match genNext gen root with
      | (YieldedValue _, gen', root') => drain fuel' gen' root'
      | (DoneValue value, _, root') => Some (Ok value, root')
      | (Raised e, _, root') => Some (Throw e, root')
      end
  end.

(** [invoke(args)] *)
Definition invoke (fuel : nat) (this : nat) (args : Args) (root : RootAgent)
  : option (Result (option AgentResult) * RootAgent) :=
  drain fuel (stream this args) root.

(** A generator that has taken the lock and has not completed. *)
Definition inFlight (gen : StreamGen) : bool :=
  match gen with
  | AtEvent _ | AtResult _ => true
  | NotStarted _ _ | Completed => false
  end.

(** *** A program using one agent tree *)

(** The root agent and the generators the program holds, by handle. *)
Record Program := mkProgram {
  progRoot : RootAgent;
  progGens : list StreamGen
}.

(** What the program does next: call [stream], call [next()] or
    [return()] on a generator it holds. *)
Inductive Action :=
| CallStream (this : nat) (args : Args)
| CallNext (handle : nat)
| CallReturn (handle : nat).

Definition act (a : Action) (p : Program) : Program :=
  match a with
  | CallStream this args =>
      mkProgram (progRoot p) (progGens p ++ [stream this args])%list
  | CallNext handle =>
      match progGens p !! handle with
      | Some gen =>
          let '(_, gen', root') := genNext gen (progRoot p) in
          mkProgram root' (<[handle := gen']> (progGens p))
      | None => p
      end
  | CallReturn handle =>
      match progGens p !! handle with
      | Some gen =>
          let '(gen', root') := genReturn gen (progRoot p) in
          mkProgram root' (<[handle := gen']> (progGens p))
      | None => p
      end
  end.

(** The programs that can arise from a fresh agent. *)
Inductive reachable (st0 : St) : Program → Prop :=
| reachable_start : reachable st0 (mkProgram (mkRootAgent false st0) [])
| reachable_act p a : reachable st0 p → reachable st0 (act a p).

(** *** Exhausting a generator, in the words of the claim *)

(** [exhausts gen root events outcome root']: calling [next()] on [gen]
    until it is done yields [events] and ends with [outcome], leaving the
    root as [root']. *)
Inductive exhausts : StreamGen → RootAgent → list AgentStreamEvent →
                     Result (option AgentResult) → RootAgent → Prop :=
| exhausts_yield gen root event gen' root' events outcome root'' :
    genNext gen root = (YieldedValue event, gen', root') →
    exhausts gen' root' events outcome root'' →
    exhausts gen root (event :: events) outcome root''
| exhausts_done gen root value gen' root' :
    genNext gen root = (DoneValue value, gen', root') →
    exhausts gen root [] (Ok value) root'
| exhausts_raised gen root e gen' root' :
    genNext gen root = (Raised e, gen', root') →
    exhausts gen root [] (Throw e) root'.

End Generators.

(** ** Stop reasons of the Bedrock provider *)

(** The strings are sequences of bytes; the pattern of [snakeToCamel] and
    the keys of [STOP_REASON_MAP] are ASCII, and no byte of a character
    outside ASCII is an underscore or one of [a-z]. *)

(** [c] is one of [a-z]. *)
Definition isLowerCaseLetter (c : ascii) : bool :=
  (97 <=? nat_of_ascii c) && (nat_of_ascii c <=? 122).

(** [letter.toUpperCase()] for a letter of [a-z]. *)
Definition toUpperCase (c : ascii) : ascii := ascii_of_nat (nat_of_ascii c - 32).

(** [snakeToCamel(str)]:
    [str.replace(/_([a-z])/g, (_, letter) => letter.toUpperCase())].  The
    matches are found from left to right and do not overlap. *)
Fixpoint snakeToCamel (str : string) : string :=
  match str with
  | EmptyString => EmptyString
  | String c rest =>
      match rest with
      | String letter rest' =>
          if Ascii.eqb c "_" && isLowerCaseLetter letter
          then String (toUpperCase letter) (snakeToCamel rest')
          else String c (snakeToCamel rest)
      | EmptyString => String c EmptyString
      end
  end.

Definition STOP_REASON_MAP : list (string * string) :=
  [("end_turn", "endTurn");
   ("tool_use", "toolUse");
   ("max_tokens", "maxTokens");
   ("stop_sequence", "stopSequence");
   ("content_filtered", "contentFiltered");
   ("guardrail_intervened", "guardrailIntervened")].

(** [stopReasonRaw in STOP_REASON_MAP] holds of the keys of the literal and
    of the names the literal inherits from [Object.prototype]. *)
Definition objectPrototypeKeys : list string :=
  ["constructor"; "hasOwnProperty"; "isPrototypeOf"; "propertyIsEnumerable";
   "toLocaleString"; "toString"; "valueOf"; "__proto__";
   "__defineGetter__"; "__defineSetter__"; "__lookupGetter__"; "__lookupSetter__"].

(** What [_transformStopReason] returns: a string, or the inherited member
    that [STOP_REASON_MAP[stopReasonRaw]] is for an inherited name. *)
Inductive MappedStopReason :=
| StopReasonText (text : string)
| InheritedMember (key : string).

(** A content block of a Bedrock response, by the key it has. *)
Inductive BedrockContentBlock :=
| BedrockText (text : string)
| BedrockToolUse (toolUse : ToolUse)
| BedrockReasoningContent (text : string).

(** The [event] argument of [_transformStopReason]: left out, the
    [messageStop] event of a streamed response (it has no [output]), or the
    output of a [Converse] call, with [event.output?.message?.content]. *)
Inductive StopReasonEvent :=
| NoEvent
| MessageStopEvent
| ConverseCommandOutput (content : option (list BedrockContentBlock)).

(** ['toolUse' in block] *)
Definition hasToolUseKey (block : BedrockContentBlock) : bool :=
  match block with BedrockToolUse _ => true | _ => false end.

(** [event && 'output' in event &&
     event.output?.message?.content?.some((block) => 'toolUse' in block)] *)
Definition outputHasToolUse (event : StopReasonEvent) : bool :=
  match event with
  | ConverseCommandOutput (Some content) => existsb hasToolUseKey content
  | _ => false
  end.

(** [STOP_REASON_MAP[stopReasonRaw]] for a key of the literal. *)
Definition stopReasonOf (stopReasonRaw : string) : option string :=
  snd <$> find (λ entry, String.eqb (fst entry) stopReasonRaw) STOP_REASON_MAP.

(** [_transformStopReason(stopReasonRaw, event)] *)
Definition _transformStopReason (stopReasonRaw : string) (event : StopReasonEvent)
  : MappedStopReason :=
  let mappedStopReason :=
    match stopReasonOf stopReasonRaw with
    | Some mapped => StopReasonText mapped
    | None =>
        if existsb (String.eqb stopReasonRaw) objectPrototypeKeys
        then InheritedMember stopReasonRaw
        else StopReasonText (snakeToCamel stopReasonRaw)
    end in
  match mappedStopReason with
  | StopReasonText text =>
      if String.eqb text "endTurn" && outputHasToolUse event
      then StopReasonText "toolUse"
      else mappedStopReason
  | InheritedMember _ => mappedStopReason
  end.

(** * Notions used to state the properties *)

(** ** Sample histories *)

Definition textMessage (r : Role) (t : string) : Message :=
  mkMessage r [TextBlock t] None.

Definition toolUseMessage (id : string) : Message :=
  mkMessage assistant [ToolUseBlock (mkToolUse "tool1" id (JObject []))] None.

Definition toolResultMessage (id : string) (st : ToolResultStatus) (t : string) : Message :=
  mkMessage user [ToolResultBlock (mkToolResult id st [TextContent t] None)] None.

(** ** The pairing invariant, at the granularity the reducer works at *)

(** The first message holds no tool-result block. *)
Definition startsPaired (messages : list Message) : bool :=
  match messages with
  | [] => true
  | first :: _ => negb (hasToolResult first)
  end.

(** The first message, when it holds a tool-use block, is followed by a
    message with a tool-result block. *)
Definition headToolUseAnswered (messages : list Message) : bool :=
  match messages with
  | [] => true
  | first :: rest =>
      if hasToolUse first then
        match rest with
        | next :: _ => hasToolResult next
        | [] => false
        end
      else true
  end.

(** Every message with a tool-use block is followed by a message with a
    tool-result block. *)
Fixpoint toolUsesAnswered (messages : list Message) : bool :=
  match messages with
  | [] => true
  | _ :: rest => headToolUseAnswered messages && toolUsesAnswered rest
  end.

Definition pairingInvariant (messages : list Message) : bool :=
  startsPaired messages && toolUsesAnswered messages.

Definition sameKinds (a b : Message) : Prop :=
  hasToolResult a = hasToolResult b ∧ hasToolUse a = hasToolUse b.

(** ** Phase 2 of the reduction, in the words of the specification *)

(** "[messages.length - windowSize] if [messages.length > windowSize],
    else a fixed default of 2" *)
Definition candidateCutIndex (windowSize : Z) (len : nat) : Z :=
  if (windowSize <? Z.of_nat len)%Z then (Z.of_nat len - windowSize)%Z else 2%Z.

(** "invalid starts are (a) a message whose content includes a tool-result
    block, or (b) a message whose content includes a tool-use block whose
    paired result is not the very next message".  The result paired with
    a tool-use message is the tool-result message that answers it; block
    kinds decide, correlation ids are not compared. *)
Definition invalidStart (messages : list Message) (i : nat) : Prop :=
  ∃ m, messages !! i = Some m ∧
    (hasToolResult m = true ∨
     (hasToolUse m = true ∧
      ¬ ∃ next, messages !! S i = Some next ∧ hasToolResult next = true)).

(** "Starting at that index, scan forward (never backward) to find the
    first index that is a valid new start", advancing "past each invalid
    start"; an index past the last message ends the scan. *)
Definition firstValidStartFrom (messages : list Message) (c k : nat) : Prop :=
  c ≤ k ∧ (∀ i, c ≤ i < k → invalidStart messages i) ∧ ¬ invalidStart messages k.

(** ** Phase 2 for a window size that is an integer *)

(** With an integer for window size the cut index is an integer all
    along, and the scan goes from array index to array index:
    [integerTrimIndex] is the index it starts at, [invalidIndex] the test
    of the loop and [scanIndexes] the loop. *)
Definition integerTrimIndex (windowSize : Z) (messages : list Message) : nat :=
  if (Z.of_nat (length messages) <=? windowSize)%Z then 2
  else Z.to_nat (Z.of_nat (length messages) - windowSize).

Definition invalidIndex (messages : list Message) (i : nat) : bool :=
  match messages !! i with
  | None => false
  | Some oldestMessage =>
      if hasToolResult oldestMessage then true
      else if hasToolUse oldestMessage then
        let nextHasToolResult :=
          match messages !! (S i) with
          | Some nextMessage => hasToolResult nextMessage
          | None => false
          end in
        negb nextHasToolResult
      else false
  end.

Fixpoint scanIndexes (fuel : nat) (messages : list Message) (i : nat) : nat :=
  match fuel with
  | O => i
  | S fuel' =>
      if decide (i < length messages) then
        match messages !! i with
        | None => i
        | Some _ =>
            if invalidIndex messages i
            then scanIndexes fuel' messages (S i)
            else i
        end
      else i
  end.

(** One half and one and a half, for window sizes that are not integers. *)
Definition oneHalf : Number.t := Number.Double (Number.ofDyadic 1 (-1)).
Definition threeHalves : Number.t := Number.Double (Number.ofDyadic 3 (-1)).

(** A text, then a tool use and the result that answers it. *)
Definition toolExchange : list Message :=
  [textMessage user "Message 1"; toolUseMessage "id-1";
   toolResultMessage "id-1" status_success "Result"].

(** ** Results that already carry the placeholder *)

(** The first tool-result block of [m] is an error result whose first
    content is the placeholder text: it equals what truncation writes. *)
Definition carriesPlaceholder (m : Message) : Prop :=
  ∃ pre id more err post,
    content m
    = (pre ++ ToolResultBlock
                (mkToolResult id status_error
                   (TextContent SlidingWindow.toolResultTooLargeMessage :: more) err) :: post)%list
    ∧ existsb isToolResultBlock pre = false.

(** ** Generators in flight *)


(** ** Looking at a world *)

(** [history this w]: the array [this.messages]. *)
Definition historyOf {HS : Type} (w : World (HS:=HS)) (this : nat) : option (list Message) :=
  agents w !! this ≫= λ a, messageArrays w !! messages a.

(** [_consecutiveTransfers] of the agent [this]. *)
Definition transfersOf {HS : Type} (w : World (HS:=HS)) (this : nat) : option nat :=
  _consecutiveTransfers <$> agents w !! this.

(** The counter of [this], when there is one, is at most the ceiling. *)
Definition transfersBounded {HS : Type} (this : nat) (w : World (HS:=HS)) : Prop :=
  ∀ n, transfersOf w this = Some n → n ≤ MAX_CONSECUTIVE_TRANSFERS.

(** ** Computations in [M] *)

(** [m] leaves the counter of consecutive transfers of [this] as it is,
    however it ends. *)
Definition keepsTransfers {HS A : Type} (this : nat) (m : M (HS:=HS) A) : Prop :=
  ∀ w, transfersOf (m w).2 this = transfersOf w this.

(** [m] started in a world that satisfies [P] leaves a world that satisfies
    [Q a] when it returns [a], and [E] when it ends otherwise. *)
Definition hoare {HS A : Type} (P : World (HS:=HS) → Prop) (m : M A)
    (Q : A → World (HS:=HS) → Prop) (E : World (HS:=HS) → Prop) : Prop :=
  ∀ w, P w →
       match m w with
       | (Returned a, w') => Q a w'
       | (_, w') => E w'
       end.

(** A computation that never ends by throwing. *)
Definition neverThrows {HS A : Type} (m : M (HS:=HS) A) : Prop :=
  ∀ w e w', m w ≠ (Thrown e, w').

(** Unfolding the plumbing of [M]. *)
Ltac unfold_monad :=
  unfold mbind, M_bind, mret, M_ret, getWorld, putWorld, throwError, throw,
    abandon, stuck, outOfFuel in *;
  simpl in *.

(** ** Sub-agent trees *)

(** The height of the tree below [this], along the [subAgents] links:
    1 for an agent without sub-agents.  [fuel] bounds the descent. *)
Fixpoint treeHeight {HS : Type} (fuel : nat) (w : World (HS:=HS)) (this : nat) : nat :=
  match fuel with
  | O => 0
  | S fuel' =>
      match agents w !! this with
      | None => 0
      | Some self =>
          S (max_list (map (treeHeight fuel' w)
                           (default [] (agentArrays w !! subAgents self))))
      end
  end.

(** [new Agent({ name, parentAgent })] and [new Agent({ name, subAgents })]
    with everything else left to its default. *)
Definition namedAgent (agentName : string) (parent : option nat) (children : option nat)
  : AgentConfig (HS:=unit) :=
  mkAgentConfig (Some agentName) [] [] [] children parent None None None [].

(** [g = new Agent({name: 'g'})], [p = new Agent({name: 'p', parentAgent: g})],
    [c = new Agent({name: 'c', parentAgent: p})]. *)
Definition threeGenerations : M (HS:=unit) (nat * nat * nat) :=
  g ← newAgent (namedAgent "g" None None);
  p ← newAgent (namedAgent "p" (Some g) None);
  c ← newAgent (namedAgent "c" (Some p) None);
  mret (g, p, c).

(** [c = new Agent({name: 'science'})],
    [p = new Agent({name: 'math', subAgents: [c]})],
    [new Agent({name: 'root', subAgents: [p]})]. *)
Definition nestedSubAgents : M (HS:=unit) nat :=
  c ← newAgent (namedAgent "science" None None);
  cs ← newAgentArray [c];
  p ← newAgent (namedAgent "math" None (Some cs));
  ps ← newAgentArray [p];
  newAgent (namedAgent "root" None (Some ps)).

(** [a = new Agent({name: 'dup'})], [b = new Agent({name: 'dup'})],
    [new Agent({name: 'root', subAgents: [a, b]})]. *)
Definition duplicateNames : M (HS:=unit) nat :=
  a ← newAgent (namedAgent "dup" None None);
  b ← newAgent (namedAgent "dup" None None);
  children ← newAgentArray [a; b];
  newAgent (namedAgent "root" None (Some children)).

(** [new Agent({name: 'root', subAgents: [new Agent({})]})]. *)
Definition unnamedChild : M (HS:=unit) nat :=
  a ← newAgent (mkAgentConfig None [] [] [] None None None None None []);
  children ← newAgentArray [a];
  newAgent (namedAgent "root" None (Some children)).

(** What is looked at after the three constructions: the agents, the
    parent of the third and of the second, the sub-agents of the first and
    of the second, the root found from the third, and the height of the
    tree below the first. *)
Definition threeGenerationsObserved
  : M (HS:=unit) (nat * nat * nat * option (option nat) * option (option nat)
                  * option (list nat) * option (list nat) * nat * nat) :=
  made ← threeGenerations;
  let '(g, p, c) := made in
  w ← getWorld;
  mret (g, p, c,
        parentAgent <$> agents w !! c,
        parentAgent <$> agents w !! p,
        agents w !! g ≫= (λ a, agentArrays w !! subAgents a),
        agents w !! p ≫= (λ a, agentArrays w !! subAgents a),
        getRootAgent 3 w c,
        treeHeight 4 w g).

(** ** Scripted runs of the loop *)

Definition overflowError : Error := mkError ContextWindowOverflowError "Context overflow".

(** A model call that ends the turn with the text [t]. *)
Definition answers (t : string) : ModelTurn :=
  mkModelTurn [] (Ok (mkMessage assistant [TextBlock t] None, StopEndTurn)).

(** A model call that fails with a context-window overflow. *)
Definition overflows : ModelTurn := mkModelTurn [] (Throw overflowError).

(** A model call that asks for a transfer to [target]. *)
Definition asksTransfer (id target : string) : ModelTurn :=
  mkModelTurn []
    (Ok (mkMessage assistant
           [ToolUseBlock (mkToolUse transferToolName id
                            (JObject [("agentName", JString target)]))] None,
         StopToolUse)).

(** An agent with the default sliding-window manager, two messages of
    history, and a model whose first call overflows. *)
Definition overflowingAgent (extraHooks : list (HookProvider (HS:=unit)))
  : AgentConfig (HS:=unit) :=
  mkAgentConfig None [overflows; answers "Hi"]
    [textMessage user "M1"; textMessage assistant "M2"] [] None None None None None
    extraHooks.

(** A hook that asks for a retry of every failed model call, through the
    property the loop reads. *)
Definition retryFailedModelCalls : HookProvider (HS:=unit) :=
  [(AfterModelCallEvent,
    λ event history hs,
      mkEffect (match eventError event with
                | Some _ => assignProp "retry" true event
                | None => event
                end)
               history hs None)].

(** The first model call of a turn on [overflowingAgent], and what is
    looked at afterwards: how [invokeModel] ended, the history, the model
    calls not yet made, and the last event the consumer received. *)
Definition overflowRun (extraHooks : list (HookProvider (HS:=unit)))
  : M (HS:=unit) (Outcome (Message * StopReason) * option (list Message)
                  * option (list ModelTurn) * option AgentStreamEvent) :=
  agent ← newAgent (overflowingAgent extraHooks);
  inspect (invokeModel 5 agent agent (Some (TextArgs "hello")))
          (λ outcome w,
             (outcome, historyOf w agent, model <$> agents w !! agent, last (emitted w))).

(** A root agent [root] with one sub-agent [math]. *)
Definition rootAndMath (rootTurns mathTurns : list ModelTurn) : M (HS:=unit) (nat * nat) :=
  math ← newAgent (mkAgentConfig (Some "math") mathTurns [] [] None None None None None []);
  children ← newAgentArray [math];
  root ← newAgent (mkAgentConfig (Some "root") rootTurns [] [] (Some children) None
                     None None None []);
  mret (root, math).

(** The event that reports a transfer made. *)
Definition isTransferEvent (e : AgentStreamEvent) : bool :=
  match e with
  | HookStreamEvent event => bool_decide (kindOf (eventData event) = AfterTransferEvent)
  | _ => false
  end.

(** Whether a transfer took place among the events [events]. *)
Definition hasTransfer (events : list AgentStreamEvent) : bool :=
  existsb isTransferEvent events.

(** Two invocations of [root], and what is looked at: how each ended, the
    counter of consecutive transfers after each, and whether a transfer
    took place during the second. *)
Definition twoInvocations
  : M (HS:=unit) (Outcome AgentResult * option nat
                  * Outcome AgentResult * bool * option nat) :=
  made ← rootAndMath [asksTransfer "t1" "math"]
                     [answers "child first turn"; answers "child second turn"];
  let root := made.1 in
  first ← inspect (streamFromEntryBody 5 root (TextArgs "first") root)
                  (λ outcome w, (outcome, transfersOf w root, length (emitted w)));
  second ← inspect (streamFromEntryBody 5 root (TextArgs "second") root)
                   (λ outcome w,
                      (outcome, hasTransfer (drop first.2 (emitted w)), transfersOf w root));
  mret (first.1.1, first.1.2, second.1.1, second.1.2, second.2).

(** The number of transfers among the events [events]. *)
Definition countTransfers (events : list AgentStreamEvent) : nat :=
  length (filter (λ e, isTransferEvent e = true) events).

(** The tool results of error status in a history. *)
Definition errorResults (history : option (list Message)) : list ToolResult :=
  omap (λ block, match block with
                 | ToolResultBlock r =>
                     if SlidingWindow.isErrorStatus (resultStatus r) then Some r else None
                 | _ => None
                 end)
       (concat (map content (default [] history))).

Definition transferGuardMessage : string :=
  "Transfer guard triggered after 8 consecutive transfers in one invocation".

(** One invocation in which [root] and [math] hand the conversation to each
    other eight times, after which [root] asks for a ninth transfer and,
    that one refused, answers. *)
Definition ninthTransfer
  : M (HS:=unit) (Outcome AgentResult * nat * list ToolResult * option nat
                  * option (option string)) :=
  made ← rootAndMath
            [asksTransfer "t1" "math"; asksTransfer "t3" "math"; asksTransfer "t5" "math";
             asksTransfer "t7" "math"; asksTransfer "t9" "math"; answers "root answer"]
            [asksTransfer "t2" "root"; asksTransfer "t4" "root"; asksTransfer "t6" "root";
             asksTransfer "t8" "root"];
  let root := made.1 in
  inspect (streamFromEntryBody 12 root (TextArgs "go") root)
          (λ outcome w,
             (outcome, countTransfers (emitted w),
              errorResults (historyOf w root),
              transfersOf w root,
              _activeAgentName <$> agents w !! root)).

(** Nine invocations with at most one transfer each: in the first eight the
    active agent hands over to the other one, which answers; in the ninth
    [root] asks for a transfer for the first time in that invocation. *)
Fixpoint invocations (n : nat) (root : nat) : M (HS:=unit) unit :=
  match n with
  | O => mret tt
  | S n' => streamFromEntryBody 5 root (TextArgs "next") root ;; invocations n' root
  end.

Definition ninthInvocation
  : M (HS:=unit) (Outcome AgentResult * nat * list ToolResult * option nat) :=
  made ← rootAndMath
            [asksTransfer "t1" "math"; answers "a2"; asksTransfer "t3" "math"; answers "a4";
             asksTransfer "t5" "math"; answers "a6"; asksTransfer "t7" "math"; answers "a8";
             asksTransfer "t9" "math"; answers "a9"]
            [answers "a1"; asksTransfer "t2" "root"; answers "a3"; asksTransfer "t4" "root";
             answers "a5"; asksTransfer "t6" "root"; answers "a7"; asksTransfer "t8" "root"];
  let root := made.1 in
  invocations 8 root ;;
  before ← inspect (mret tt) (λ _ w, length (emitted w));
  inspect (streamFromEntryBody 5 root (TextArgs "ninth") root)
          (λ outcome w,
             (outcome, countTransfers (drop before (emitted w)),
              errorResults (historyOf w root),
              transfersOf w root)).

(** A world with one external tool run left, which throws. *)
Definition failingToolWorld : World (HS:=unit) :=
  mkWorld ∅ ∅ ∅ 0 [mkToolRun [] (ToolThrows (mkError PlainError "boom"))] tt [].

(** [root] asks for a transfer to an agent that does not exist, then
    answers; what is looked at is the result and the authors of the
    messages of the history. *)
Definition invalidTarget
  : M (HS:=unit) (Outcome AgentResult * option (list (option string))) :=
  made ← rootAndMath [asksTransfer "t1" "ghost"; answers "root fallback answer"]
                     [answers "child answer"];
  inspect (streamFromEntryBody 5 made.1 (TextArgs "invalid target") made.1)
          (λ outcome w, (outcome, map author <$> historyOf w made.1)).

(** [root] hands over to [math]; the next call is made on the sub-agent
    [flashcards] itself. *)
Definition explicitChild : M (HS:=unit) (Outcome AgentResult) :=
  math ← newAgent (mkAgentConfig (Some "math") [answers "math turn"] [] []
                     None None None None None []);
  flashcards ← newAgent (mkAgentConfig (Some "flashcards")
                           [answers "flashcards direct turn"] [] []
                           None None None None None []);
  children ← newAgentArray [math; flashcards];
  root ← newAgent (mkAgentConfig (Some "root") [asksTransfer "t1" "math"] [] []
                     (Some children) None None None None []);
  streamFromEntryBody 5 root (TextArgs "route to math first") root ;;
  inspect (streamFromEntryBody 5 root (TextArgs "go direct to flashcards") flashcards)
          (λ outcome _, outcome).

(** An assistant message with three tool uses: a tool that is not
    registered, a tool that throws, a tool that ends without a result. *)
Definition threeFailingToolUses : Message :=
  mkMessage assistant
    [TextBlock "let me check";
     ToolUseBlock (mkToolUse "ghost" "id-1" JNull);
     ToolUseBlock (mkToolUse "calc" "id-2" JNull);
     ToolUseBlock (mkToolUse "noop" "id-3" JNull)] None.

(** [executeTools] on that message, in an agent whose tools [calc] and
    [noop] behave as said. *)
Definition threeFailures : M (HS:=unit) Message :=
  agent ← newAgent (mkAgentConfig None [] [] [ToolItem (mkTool "calc" ExternalTool);
                                               ToolItem (mkTool "noop" ExternalTool)]
                      None None None None None []);
  w ← getWorld;
  putWorld (mkWorld (agents w) (agentArrays w) (messageArrays w) (nextRef w)
              [mkToolRun [] (ToolThrows (mkError PlainError "boom"));
               mkToolRun [] (ToolReturns None)]
              (hookState w) (emitted w)) ;;
  executeTools 1 agent threeFailingToolUses [mkTool "calc" ExternalTool;
                                             mkTool "noop" ExternalTool].

(** ** A scripted generator *)

(** A generator of [_stream] that yields the events of a script, counting
    them in the state, and then returns. *)
Definition scriptedResult : AgentResult :=
  mkAgentResult StopEndTurn (textMessage assistant "done").

Definition scriptedInitialize (st : nat) : option Error * nat := (None, st).

Definition scriptedStart (args : list AgentStreamEvent) (initialAgent : nat)
  : list AgentStreamEvent := args.

Definition scriptedNext (inner : list AgentStreamEvent) (st : nat)
  : InnerStep (list AgentStreamEvent) nat :=
  match inner with
  | event :: rest => InnerYields event rest (S st)
  | [] => InnerReturns scriptedResult st
  end.

Definition scriptedProcess (event : AgentStreamEvent) (st : nat) : option Error * nat :=
  (None, st).

Definition modelEvent (t : string) : AgentStreamEvent := ModelStreamed (ModelEvent t).


(** ** What truncation makes of a content block *)

Definition truncatedFrom (before after : ContentBlock) : Prop :=
  match before with
  | ToolResultBlock toolResultBlock =>
      after = ToolResultBlock
                (mkToolResult (resultToolUseId toolResultBlock) status_error
                   [TextContent SlidingWindow.toolResultTooLargeMessage] None)
  | _ => after = before
  end.

(** ** Agents of a tree *)

(** The message of [_validateSiblingNames]. *)
Definition duplicateNameMessage (childName parentName : string) : string :=
  "Duplicate sub-agent name '" ++ childName ++ "' under parent '" ++ parentName ++ "'".

(** [r] is [this] or one of its descendants along the [subAgents] links,
    [depth] links down. *)
Inductive inSubtree {HS : Type} (w : World (HS:=HS)) : nat → nat → nat → Prop :=
| inSubtree_self this self :
    agents w !! this = Some self → inSubtree w 0 this this
| inSubtree_child depth this self children child r :
    agents w !! this = Some self →
    agentArrays w !! subAgents self = Some children →
    child ∈ children →
    inSubtree w depth child r →
    inSubtree w (S depth) this r.

(** [child] points to [this] as its parent and holds the array [history] as
    its [messages]. *)
Definition wiredTo {HS : Type} (w : World (HS:=HS)) (this history child : nat) : Prop :=
  ∃ c, agents w !! child = Some c ∧ parentAgent c = Some this ∧ messages c = history.

(** The message of the transfer tool for a name that is not a target. *)
Definition notATransferTarget (agentName : string) : Error :=
  mkError PlainError ("Agent '" ++ agentName ++ "' is not a valid transfer target").

(** ** What a run leaves as it was *)

(** One of [clients] lists [tool]. *)
Definition listedBy (clients : list McpClient) (tool : Tool) : Prop :=
  ∃ client tools, client ∈ clients ∧ listTools client = Ok tools ∧ tool ∈ tools.

(** The own tools of [b] are those of [a], followed, when [a] was not
    initialized, by tools that the MCP clients of [a] list. *)
Definition ownToolsGrow {HS : Type} (a b : Agent (HS:=HS)) : Prop :=
  ∃ added,
    _toolRegistry b = (_toolRegistry a ++ added)%list ∧
    (_initialized a = true → added = []) ∧
    Forall (listedBy (_mcpClients a)) added.

(** [b] is [a] but for its run-time state: whether it is initialized (an
    agent that is stays so), the tools its MCP clients have added on
    initialization, the active agent it remembers, the transfer it has
    queued, its counter of transfers and what its model provider has yet to
    answer. *)
Definition sameConfiguration {HS : Type} (a b : Agent (HS:=HS)) : Prop :=
  messages b = messages a ∧ hooks b = hooks a ∧ name b = name a ∧
  subAgents b = subAgents a ∧ parentAgent b = parentAgent a ∧
  disallowTransferToParent b = disallowTransferToParent a ∧
  disallowTransferToPeers b = disallowTransferToPeers a ∧
  _mcpClients b = _mcpClients a ∧
  (_initialized a = true → _initialized b = true) ∧
  ownToolsGrow a b.

(** No agent of the world has a callback registered. *)
Definition noHooks {HS : Type} (w : World (HS:=HS)) : bool :=
  forallb (λ entry, match hooks entry.2 with [] => true | _ :: _ => false end)
          (map_to_list (agents w)).

(** Every callback registered in the world leaves the payload of the event
    it is given as it is. *)
Definition callbacksKeepPayload {HS : Type} (w : World (HS:=HS)) : Prop :=
  ∀ ref a, agents w !! ref = Some a →
    Forall (λ entry : EventKind * HookCallback,
              ∀ event history hs,
                eventData (effEvent (entry.2 event history hs)) = eventData event)
           (hooks a).

(** [w'] comes after [w] in a run: the agents are the same objects with the
    same configuration, the arrays of sub-agents are as they were, what the
    consumer has received has only grown and, when no callback is
    registered, so has every array of messages. *)
Definition evolves {HS : Type} (w w' : World (HS:=HS)) : Prop :=
  agentArrays w' = agentArrays w ∧
  nextRef w' = nextRef w ∧
  (∀ ref, option_Forall2 sameConfiguration (agents w !! ref) (agents w' !! ref)) ∧
  emitted w `prefix_of` emitted w' ∧
  (noHooks w = true →
   ∀ ref h, messageArrays w !! ref = Some h →
            ∃ h', messageArrays w' !! ref = Some h' ∧ h `prefix_of` h').

(** However [m] ends, the world it leaves comes after the one it started in. *)
Definition steady {HS A : Type} (m : M (HS:=HS) A) : Prop :=
  ∀ w, evolves w (m w).2.

(** The last message of the history of [this] has the role and the content
    of [m]. *)
Definition lastMessageIs {HS : Type} (this : nat) (m : Message) (w : World (HS:=HS)) : Prop :=
  ∃ x, historyOf w this ≫= last = Some x ∧ role x = role m ∧ content x = content m.

(** ** What the consumer sees of a model call *)

(** [out] is what the consumer receives for the model events [events]:
    for each event, in order, the hook event that carries it and then the
    event itself. *)
Inductive forwards : list ModelStreamEvent → list AgentStreamEvent → Prop :=
| forwards_nil : forwards [] []
| forwards_cons event hookEvent rest out :
    eventData hookEvent = ModelStream event →
    forwards rest out →
    forwards (event :: rest) (HookStreamEvent hookEvent :: ModelStreamed event :: out).

(** ** One call and the lock *)

(** The lock is held exactly while the generator is in flight. *)
Definition ownsLock {St Inner Args : Type} (gen : @StreamGen Inner Args)
    (root : @RootAgent St) : Prop :=
  _isInvoking root = inFlight gen.

(** ** Snake case *)

(** [str] starts with one of [a-z]. *)
Definition startsLowerCase (str : string) : bool :=
  match str with
  | String c _ => isLowerCaseLetter c
  | EmptyString => false
  end.

(** [str] holds an underscore followed by one of [a-z]. *)
Fixpoint hasSnakeBoundary (str : string) : bool :=
  match str with
  | EmptyString => false
  | String c rest => (Ascii.eqb c "_" && startsLowerCase rest) || hasSnakeBoundary rest
  end.

(** ** A family of agents without callbacks *)

(** An agent object with no callback, no tool and nothing remembered. *)
Definition bareAgent (agentName : string) (history children : nat) (parent : option nat)
    (turns : list ModelTurn) : Agent (HS:=unit) :=
  mkAgent history [] (Some agentName) children parent false false turns [] [] false
    None None 0.

(** [root] (reference 0) with its sub-agents [math] (1) and [physics] (2),
    on one timeline, and two agents that belong to no tree yet, [chemistry]
    (3) and [biology] (4), held by the array 25. *)
Definition familyWorld : World (HS:=unit) :=
  mkWorld
    {[0 := bareAgent "root" 10 20 None [answers "four"];
      1 := bareAgent "math" 10 21 (Some 0) [];
      2 := bareAgent "physics" 10 22 (Some 0) [];
      3 := bareAgent "chemistry" 13 23 None [];
      4 := bareAgent "biology" 14 24 None []]}
    {[20 := [1; 2]; 21 := []; 22 := []; 23 := []; 24 := []; 25 := [3; 4]]}
    {[10 := [textMessage user "earlier"]; 13 := []; 14 := []]}
    30 [] tt [].

(** [new Agent({ name, subAgents, parentAgent,
                 conversationManager: new NullConversationManager() })] *)
Definition quietAgent (agentName : string) (parent children : option nat)
  : AgentConfig (HS:=unit) :=
  mkAgentConfig (Some agentName) [] [] [] children parent None None
    (Some nullConversationManagerCallbacks) [].

Definition fourMessage : Message := mkMessage assistant [TextBlock "four"] None.

(** A model call that streams three events before it ends the turn. *)
Definition streamsFour : ModelTurn :=
  mkModelTurn
    [ModelEvent "modelMessageStartEvent"; ModelEvent "modelContentBlockDeltaEvent";
     ModelEvent "modelMessageStopEvent"]
    (Ok (fourMessage, StopEndTurn)).

(** A lone agent whose provider is about to stream [streamsFour]. *)
Definition streamingWorld : World (HS:=unit) :=
  mkWorld {[0 := bareAgent "root" 10 20 None [streamsFour; answers "five"]]}
          {[20 := []]} {[10 := []]} 30 [] tt [].

(** An MCP client that lists one tool, and one that fails. *)
Definition searchClient : McpClient :=
  mkMcpClient "search" (Ok [mkTool "search" ExternalTool]).

Definition brokenClient : McpClient :=
  mkMcpClient "broken" (Throw (mkError PlainError "connection refused")).

(** A lone agent with one tool of its own and the MCP clients [clients]. *)
Definition toolboxWorld (clients : list McpClient) : World (HS:=unit) :=
  mkWorld
    {[0 := mkAgent 10 [] (Some "root") 20 None false false [answers "four"]
             [mkTool "calc" ExternalTool] clients false None None 0]}
    {[20 := []]} {[10 := []]} 30 [] tt [].

Definition transferToMath : ToolUse :=
  mkToolUse "transfer_to_agent" "t1" (JObject [("agentName", JString "math")]).

(** A tool list with a nested list inside a nested list. *)
Definition nestedToolList : list ToolListItem :=
  [ToolItem (mkTool "a" ExternalTool);
   NestedToolList [McpClientItem (mkMcpClient "files" (Ok []));
                   NestedToolList [ToolItem (mkTool "b" ExternalTool)];
                   ToolItem (mkTool "c" ExternalTool)];
   McpClientItem (mkMcpClient "web" (Ok []))].

(** * Properties *)

(** ** The sliding-window reducer *)

Section SlidingWindowFacts.
Import SlidingWindow.

Example reduce_three_plain :
  reduceContext (new (Some (Number.Integer 2)) None)
    [textMessage user "M1"; textMessage assistant "M2"; textMessage user "M3"]
  = Ok [textMessage assistant "M2"; textMessage user "M3"].
Proof. reflexivity. Qed.

Example reduce_keeps_last_two :
  reduceContext (new (Some (Number.Integer 2)) (Some false))
    [toolUseMessage "id-1"; toolResultMessage "id-1" status_success "Result";
     textMessage assistant "Response"; textMessage user "Message"]
  = Ok [textMessage assistant "Response"; textMessage user "Message"].
Proof. reflexivity. Qed.

Example reduce_truncates_large_result :
  reduceContext (new None None)
    [toolResultMessage "tool-1" status_success "Large tool result content"]
  = Ok [toolResultMessage "tool-1" status_error "The tool result was too large!"].
Proof. reflexivity. Qed.

Example reduce_default_trim_index :
  reduceContext (new (Some (Number.Integer 5)) None)
    [textMessage user "Message 1"; textMessage assistant "Response 1";
     textMessage user "Message 2"]
  = Ok [textMessage user "Message 2"].
Proof. reflexivity. Qed.

Example apply_skips_at_window_size :
  applyManagement (new (Some (Number.Integer 2)) None)
    [textMessage user "Message 1"; textMessage assistant "Response 1"]
  = Ok [textMessage user "Message 1"; textMessage assistant "Response 1"].
Proof. reflexivity. Qed.

Example reduce_truncates_last_result_only :
  reduceContext (new None None)
    [textMessage user "Message 1";
     toolResultMessage "tool-1" status_success "First result";
     textMessage assistant "Response";
     toolResultMessage "tool-2" status_success "Second result"]
  = Ok [textMessage user "Message 1";
        toolResultMessage "tool-1" status_success "First result";
        textMessage assistant "Response";
        toolResultMessage "tool-2" status_error "The tool result was too large!"].
Proof. reflexivity. Qed.

Example reduce_trims_when_truncation_is_off :
  reduceContext (new (Some (Number.Integer 2)) (Some false))
    [textMessage user "Message 1"; textMessage assistant "Response 1";
     toolResultMessage "tool-1" status_success "Large result"]
  = Ok [textMessage assistant "Response 1";
        toolResultMessage "tool-1" status_success "Large result"].
Proof. reflexivity. Qed.

Example reduce_trims_after_truncation :
  reduceContext (new None None)
    [toolResultMessage "tool-1" status_error "The tool result was too large!";
     textMessage assistant "Response"; textMessage user "Message"]
  = Ok [textMessage user "Message"].
Proof. reflexivity. Qed.

Example reduce_skips_unanswered_tool_use :
  reduceContext (new (Some (Number.Integer 2)) (Some false))
    [textMessage user "Message 1"; toolUseMessage "id-1";
     textMessage assistant "Response"; textMessage user "Message 2"]
  = Ok [textMessage assistant "Response"; textMessage user "Message 2"].
Proof. reflexivity. Qed.

Example reduce_cuts_at_answered_tool_use :
  reduceContext (new (Some (Number.Integer 3)) (Some false))
    [textMessage user "Message 1"; textMessage assistant "Response 1";
     toolUseMessage "id-1"; toolResultMessage "id-1" status_success "Result";
     textMessage assistant "Response 2"]
  = Ok [toolUseMessage "id-1"; toolResultMessage "id-1" status_success "Result";
        textMessage assistant "Response 2"].
Proof. reflexivity. Qed.

Example reduce_throws_without_cut_point :
  reduceContext (new (Some (Number.Integer 0)) (Some false))
    [toolResultMessage "id-1" status_success "Result"]
  = Throw unableToTrim.
Proof. reflexivity. Qed.

Lemma sameKinds_refl a : sameKinds a a.
Proof. by split. Qed.

Lemma toolUsesAnswered_kinds (l k : list Message) :
  Forall2 sameKinds l k →
  startsPaired l = startsPaired k ∧ toolUsesAnswered l = toolUsesAnswered k.
Proof.
  induction 1 as [|a b l k [Hr Hu] Hlk [_ IH]]; [done|].
  split; simpl; [by rewrite Hr|].
  rewrite Hu, IH. f_equal.
  destruct Hlk as [|a' b' l' k' [Hr' _] _]; [done|]. by rewrite Hr'.
Qed.

Lemma toolUsesAnswered_drop (n : nat) (l : list Message) :
  toolUsesAnswered l = true → toolUsesAnswered (drop n l) = true.
Proof.
  revert l. induction n as [|n IH]; intros [|a l]; simpl; try done.
  intros [_ H]%andb_prop. by apply IH.
Qed.

(** *** [findLastMessageWithToolResults] *)

Lemma findLastFrom_Some (messages : list Message) (n i : nat) :
  findLastFrom messages n = Some i →
  i < n ∧ ∃ m, messages !! i = Some m ∧ hasToolResult m = true.
Proof.
  induction n as [|n IH]; simpl; [done|].
  destruct (messages !! n) as [m|] eqn:E; [|done].
  destruct (hasToolResult m) eqn:Hm.
  - intros [= <-]. split; [lia|eauto].
  - intros Hi. destruct (IH Hi) as [? ?]. split; [lia|done].
Qed.

Lemma findLastFrom_None (messages : list Message) (n : nat) :
  n ≤ length messages →
  findLastFrom messages n = None →
  ∀ i m, i < n → messages !! i = Some m → hasToolResult m = false.
Proof.
  induction n as [|n IH]; simpl; intros Hn Hnone i m Hi Hm; [lia|].
  destruct (messages !! n) as [m'|] eqn:E.
  - destruct (hasToolResult m') eqn:Hm'; [done|].
    destruct (decide (i = n)) as [->|Hne]; [congruence|].
    apply (IH ltac:(lia) Hnone i m); [lia|done].
  - apply lookup_ge_None in E. lia.
Qed.

(** *** [truncateToolResults] *)

Lemma truncateBlock_isToolResult b :
  isToolResultBlock (truncateBlock b) = isToolResultBlock b.
Proof. by destruct b. Qed.

Lemma truncateBlock_isToolUse b :
  isToolUseBlock (truncateBlock b) = isToolUseBlock b.
Proof. by destruct b. Qed.

Lemma existsb_map_truncate (p : ContentBlock → bool) blocks :
  (∀ b, p (truncateBlock b) = p b) →
  existsb p (map truncateBlock blocks) = existsb p blocks.
Proof. intros Hp. induction blocks as [|b l IH]; simpl; [done|]. by rewrite Hp, IH. Qed.

Lemma truncated_sameKinds m :
  sameKinds m (mkMessage (role m) (map truncateBlock (content m)) None).
Proof.
  split; unfold hasToolResult, hasToolUse; simpl; symmetry;
    apply existsb_map_truncate;
    [apply truncateBlock_isToolResult | apply truncateBlock_isToolUse].
Qed.

Lemma truncateToolResults_false (messages : list Message) (idx : Z) :
  (truncateToolResults messages idx).2 = false →
  (truncateToolResults messages idx).1 = messages.
Proof.
  unfold truncateToolResults.
  destruct (_ || _); [done|].
  destruct (messages !! _) as [m|]; [|done].
  by destruct (scanContent _).
Qed.

Lemma truncateToolResults_kinds (messages : list Message) (idx : Z) :
  Forall2 sameKinds messages (truncateToolResults messages idx).1.
Proof.
  assert (Hrefl : Forall2 sameKinds messages messages).
  { apply Forall2_same_length_lookup_2; [done|].
    intros i x y Hx Hy. assert (x = y) as -> by congruence. apply sameKinds_refl. }
  unfold truncateToolResults.
  destruct (_ || _); [done|].
  destruct (messages !! Z.to_nat idx) as [m|] eqn:E; [|done].
  destruct (scanContent _); simpl; try done.
  rewrite <- (list_insert_id messages (Z.to_nat idx) m E) at 1.
  apply Forall2_insert; [done|]. apply truncated_sameKinds.
Qed.

Lemma tryTruncate_false (mgr : Manager) (messages : list Message) :
  (tryTruncate mgr messages).2 = false → (tryTruncate mgr messages).1 = messages.
Proof.
  unfold tryTruncate.
  destruct (findLastMessageWithToolResults messages); [|done].
  destruct (_shouldTruncateResults mgr); [|done].
  apply truncateToolResults_false.
Qed.

Lemma tryTruncate_kinds (mgr : Manager) (messages : list Message) :
  Forall2 sameKinds messages (tryTruncate mgr messages).1.
Proof.
  assert (Hrefl : Forall2 sameKinds messages messages).
  { apply Forall2_same_length_lookup_2; [done|].
    intros i x y Hx Hy. assert (x = y) as -> by congruence. apply sameKinds_refl. }
  unfold tryTruncate.
  destruct (findLastMessageWithToolResults messages); [|done].
  destruct (_shouldTruncateResults mgr); [|done].
  apply truncateToolResults_kinds.
Qed.

(** *** The forward scan of [reduceContext] *)

Lemma scanIndexes_ge (fuel : nat) (messages : list Message) (t : nat) :
  t ≤ scanIndexes fuel messages t.
Proof.
  revert t. induction fuel as [|fuel IH]; intros t; simpl; [done|].
  destruct (decide _); [|done].
  destruct (messages !! t); [|done].
  destruct (invalidIndex messages t); [|done].
  specialize (IH (S t)). lia.
Qed.

Lemma scanIndexes_skipped (fuel : nat) (messages : list Message) (t i : nat) :
  t ≤ i → i < scanIndexes fuel messages t →
  i < length messages ∧ invalidIndex messages i = true.
Proof.
  revert t. induction fuel as [|fuel IH]; intros t; simpl; [lia|].
  destruct (decide _) as [Hlt|]; [|lia].
  destruct (messages !! t); [|lia].
  destruct (invalidIndex messages t) eqn:Hinv; [|lia].
  intros Hti Hik. destruct (decide (i = t)) as [->|Hne]; [done|].
  apply (IH (S t)); [lia|done].
Qed.

Lemma scanIndexes_stops (fuel : nat) (messages : list Message) (t : nat) :
  length messages ≤ fuel + t →
  invalidIndex messages (scanIndexes fuel messages t) = false.
Proof.
  revert t. induction fuel as [|fuel IH]; intros t Hfuel; simpl.
  - unfold invalidIndex. rewrite (lookup_ge_None_2 messages t); [done|lia].
  - destruct (decide _) as [Hlt|Hge].
    + destruct (messages !! t) eqn:E.
      * destruct (invalidIndex messages t) eqn:Hinv; [|done].
        apply IH. lia.
      * unfold invalidIndex. by rewrite E.
    + unfold invalidIndex. rewrite (lookup_ge_None_2 messages t); [done|lia].
Qed.

Lemma invalidIndex_spec (messages : list Message) (i : nat) :
  invalidIndex messages i = true ↔ invalidStart messages i.
Proof.
  unfold invalidIndex, invalidStart. split.
  - destruct (messages !! i) as [m|] eqn:E; [|done].
    intros H. exists m. split; [done|].
    destruct (hasToolResult m); [by left|]. right.
    destruct (hasToolUse m); [|done]. split; [done|].
    intros (next & Hnext & Hres). rewrite Hnext, Hres in H. done.
  - intros (m & -> & [->|[Hu Hn]]); [done|].
    destruct (hasToolResult m); [done|]. rewrite Hu.
    destruct (messages !! S i) as [next|]; [|done].
    destruct (hasToolResult next) eqn:Hres; [|done].
    exfalso. apply Hn. eauto.
Qed.

Lemma integerTrimIndex_candidate (windowSize : Z) (messages : list Message) :
  Z.of_nat (integerTrimIndex windowSize messages)
  = candidateCutIndex windowSize (length messages).
Proof.
  unfold integerTrimIndex, candidateCutIndex.
  destruct (Z.leb_spec (Z.of_nat (length messages)) windowSize);
    destruct (Z.ltb_spec windowSize (Z.of_nat (length messages))); lia.
Qed.

(** *** From numbers to array indexes *)

Lemma elementAt_index {A : Type} (array : list A) (i : nat) :
  Number.elementAt array (Number.Integer (Z.of_nat i)) = array !! i.
Proof.
  unfold Number.elementAt. simpl.
  destruct (Z.leb_spec 0 (Z.of_nat i)); [|lia]. simpl.
  destruct (Z.ltb_spec (Z.of_nat i) (Z.of_nat (length array))).
  - by rewrite Nat2Z.id.
  - symmetry. apply lookup_ge_None. lia.
Qed.

Lemma succ_index (i : nat) :
  Number.succ (Number.Integer (Z.of_nat i)) = Number.Integer (Z.of_nat (S i)).
Proof. simpl. f_equal. lia. Qed.

Lemma invalidTrimPoint_index (messages : list Message) (i : nat) :
  invalidTrimPoint messages (Number.Integer (Z.of_nat i)) = invalidIndex messages i.
Proof.
  unfold invalidTrimPoint, invalidIndex. by rewrite succ_index, !elementAt_index.
Qed.

Lemma findTrimIndex_index (fuel : nat) (messages : list Message) (i : nat) :
  findTrimIndex fuel messages (Number.Integer (Z.of_nat i))
  = Number.Integer (Z.of_nat (scanIndexes fuel messages i)).
Proof.
  revert i. induction fuel as [|fuel IH]; intros i; [done|].
  cbn [findTrimIndex scanIndexes].
  rewrite elementAt_index, invalidTrimPoint_index, succ_index, IH.
  unfold Number.ltb, Number.ofNat.
  destruct (Z.ltb_spec (Z.of_nat i) (Z.of_nat (length messages)));
    destruct (decide (i < length messages)); try lia; [|done].
  destruct (messages !! i); [|done]. by destruct (invalidIndex messages i).
Qed.

Lemma initialTrimIndex_integer (mgr : Manager) (messages : list Message) (windowSize : Z) :
  _windowSize mgr = Number.Integer windowSize →
  initialTrimIndex mgr messages
  = Number.Integer (Z.of_nat (integerTrimIndex windowSize messages)).
Proof.
  intros Hw. unfold initialTrimIndex, integerTrimIndex. rewrite Hw. simpl.
  destruct (Z.leb_spec (Z.of_nat (length messages)) windowSize); [done|].
  f_equal. lia.
Qed.

(** Phase 2 for an integer window size: the scan on indexes, then the cut. *)
Lemma trimMessages_integer (mgr : Manager) (messages : list Message) (windowSize : Z) :
  _windowSize mgr = Number.Integer windowSize →
  trimMessages mgr messages
  = let k := scanIndexes (length messages) messages (integerTrimIndex windowSize messages) in
    if decide (length messages ≤ k) then Throw unableToTrim else Ok (drop k messages).
Proof.
  intros Hw. unfold trimMessages.
  rewrite (initialTrimIndex_integer _ _ _ Hw), findTrimIndex_index. cbv zeta.
  set (k := scanIndexes _ _ _). unfold Number.leb, Number.ofNat, Number.deleteCount.
  destruct (Z.leb_spec (Z.of_nat (length messages)) (Z.of_nat k));
    destruct (decide (length messages ≤ k)); try lia; [done|].
  destruct (Z.ltb_spec (Z.of_nat k) 0); [lia|].
  destruct (Z.leb_spec (Z.of_nat (length messages)) (Z.of_nat k)); [lia|].
  by rewrite Nat2Z.id.
Qed.

Lemma applyManagement_integer (mgr : Manager) (messages : list Message) (windowSize : Z) :
  _windowSize mgr = Number.Integer windowSize →
  applyManagement mgr messages
  = if (Z.of_nat (length messages) <=? windowSize)%Z then Ok messages
    else reduceContext mgr messages.
Proof. intros Hw. unfold applyManagement. by rewrite Hw. Qed.

Lemma scanIndexes_first_valid (messages : list Message) (c : nat) :
  firstValidStartFrom messages c (scanIndexes (length messages) messages c).
Proof.
  split; [apply scanIndexes_ge|]. split.
  - intros i [Hci Hik]. apply invalidIndex_spec.
    by apply (scanIndexes_skipped _ _ _ _ Hci Hik).
  - rewrite <- invalidIndex_spec, scanIndexes_stops; [done|lia].
Qed.

(** C2, as the code has it.  For a window size that is an integer: when
    Phase 2 of [reduceContext] runs (Phase 1 made no change), the candidate
    cut index is [messages.length - windowSize] if
    [messages.length > windowSize] and 2 otherwise; the cut index [k] is the
    first index from the candidate on that is not an invalid start, every
    index skipped being a message with a tool-result block or a message
    with a tool-use block not answered by the very next message; if the
    scan ends at or past the end of the array the call throws a
    context-window-overflow error, and otherwise the array becomes
    [drop k messages]: exactly the messages before [k] are removed and the
    later ones are unchanged. *)
Theorem phase2_message_trimming (mgr : Manager) (messages : list Message)
    (windowSize : Z) :
  _windowSize mgr = Number.Integer windowSize →
  (tryTruncate mgr messages).2 = false →
  ∃ c k : nat,
    Z.of_nat c = candidateCutIndex windowSize (length messages) ∧
    firstValidStartFrom messages c k ∧
    match reduceContext mgr messages with
    | Throw e => length messages ≤ k ∧ errClass e = ContextWindowOverflowError
    | Ok messages' => k < length messages ∧ messages' = drop k messages
    end.
Proof.
  intros Hw Hno. pose proof (tryTruncate_false _ _ Hno) as Hsame.
  exists (integerTrimIndex windowSize messages),
    (scanIndexes (length messages) messages (integerTrimIndex windowSize messages)).
  split; [apply integerTrimIndex_candidate|].
  split; [apply scanIndexes_first_valid|].
  unfold reduceContext. destruct (tryTruncate mgr messages) as [ms' b].
  simpl in *. subst. rewrite (trimMessages_integer _ _ _ Hw). cbv zeta.
  destruct (decide _); [done|]. split; [lia|done].
Qed.

Lemma phase2_message_trimming_witness :
  ∃ c k : nat,
    Z.of_nat c = candidateCutIndex 2 4 ∧
    firstValidStartFrom
      [textMessage user "Message 1"; toolUseMessage "id-1";
       textMessage assistant "Response"; textMessage user "Message 2"] c k ∧
    match reduceContext (new (Some (Number.Integer 2)) (Some false))
            [textMessage user "Message 1"; toolUseMessage "id-1";
             textMessage assistant "Response"; textMessage user "Message 2"] with
    | Throw e => 4 ≤ k ∧ errClass e = ContextWindowOverflowError
    | Ok messages' =>
        k < 4 ∧
        messages' = drop k [textMessage user "Message 1"; toolUseMessage "id-1";
                            textMessage assistant "Response"; textMessage user "Message 2"]
    end.
Proof.
  apply (phase2_message_trimming (new (Some (Number.Integer 2)) (Some false))
           [textMessage user "Message 1"; toolUseMessage "id-1";
            textMessage assistant "Response"; textMessage user "Message 2"] 2).
  - reflexivity.
  - reflexivity.
Defined.

(** C2, as stated, fails for a window size that is not an integer.  With
    [windowSize = 0.5] and three messages the candidate is [2.5]:
    [messages[2.5]] is [undefined], the scan is left at once without a look
    at any message, nothing is thrown, and [splice(0, 2.5)] removes two
    messages.  The history that is left starts at index 2, a message with a
    tool-result block that the scan should have advanced past: no index
    that is a valid start gives this result. *)
Lemma phase2_fractional_window_is_not_scanned :
  (tryTruncate (new (Some oneHalf) (Some false)) toolExchange).2 = false ∧
  initialTrimIndex (new (Some oneHalf) (Some false)) toolExchange
  = Number.Double (Number.ofDyadic 5 (-1)) ∧
  reduceContext (new (Some oneHalf) (Some false)) toolExchange
  = Ok [toolResultMessage "id-1" status_success "Result"] ∧
  ¬ ∃ k : nat,
      ¬ invalidStart toolExchange k ∧ k < length toolExchange ∧
      [toolResultMessage "id-1" status_success "Result"] = drop k toolExchange.
Proof.
  split; [reflexivity|]. split; [reflexivity|]. split; [reflexivity|].
  intros (k & Hvalid & Hk & Hdrop). apply Hvalid.
  destruct k as [|[|[|k]]]; [done|done| |simpl in Hk; lia].
  exists (toolResultMessage "id-1" status_success "Result"). split; [done|by left].
Qed.

Lemma scanContent_placeholder (m : Message) :
  carriesPlaceholder m ↔ scanContent (content m) = AlreadyTruncated.
Proof.
  unfold carriesPlaceholder. split.
  - intros (pre & id & more & err & post & -> & Hpre).
    induction pre as [|b pre IH]; simpl in *; [done|].
    apply orb_false_elim in Hpre as [Hb Hpre].
    destruct b; simpl in *; try done; by apply IH.
  - induction (content m) as [|b l IH]; simpl; [done|].
    destruct b as [t|tu|[id st c err]|t|]; simpl;
      try (intros H; destruct (IH H) as (pre & id' & more & err' & post & -> & Hpre);
           eexists (_ :: pre), id', more, err', post; by split).
    destruct st; simpl; [done|].
    destruct c as [|[text|j] more]; simpl; try done.
    destruct (String.eqb text toolResultTooLargeMessage) eqn:E; [|done].
    apply String.eqb_eq in E as ->. intros _.
    by exists [], id, more, err, l.
Qed.

Lemma scanContent_truncated (blocks : list ContentBlock) :
  scanContent (map truncateBlock blocks) ≠ FoundToolResultToTruncate.
Proof.
  induction blocks as [|b l IH]; simpl; [done|].
  by destruct b.
Qed.

Lemma scanContent_hasToolResult (m : Message) :
  hasToolResult m = true ↔ scanContent (content m) ≠ NoToolResult.
Proof.
  unfold hasToolResult. induction (content m) as [|b l IH]; simpl; [done|].
  destruct b; simpl; try done.
  split; [intros _|done]. by destruct (_ && _).
Qed.

(** C7.  Running [truncateToolResults] on a message whose tool result
    already equals the placeholder (an error result with the text "The tool
    result was too large!") changes nothing and returns [false]; in
    particular running it a second time at the same index is such a no-op,
    whatever the first run did. *)
Theorem truncate_already_truncated_noop (messages : list Message) (msgIdx : Z) :
  (∀ m, messages !! Z.to_nat msgIdx = Some m → carriesPlaceholder m →
        truncateToolResults messages msgIdx = (messages, false)) ∧
  truncateToolResults (truncateToolResults messages msgIdx).1 msgIdx
  = ((truncateToolResults messages msgIdx).1, false).
Proof.
  split.
  - intros m Hm Hp%scanContent_placeholder. unfold truncateToolResults.
    destruct (_ || _); [done|]. by rewrite Hm, Hp.
  - unfold truncateToolResults at 2 3.
    destruct ((msgIdx >=? Z.of_nat (length messages))%Z || (msgIdx <? 0)%Z) eqn:Hguard.
    { simpl. unfold truncateToolResults. by rewrite Hguard. }
    destruct (messages !! Z.to_nat msgIdx) as [m|] eqn:Hm.
    2:{ simpl. unfold truncateToolResults. by rewrite Hguard, Hm. }
    destruct (scanContent (content m)) eqn:Hscan; simpl.
    1,3: unfold truncateToolResults; by rewrite Hguard, Hm, Hscan.
    unfold truncateToolResults. rewrite length_insert, Hguard.
    rewrite list_lookup_insert_eq by (by eapply lookup_lt_Some).
    simpl. pose proof (scanContent_truncated (content m)) as Hne.
    by destruct (scanContent (map truncateBlock (content m))).
Qed.

Lemma truncate_already_truncated_noop_witness :
  truncateToolResults
    [toolResultMessage "id-1" status_error "The tool result was too large!"] 0
  = ([toolResultMessage "id-1" status_error "The tool result was too large!"], false).
Proof.
  apply (proj1 (truncate_already_truncated_noop
                  [toolResultMessage "id-1" status_error "The tool result was too large!"] 0)
           (toolResultMessage "id-1" status_error "The tool result was too large!")).
  - reflexivity.
  - exists [], "id-1", [], None, []. split; reflexivity.
Defined.

(** *** The pairing invariant across a reduction *)

Lemma drop_cut_head (messages : list Message) (k : nat) :
  k < length messages →
  invalidIndex messages k = false →
  startsPaired (drop k messages) = true ∧ headToolUseAnswered (drop k messages) = true.
Proof.
  intros Hk Hvalid. destruct (lookup_lt_is_Some_2 messages k Hk) as [m Hm].
  rewrite (drop_S _ _ _ Hm). unfold invalidIndex in Hvalid. rewrite Hm in Hvalid.
  simpl. destruct (hasToolResult m); [done|]. split; [done|].
  destruct (hasToolUse m); [|done].
  destruct (drop (S k) messages) as [|next rest] eqn:Hdrop.
  - apply drop_nil_inv in Hdrop. rewrite (lookup_ge_None_2 messages (S k)) in Hvalid; done.
  - assert (messages !! S k = Some next) as Hnext.
    { rewrite <- (Nat.add_0_r (S k)), <- lookup_drop, Hdrop. done. }
    rewrite Hnext in Hvalid. by destruct (hasToolResult next).
Qed.

(** C1, as the code has it.  For a window size that is an integer, a
    successful [reduceContext] preserves the pairing invariant: if the
    first message of the history holds no tool-result block and every
    message with a tool-use block is followed by a message with a
    tool-result block, the same is true of the resulting history.  When the
    call trims messages (Phase 2), the resulting history starts with a
    message that holds no tool-result block and whose tool use, if any, is
    answered by the next message, whatever the input was. *)
Theorem reduceContext_preserves_pairing
    (mgr : Manager) (messages messages' : list Message) (windowSize : Z) :
  _windowSize mgr = Number.Integer windowSize →
  reduceContext mgr messages = Ok messages' →
  (pairingInvariant messages = true → pairingInvariant messages' = true) ∧
  ((tryTruncate mgr messages).2 = false →
   startsPaired messages' = true ∧ headToolUseAnswered messages' = true).
Proof.
  unfold reduceContext. intros Hw Hred.
  pose proof (tryTruncate_kinds mgr messages) as Hkinds.
  pose proof (tryTruncate_false mgr messages) as Hsame.
  destruct (tryTruncate mgr messages) as [ms b]. simpl in *.
  destruct b.
  - injection Hred as <-. split; [|done].
    unfold pairingInvariant.
    destruct (toolUsesAnswered_kinds _ _ Hkinds) as [-> ->]. done.
  - rewrite (Hsame eq_refl) in Hred. clear Hsame Hkinds ms.
    rewrite (trimMessages_integer _ _ _ Hw) in Hred. cbv zeta in Hred.
    set (k := scanIndexes _ _ _) in Hred.
    destruct (decide (length messages ≤ k)) as [|Hk]; [done|].
    injection Hred as <-.
    assert (invalidIndex messages k = false) as Hvalid
      by (apply scanIndexes_stops; lia).
    destruct (drop_cut_head messages k ltac:(lia) Hvalid) as [Hs Hh].
    split; [|done]. unfold pairingInvariant.
    intros [_ Ha]%andb_prop. rewrite Hs. simpl. by apply toolUsesAnswered_drop.
Qed.

Lemma reduceContext_preserves_pairing_witness :
  (pairingInvariant
     [textMessage user "Message 1"; toolUseMessage "id-1";
      toolResultMessage "id-1" status_success "Result";
      textMessage assistant "Response"; textMessage user "Message 2"] = true →
   pairingInvariant [textMessage assistant "Response"; textMessage user "Message 2"] = true) ∧
  ((tryTruncate (new (Some (Number.Integer 2)) (Some false))
      [textMessage user "Message 1"; toolUseMessage "id-1";
       toolResultMessage "id-1" status_success "Result";
       textMessage assistant "Response"; textMessage user "Message 2"]).2 = false →
   startsPaired [textMessage assistant "Response"; textMessage user "Message 2"] = true ∧
   headToolUseAnswered [textMessage assistant "Response"; textMessage user "Message 2"] = true).
Proof.
  apply (reduceContext_preserves_pairing (new (Some (Number.Integer 2)) (Some false))
           [textMessage user "Message 1"; toolUseMessage "id-1";
            toolResultMessage "id-1" status_success "Result";
            textMessage assistant "Response"; textMessage user "Message 2"]
           [textMessage assistant "Response"; textMessage user "Message 2"] 2).
  - reflexivity.
  - reflexivity.
Defined.

(** C1, as stated, fails on both counts.  A history made of one
    tool-result message is truncated in place (Phase 1) and still starts
    with a tool-result block that no tool use precedes; a history with an
    unanswered tool use after the cut keeps it.  And with a window size
    that is not an integer even a history that satisfies the invariant
    loses it: with [windowSize = 0.5] the cut falls between a tool use and
    its result without the scan looking at either. *)
Lemma reduceContext_does_not_establish_pairing :
  (reduceContext (new None None)
     [toolResultMessage "tool-1" status_success "Large tool result content"]
   = Ok [toolResultMessage "tool-1" status_error "The tool result was too large!"]
   ∧ startsPaired
       [toolResultMessage "tool-1" status_error "The tool result was too large!"] = false)
  ∧
  (reduceContext (new (Some (Number.Integer 3)) None)
     [textMessage user "M1"; textMessage assistant "M2"; textMessage user "M3";
      toolUseMessage "id-1"; textMessage user "M4"]
   = Ok [textMessage user "M3"; toolUseMessage "id-1"; textMessage user "M4"]
   ∧ toolUsesAnswered
       [textMessage user "M3"; toolUseMessage "id-1"; textMessage user "M4"] = false)
  ∧
  (pairingInvariant toolExchange = true
   ∧ reduceContext (new (Some oneHalf) (Some false)) toolExchange
     = Ok [toolResultMessage "id-1" status_success "Result"]
   ∧ startsPaired [toolResultMessage "id-1" status_success "Result"] = false).
Proof. repeat split; reflexivity. Qed.

(** *** A history made of one tool-result message *)

Lemma reduce_single_throws (mgr : Manager) (m : Message) :
  hasToolResult m = true →
  (tryTruncate mgr [m]).2 = false →
  _windowSize mgr = Number.Integer 0 →
  reduceContext mgr [m] = Throw unableToTrim.
Proof.
  intros Hres Hno Hws. pose proof (tryTruncate_false _ _ Hno) as Hsame.
  unfold reduceContext. destruct (tryTruncate mgr [m]) as [ms b]. simpl in *. subst.
  rewrite (trimMessages_integer _ _ _ Hws). done.
Qed.

Lemma tryTruncate_placeholder (mgr : Manager) (m : Message) :
  carriesPlaceholder m → (tryTruncate mgr [m]).2 = false.
Proof.
  intros Hp%scanContent_placeholder.
  unfold tryTruncate, findLastMessageWithToolResults. simpl.
  destruct (hasToolResult m); [|done].
  destruct (_shouldTruncateResults mgr); [|done].
  unfold truncateToolResults. simpl. by rewrite Hp.
Qed.

(** C4, as the code has it.  With [windowSize = 0] and a history made of a
    single message that holds a tool result: when [shouldTruncateResults]
    is [false], or when the message already carries the placeholder, the
    reduction throws the context-window-overflow error; with the default
    [shouldTruncateResults = true] and a result that is not the placeholder
    the reduction succeeds by replacing the result with the placeholder, and
    it is the next reduction that throws. *)
Theorem single_tool_result_reduction (shouldTruncate : bool) (m : Message) :
  hasToolResult m = true →
  (shouldTruncate = false ∨ carriesPlaceholder m →
   reduceContext (mkManager (Number.Integer 0) shouldTruncate) [m] = Throw unableToTrim) ∧
  (shouldTruncate = true → ¬ carriesPlaceholder m →
   ∃ m', reduceContext (mkManager (Number.Integer 0) shouldTruncate) [m] = Ok [m'] ∧
         carriesPlaceholder m' ∧
         reduceContext (mkManager (Number.Integer 0) shouldTruncate) [m']
         = Throw unableToTrim).
Proof.
  intros Hres.
  assert (Hfind : findLastMessageWithToolResults [m] = Some 0).
  { unfold findLastMessageWithToolResults. simpl. by rewrite Hres. }
  split.
  - intros Hcase. apply reduce_single_throws; [done| |done].
    destruct Hcase as [->|Hp]; [|by apply tryTruncate_placeholder].
    unfold tryTruncate. by rewrite Hfind.
  - intros -> Hnp.
    assert (Hscan : scanContent (content m) = FoundToolResultToTruncate).
    { pose proof (proj1 (scanContent_hasToolResult m) Hres).
      pose proof (proj2 (scanContent_placeholder m)).
      destruct (scanContent (content m)); tauto. }
    set (m' := mkMessage (role m) (map truncateBlock (content m)) None).
    assert (Hp' : carriesPlaceholder m').
    { apply scanContent_placeholder.
      pose proof (scanContent_truncated (content m)) as Hne.
      pose proof (proj1 (scanContent_hasToolResult m') ) as Hhas.
      destruct (truncated_sameKinds m) as [Hr _]. fold m' in Hr.
      rewrite <- Hr in Hhas. specialize (Hhas Hres). simpl in *.
      destruct (scanContent (map truncateBlock (content m))); done. }
    exists m'. split; [|split; [done|]].
    + unfold reduceContext, tryTruncate. rewrite Hfind. simpl.
      unfold truncateToolResults. simpl. by rewrite Hscan.
    + apply reduce_single_throws; [|by apply tryTruncate_placeholder|done].
      destruct (truncated_sameKinds m) as [Hr _]. fold m' in Hr. congruence.
Qed.

Lemma single_tool_result_reduction_witness :
  reduceContext (mkManager (Number.Integer 0) false)
    [toolResultMessage "id-1" status_success "Result"]
  = Throw unableToTrim.
Proof.
  apply (proj1 (single_tool_result_reduction false
                  (toolResultMessage "id-1" status_success "Result") eq_refl)).
  left. reflexivity.
Defined.

(** C4, as stated, fails: with [windowSize = 0] and the default
    [shouldTruncateResults = true], a history made of one tool-result
    message whose content is not the placeholder is reduced without any
    error; Phase 1 applies and rewrites the result. *)
Lemma single_tool_result_default_does_not_throw :
  ¬ carriesPlaceholder (toolResultMessage "id-1" status_success "Result") ∧
  reduceContext (new (Some (Number.Integer 0)) None)
    [toolResultMessage "id-1" status_success "Result"]
  = Ok [toolResultMessage "id-1" status_error "The tool result was too large!"].
Proof.
  split; [|reflexivity].
  rewrite scanContent_placeholder. discriminate.
Qed.

End SlidingWindowFacts.

(** ** The invocation lock *)

Section GeneratorFacts.
Context {St Inner Args : Type}.
Variable initializeRoot : St → option Error * St.
Variable startInner : Args → nat → Inner.
Variable nextInner : Inner → St → InnerStep Inner St.
Variable processEvent : AgentStreamEvent → St → option Error * St.

Local Abbreviation advance' := (advance (Args:=Args) nextInner processEvent).
Local Abbreviation genNext' := (genNext initializeRoot startInner nextInner processEvent).
Local Abbreviation act' := (act initializeRoot startInner nextInner processEvent).
Local Abbreviation reachable' := (reachable initializeRoot startInner nextInner processEvent).
Local Abbreviation drain' := (drain initializeRoot startInner nextInner processEvent).
Local Abbreviation invoke' := (invoke initializeRoot startInner nextInner processEvent).
Local Abbreviation exhausts' := (exhausts initializeRoot startInner nextInner processEvent).
Local Abbreviation Gen := (@StreamGen Inner Args).
Local Abbreviation Root := (@RootAgent St).
Local Abbreviation Prog := (@Program St Inner Args).









(** How a call of [next()] leaves a generator that holds the lock, or that
    finds it free: suspended at a [yield] with the lock held, or completed
    with the lock released. *)
Lemma genNext_ownsLock (gen : Gen) (root : Root) :
  ownsLock gen root →
  match (genNext' gen root).1.1 with
  | YieldedValue _ =>
      inFlight (genNext' gen root).1.2 = true ∧ _isInvoking (genNext' gen root).2 = true
  | DoneValue _ | Raised _ =>
      (genNext' gen root).1.2 = Completed ∧ _isInvoking (genNext' gen root).2 = false
  end.
Proof.
  unfold ownsLock. destruct gen as [args initialAgent|inner|result|]; simpl; intros Hown.
  - unfold acquireLock. rewrite Hown. simpl.
    destruct (initializeRoot (rootState root)) as [[e|] st]; simpl; [done|].
    unfold advance. destruct (nextInner _ st) as [event inner' st'|result st'|e st'];
      simpl; try done.
    by destruct (processEvent event st') as [[e|] st''].
  - unfold advance. destruct (nextInner _ _) as [event inner' st'|result st'|e st'];
      simpl; try done.
    by destruct (processEvent event st') as [[e|] st''].
  - done.
  - done.
Qed.


(** Draining a generator that holds the lock, or finds it free, leaves the
    lock free. *)
Lemma drain_releases (fuel : nat) (gen : Gen) (root root' : Root)
    (outcome : Result (option AgentResult)) :
  ownsLock gen root →
  drain' fuel gen root = Some (outcome, root') →
  _isInvoking root' = false.
Proof.
  revert gen root. induction fuel as [|fuel IH]; intros gen root Hown; simpl; [done|].
  pose proof (genNext_ownsLock gen root Hown) as Hstep.
  destruct (genNext' gen root) as [[[event|value|e] gen'] root1]; simpl in *.
  - apply IH. unfold ownsLock. destruct Hstep as [-> ->]. done.
  - intros [= <- <-]. by destruct Hstep.
  - intros [= <- <-]. by destruct Hstep.
Qed.


(** ** [invoke] and [stream] *)

Lemma drain_exhausts (fuel : nat) (gen : Gen) (root root' : Root)
    (outcome : Result (option AgentResult)) :
  drain' fuel gen root = Some (outcome, root') →
  ∃ events, exhausts' gen root events outcome root'.
Proof.
  revert gen root. induction fuel as [|fuel IH]; intros gen root; simpl; [done|].
  destruct (genNext' gen root) as [[it gen'] root1] eqn:Hnext.
  destruct it as [event|value|e].
  - intros Hd. destruct (IH _ _ Hd) as [events He].
    exists (event :: events). by eapply exhausts_yield.
  - intros [= <- <-]. exists []. by eapply exhausts_done.
  - intros [= <- <-]. exists []. by eapply exhausts_raised.
Qed.

Lemma exhausts_drain (gen : Gen) (root root' : Root)
    (events : list AgentStreamEvent) (outcome : Result (option AgentResult)) :
  exhausts' gen root events outcome root' →
  ∀ fuel, length events < fuel → drain' fuel gen root = Some (outcome, root').
Proof.
  induction 1 as [gen root event gen' root1 events outcome root2 Hnext _ IH
                 |gen root value gen' root1 Hnext
                 |gen root e gen' root1 Hnext];
    intros [|fuel] Hfuel; simpl in *; try lia; rewrite Hnext; [|done|done].
  apply IH. lia.
Qed.

(** A generator of [stream] that returns has yielded its result as its
    last event. *)
Lemma exhausts_result (gen : Gen) (root root' : Root)
    (events : list AgentStreamEvent) (value : option AgentResult) :
  exhausts' gen root events (Ok value) root' →
  match gen with
  | NotStarted _ _ | AtEvent _ =>
      ∃ result, value = Some result ∧ last events = Some (AgentResultStreamed result)
  | AtResult result => value = Some result ∧ events = []
  | Completed => value = None ∧ events = []
  end.
Proof.
  remember (Ok value) as outcome eqn:Hout.
  induction 1 as [gen root event gen' root1 events outcome root2 Hnext Hrest IH
                 |gen root value' gen' root1 Hnext
                 |gen root e gen' root1 Hnext]; [|injection Hout as ->|done].
  - specialize (IH Hout).
    assert (Hadv : ∀ inner st,
              advance' inner st = (YieldedValue event, gen', root1) →
              ∃ result, value = Some result ∧
                        last (event :: events) = Some (AgentResultStreamed result)).
    { intros inner st. unfold advance.
      destruct (nextInner inner st) as [ev inner' st'|result st'|e st']; [| |done].
      - destruct (processEvent ev st') as [[e|] st'']; [done|].
        intros [= <- <- <-]. destruct IH as (result & -> & Hlast).
        exists result. split; [done|]. destruct events; [done|]. done.
      - intros [= <- <- <-]. destruct IH as [-> ->]. by exists result. }
    destruct gen as [args agent|inner|result|]; simpl in Hnext.
    + unfold acquireLock in Hnext. destruct (_isInvoking root); [done|]. simpl in Hnext.
      destruct (initializeRoot (rootState root)) as [[e|] st]; [done|].
      by eapply Hadv.
    + by eapply Hadv.
    + done.
    + done.
  - destruct gen as [args agent|inner|result|]; simpl in Hnext.
    + unfold acquireLock in Hnext. destruct (_isInvoking root); [done|]. simpl in Hnext.
      destruct (initializeRoot (rootState root)) as [[e|] st]; [done|].
      unfold advance in Hnext.
      destruct (nextInner _ st) as [ev inner' st'|result st'|e st']; try done.
      by destruct (processEvent ev st') as [[e|] st''].
    + unfold advance in Hnext.
      destruct (nextInner _ _) as [ev inner' st'|result st'|e st']; try done.
      by destruct (processEvent ev st') as [[e|] st''].
    + by injection Hnext as <- _ _.
    + by injection Hnext as <- _ _.
Qed.

(** C9.  [invoke(args)] ends exactly as the generator of [stream(args)]
    does when it is exhausted: it returns the result the generator returns,
    or throws the error the generator throws, and leaves the agent in the
    state the exhausted generator leaves it in, which is all it does.  The
    result is the one the generator yielded last. *)
Theorem invoke_is_drained_stream (this : nat) (args : Args) (root root' : Root)
    (outcome : Result (option AgentResult)) :
  ((∃ fuel, invoke' fuel this args root = Some (outcome, root')) ↔
   (∃ events, exhausts' (stream this args) root events outcome root')) ∧
  (∀ fuel fuel', invoke' fuel this args root = Some (outcome, root') → fuel ≤ fuel' →
                 invoke' fuel' this args root = Some (outcome, root')) ∧
  (∀ events value,
     exhausts' (stream this args) root events outcome root' → outcome = Ok value →
     ∃ result, value = Some result ∧ last events = Some (AgentResultStreamed result)).
Proof.
  split; [split|split].
  - intros [fuel Hf]. by eapply drain_exhausts.
  - intros [events He]. exists (S (length events)).
    apply (exhausts_drain _ _ _ _ _ He). lia.
  - intros fuel fuel' Hf Hle.
    destruct (drain_exhausts _ _ _ _ _ Hf) as [events He].
    apply (exhausts_drain _ _ _ _ _ He).
    assert (length events < fuel); [|lia].
    clear -Hf He. unfold invoke in Hf. revert fuel Hf.
    induction He as [gen root event gen' root1 events outcome root2 Hnext _ IH
                    |gen root value gen' root1 Hnext
                    |gen root e gen' root1 Hnext];
      intros [|fuel] Hf; simpl in *; try done; try lia.
    rewrite Hnext in Hf. specialize (IH _ Hf). lia.
  - intros events value He ->. apply (exhausts_result _ _ _ _ _ He).
Qed.

End GeneratorFacts.

(** ** Sub-agent trees *)

Section TreeFacts.
Context {HS : Type}.
Implicit Types (w : World (HS:=HS)).

Example nested_subAgents_rejected :
  (nestedSubAgents (emptyWorld tt)).1 = Thrown (mkError PlainError nestedSubAgentsMessage).
Proof. vm_compute. reflexivity. Qed.

Example duplicate_names_rejected :
  (duplicateNames (emptyWorld tt)).1
  = Thrown (mkError PlainError "Duplicate sub-agent name 'dup' under parent 'root'").
Proof. vm_compute. reflexivity. Qed.

Example unnamed_child_rejected :
  (unnamedChild (emptyWorld tt)).1 = Thrown (mkError PlainError nameRequiredMessage).
Proof. vm_compute. reflexivity. Qed.

(** An agent that is given both a parent and sub-agents is rejected. *)
Lemma wire_rejects_parent_and_children w (this : nat) (self : Agent) (children : list nat) :
  agents w !! this = Some self →
  agentArrays w !! subAgents self = Some children →
  is_Some (parentAgent self) → children ≠ [] →
  _wireAgentTree this w = (Thrown (mkError PlainError nestedSubAgentsMessage), w).
Proof.
  intros Hself Hchildren Hparent Hne.
  unfold _wireAgentTree, readAgent, readAgentArray. unfold_monad.
  rewrite Hself. simpl. rewrite Hchildren. simpl.
  rewrite (bool_decide_eq_true_2 _ Hparent), (bool_decide_eq_false_2 _ Hne). done.
Qed.

(** A child that has sub-agents of its own is rejected. *)
Lemma wireChild_rejects_nested w (this child : nat) (c : Agent) (grandChildren : list nat) :
  agents w !! child = Some c →
  agentArrays w !! subAgents c = Some grandChildren →
  grandChildren ≠ [] →
  wireChild this child w = (Thrown (mkError PlainError nestedSubAgentsMessage), w).
Proof.
  intros Hc Hg Hne.
  unfold wireChild, readAgent, readAgentArray. unfold_monad.
  rewrite Hc. simpl. rewrite Hg. simpl.
  rewrite (bool_decide_eq_false_2 _ Hne). done.
Qed.

End TreeFacts.

(** C10 on the code.  Three constructor calls, each accepted, build a tree
    of three levels: the second agent names the first as its parent, the
    third names the second.  The check on [parentAgent] looks at the new
    agent's own sub-agents only, not at whether the parent is itself a
    child. *)
Theorem three_levels_are_accepted :
  ∃ g p c,
    (threeGenerationsObserved (emptyWorld tt)).1
    = Returned (g, p, c, Some (Some p), Some (Some g), Some [p], Some [c], g, 3).
Proof. exists 2, 5, 8. vm_compute. reflexivity. Qed.

(** ** Scripted runs of the loop *)

(** The callback of the sliding-window manager never assigns the property
    [retry], the one [invokeModel] reads: it assigns [retryModelCall]. *)
Lemma slidingWindow_leaves_retry_unset {HS : Type} (mgr : SlidingWindow.Manager)
    (event : HookEvent) (history : list Message) (hs : HS) :
  propIsTruthy "retry" (effEvent (slidingWindowAfterModelCall mgr event history hs))
  = propIsTruthy "retry" event.
Proof.
  unfold slidingWindowAfterModelCall.
  destruct (eventError event) as [error|]; [|done].
  destruct (isContextWindowOverflow error); [|done].
  destruct (SlidingWindow.reduceContext mgr history); [|done].
  unfold propIsTruthy, assignProp. simpl.
  by rewrite lookup_insert_ne.
Qed.

Lemma slidingWindow_sets_retryModelCall {HS : Type} (mgr : SlidingWindow.Manager)
    (event : HookEvent) (history history' : list Message) (hs : HS) (error : Error) :
  eventError event = Some error →
  isContextWindowOverflow error = true →
  SlidingWindow.reduceContext mgr history = Ok history' →
  slidingWindowAfterModelCall mgr event history hs
  = mkEffect (assignProp "retryModelCall" true event) history' hs None.
Proof.
  intros He Ho Hr. unfold slidingWindowAfterModelCall. by rewrite He, Ho, Hr.
Qed.

(** C3 on the code.  The model call of an agent with the default
    conversation manager fails with a context-window overflow.  The manager
    reduces the history and marks the event, under the property name
    [retryModelCall]; [invokeModel] reads the property [retry], finds
    nothing, and throws the overflow error to its caller: the model is not
    called a second time. *)
Theorem overflow_is_rethrown :
  (overflowRun [] (emptyWorld tt)).1
  = Returned (Thrown overflowError,
              Some [textMessage user "hello"],
              Some [answers "Hi"],
              Some (HookStreamEvent
                      (mkHookEvent (AfterModelCall None (Some overflowError))
                                   {["retryModelCall" := true]}))).
Proof. vm_compute. reflexivity. Qed.

(** When a hook does assign [retry], the call is issued again with the
    arguments of the first call, so the input is appended a second time. *)
Example retry_appends_the_input_again :
  ∃ event,
    (overflowRun [retryFailedModelCalls] (emptyWorld tt)).1
    = Returned (Returned (mkMessage assistant [TextBlock "Hi"] None, StopEndTurn),
                Some [textMessage user "hello"; textMessage user "hello"],
                Some [],
                Some event).
Proof. eexists. vm_compute. reflexivity. Qed.

(** C5 on the code.  A first invocation transfers from [root] to [math]
    once ([math] then answers); a second invocation is answered by [math]
    without any transfer.  The counter of consecutive transfers is 1 after
    the first invocation and still 1 after the second: the path that ends
    an invocation returns before the counter is reset. *)
Theorem counter_outlives_the_invocation :
  (twoInvocations (emptyWorld tt)).1
  = Returned
      (Returned (mkAgentResult StopEndTurn
                   (mkMessage assistant [TextBlock "child first turn"] None)),
       Some 1,
       Returned (mkAgentResult StopEndTurn
                   (mkMessage assistant [TextBlock "child second turn"] None)),
       false,
       Some 1).
Proof. vm_compute. reflexivity. Qed.

(** A transfer to an unknown agent comes back as a tool error and the
    active agent goes on. *)
Example invalid_target_keeps_the_active_agent :
  (invalidTarget (emptyWorld tt)).1
  = Returned
      (Returned (mkAgentResult StopEndTurn
                   (mkMessage assistant [TextBlock "root fallback answer"] None)),
       Some [None; Some "root"; Some "root"; Some "root"]).
Proof. vm_compute. reflexivity. Qed.

(** A call on a sub-agent starts with that sub-agent, whatever agent the
    root remembers. *)
Example explicit_child_entry_is_honoured :
  (explicitChild (emptyWorld tt)).1
  = Returned
      (Returned (mkAgentResult StopEndTurn
                   (mkMessage assistant [TextBlock "flashcards direct turn"] None))).
Proof. vm_compute. reflexivity. Qed.

(** At the ceiling the transfer tool refuses to queue a transfer: it throws
    and changes nothing. *)
Lemma queueTransfer_refuses_at_ceiling {HS : Type} (w : World (HS:=HS))
    (this : nat) (root : Agent) (target : string) :
  agents w !! this = Some root →
  MAX_CONSECUTIVE_TRANSFERS ≤ _consecutiveTransfers root →
  queueTransfer this target w = (Thrown (mkError PlainError transferGuardMessage), w).
Proof.
  intros Hroot Hmax. unfold queueTransfer, readAgent. unfold_monad.
  rewrite Hroot. simpl. unfold MAX_CONSECUTIVE_TRANSFERS in Hmax.
  destruct (_consecutiveTransfers root) as [|[|[|[|[|[|[|[|n]]]]]]]]; try lia. done.
Qed.

(** Below the ceiling it records the target as the pending transfer. *)
Lemma queueTransfer_queues_below_ceiling {HS : Type} (w : World (HS:=HS))
    (this : nat) (root : Agent) (target : string) :
  agents w !! this = Some root →
  _consecutiveTransfers root < MAX_CONSECUTIVE_TRANSFERS →
  ∃ w', queueTransfer this target w = (Returned tt, w') ∧
        agents w' !! this = Some (withPendingTransferTarget root (Some target)).
Proof.
  intros Hroot Hmax. unfold queueTransfer, assign, readAgent, writeAgent. unfold_monad.
  rewrite Hroot. simpl. unfold MAX_CONSECUTIVE_TRANSFERS in Hmax.
  destruct (_consecutiveTransfers root) as [|[|[|[|[|[|[|[|n]]]]]]]] eqn:Hn; try lia;
    rewrite Hroot; simpl; (eexists; split; [done|]; simpl; by rewrite lookup_insert_eq).
Qed.

(** The first eight transfers are made; the ninth request comes back to the
    model as an error result, the counter is back at zero, [root] stays the
    active agent and the invocation ends normally. *)
Example ninth_transfer_is_suppressed :
  (ninthTransfer (emptyWorld tt)).1
  = Returned
      (Returned (mkAgentResult StopEndTurn
                   (mkMessage assistant [TextBlock "root answer"] None)),
       8,
       [mkToolResult "t9" status_error [TextContent transferGuardMessage]
          (Some (mkError PlainError transferGuardMessage))],
       Some 0,
       Some (Some "root")).
Proof. vm_compute. reflexivity. Qed.

(** The ninth invocation has made no transfer when its first request is
    refused with the words "in one invocation". *)
Example first_transfer_of_an_invocation_is_suppressed :
  (ninthInvocation (emptyWorld tt)).1
  = Returned
      (Returned (mkAgentResult StopEndTurn (mkMessage assistant [TextBlock "a9"] None)),
       0,
       [mkToolResult "t9" status_error [TextContent transferGuardMessage]
          (Some (mkError PlainError transferGuardMessage))],
       Some 0).
Proof. vm_compute. reflexivity. Qed.

(** ** Tool execution *)

Section ToolFacts.
Context {HS : Type}.
Implicit Types (w : World (HS:=HS)).
Local Abbreviation neverThrows := (neverThrows (HS:=HS)).

Lemma bind_unfold {A B : Type} (m : M (HS:=HS) A) (f : A → M B) w :
  (m ≫= f) w
  = match m w with
    | (Returned a, w') => f a w'
    | (Thrown e, w') => (Thrown e, w')
    | (Abandoned e, w') => (Abandoned e, w')
    | (OutOfFuel, w') => (OutOfFuel, w')
    | (Stuck, w') => (Stuck, w')
    end.
Proof. reflexivity. Qed.

Lemma neverThrows_ret {A : Type} (a : A) : neverThrows (mret a).
Proof. by intros w e w'. Qed.

Lemma neverThrows_bind {A B : Type} (m : M A) (f : A → M B) :
  neverThrows m → (∀ a, neverThrows (f a)) → neverThrows (m ≫= f).
Proof.
  intros Hm Hf w e w'. rewrite bind_unfold.
  destruct (m w) as [[a|e1|e1| |] w1] eqn:E; try done.
  - apply Hf.
  - by destruct (Hm w e1 w1).
Qed.

Lemma neverThrows_tryCatch {A : Type} (body : M A) (handler : Error → M A) :
  (∀ e, neverThrows (handler e)) → neverThrows (tryCatch body handler).
Proof.
  intros Hh w e w'. unfold tryCatch.
  destruct (body w) as [[a|e1|e1| |] w1]; try done. apply Hh.
Qed.

Lemma neverThrows_getWorld : neverThrows getWorld.
Proof. by intros w e w'. Qed.

Lemma neverThrows_putWorld w0 : neverThrows (putWorld w0).
Proof. by intros w e w'. Qed.

Lemma neverThrows_readAgent (ref : nat) : neverThrows (readAgent ref).
Proof.
  apply neverThrows_bind; [apply neverThrows_getWorld|].
  intros w0 w e w'. by destruct (agents w0 !! ref).
Qed.

Lemma neverThrows_readMessages (ref : nat) : neverThrows (readMessages ref).
Proof.
  apply neverThrows_bind; [apply neverThrows_getWorld|].
  intros w0 w e w'. by destruct (messageArrays w0 !! ref).
Qed.

Lemma neverThrows_emit (ev : AgentStreamEvent) : neverThrows (emit ev).
Proof.
  apply neverThrows_bind; [apply neverThrows_getWorld|].
  intros w0. apply neverThrows_putWorld.
Qed.

Lemma neverThrows_runHooks (owner : nat) (event : HookEvent) :
  neverThrows (runHooks owner event).
Proof.
  apply neverThrows_bind; [apply neverThrows_readAgent|]. intros a.
  apply neverThrows_bind; [apply neverThrows_readMessages|]. intros history.
  apply neverThrows_bind; [apply neverThrows_getWorld|]. intros w0.
  apply neverThrows_bind; [apply neverThrows_putWorld|]. intros _.
  apply neverThrows_ret.
Qed.

(** Serving a [yield] of a hook event never throws into the generator. *)
Lemma neverThrows_yieldHook (this : nat) (d : EventData) : neverThrows (yieldHook this d).
Proof.
  apply neverThrows_bind; [apply neverThrows_runHooks|]. intros [event [e|]]; simpl.
  - by intros w e' w'.
  - apply neverThrows_bind; [apply neverThrows_emit|]. intros _. apply neverThrows_ret.
Qed.

Lemma neverThrows_toolAttempt (this : nat) (tool : option Tool) (toolUseBlock : ToolUse) :
  neverThrows (toolAttempt this tool toolUseBlock).
Proof.
  destruct tool as [t|]; simpl; [|apply neverThrows_ret].
  apply neverThrows_tryCatch. intros e. apply neverThrows_ret.
Qed.

Lemma neverThrows_executeTool (fuel : nat) (this : nat) (toolUseBlock : ToolUse)
    (toolRegistry : list Tool) :
  neverThrows (executeTool fuel this toolUseBlock toolRegistry).
Proof.
  induction fuel as [|fuel IH]; simpl; [by intros w e w'|].
  apply neverThrows_bind; [apply neverThrows_yieldHook|]. intros _.
  apply neverThrows_bind; [apply neverThrows_toolAttempt|]. intros attempt.
  apply neverThrows_bind; [apply neverThrows_yieldHook|]. intros event.
  destruct (propIsTruthy "retry" event); [apply IH|apply neverThrows_ret].
Qed.

Lemma neverThrows_executeEach (fuel : nat) (this : nat) (toolUseBlocks : list ToolUse)
    (toolRegistry : list Tool) :
  neverThrows (executeEach fuel this toolUseBlocks toolRegistry).
Proof.
  induction toolUseBlocks as [|toolUseBlock rest IH]; simpl; [apply neverThrows_ret|].
  apply neverThrows_bind; [apply neverThrows_executeTool|]. intros r.
  apply neverThrows_bind; [apply neverThrows_emit|]. intros _.
  apply neverThrows_bind; [apply IH|]. intros others. apply neverThrows_ret.
Qed.

(** What [executeTool] returns is the result of one of its attempts. *)
Lemma executeTool_returns_attempt (fuel : nat) (this : nat) (toolUseBlock : ToolUse)
    (toolRegistry : list Tool) w (r : ToolResult) w' :
  executeTool fuel this toolUseBlock toolRegistry w = (Returned r, w') →
  ∃ w1 w2 err,
    toolAttempt this (findTool toolRegistry toolUseBlock) toolUseBlock w1
    = (Returned (r, err), w2).
Proof.
  revert w. induction fuel as [|fuel IH]; intros w; simpl; [done|].
  rewrite bind_unfold.
  destruct (yieldHook this _ w) as [[ev0|e|e| |] w0]; try done.
  rewrite bind_unfold.
  destruct (toolAttempt this _ toolUseBlock w0) as [[[r0 err0]|e|e| |] w1] eqn:Hattempt;
    try done.
  rewrite bind_unfold. simpl.
  destruct (yieldHook this _ w1) as [[ev1|e|e| |] w2]; try done.
  destruct (propIsTruthy "retry" ev1); [apply IH|].
  intros [= <- <-]. eauto.
Qed.

(** One run of the loop of [executeTool], when the hooks neither throw nor
    ask for a retry: the result of the attempt is returned. *)
Lemma executeTool_single_pass (fuel : nat) (this : nat) (toolUseBlock : ToolUse)
    (toolRegistry : list Tool) w (ev0 ev1 : HookEvent) w0 w1 w2
    (r : ToolResult) (err : option Error) :
  let tool := findTool toolRegistry toolUseBlock in
  yieldHook this (BeforeToolCall toolUseBlock (bool_decide (is_Some tool))) w
  = (Returned ev0, w0) →
  toolAttempt this tool toolUseBlock w0 = (Returned (r, err), w1) →
  yieldHook this (AfterToolCall toolUseBlock (bool_decide (is_Some tool)) r err) w1
  = (Returned ev1, w2) →
  propIsTruthy "retry" ev1 = false →
  executeTool (S fuel) this toolUseBlock toolRegistry w = (Returned r, w2).
Proof.
  intros tool H0 H1 H2 Hretry. simpl. fold tool.
  rewrite bind_unfold, H0, bind_unfold, H1, bind_unfold. simpl.
  by rewrite H2, Hretry.
Qed.

Lemma executeEach_length (fuel : nat) (this : nat) (toolUseBlocks : list ToolUse)
    (toolRegistry : list Tool) w (results : list ToolResult) w' :
  executeEach fuel this toolUseBlocks toolRegistry w = (Returned results, w') →
  length results = length toolUseBlocks.
Proof.
  revert w results. induction toolUseBlocks as [|toolUseBlock rest IH];
    intros w results; simpl.
  - by intros [= <- <-].
  - rewrite bind_unfold.
    destruct (executeTool fuel this toolUseBlock toolRegistry w) as [[r|e|e| |] w0];
      try done.
    rewrite bind_unfold.
    destruct (emit (ToolResultStreamed r) w0) as [[[]|e|e| |] w1]; try done.
    rewrite bind_unfold.
    destruct (executeEach fuel this rest toolRegistry w1) as [[others|e|e| |] w2] eqn:E;
      try done.
    intros [= <- <-]. simpl. f_equal. by eapply IH.
Qed.

(** C6.  For a tool use run by the loop, each of the three failures (no
    tool of that name in the registry, the tool threw, the tool ended
    without a result) makes the attempt produce a tool result of error
    status that bears the [toolUseId] of the tool use; [executeTool] returns
    the result of its attempt when the hooks ask for no retry, returns
    nothing but the result of an attempt, and never throws; and the loop
    over the tool uses of the message does not throw either and, when it
    ends, has one result for each tool use. *)
Theorem tool_failures_become_error_results
    (this : nat) (toolUseBlock : ToolUse) (toolRegistry : list Tool) :
  let tool := findTool toolRegistry toolUseBlock in
  (∀ w, tool = None →
        toolAttempt this tool toolUseBlock w
        = (Returned (toolNotFound toolUseBlock, None), w)) ∧
  (∀ w t e w', tool = Some t →
        toolStream this t toolUseBlock w = (Thrown e, w') →
        toolAttempt this tool toolUseBlock w
        = (Returned (toolThrew toolUseBlock e, Some e), w')) ∧
  (∀ w t w', tool = Some t →
        toolStream this t toolUseBlock w = (Returned None, w') →
        toolAttempt this tool toolUseBlock w
        = (Returned (toolDidNotReturn toolUseBlock, None), w')) ∧
  (∀ r, r = toolNotFound toolUseBlock ∨ r = toolDidNotReturn toolUseBlock
        ∨ (∃ e, r = toolThrew toolUseBlock e) →
        resultStatus r = status_error ∧
        resultToolUseId r = toolUseId toolUseBlock) ∧
  (∀ fuel w ev0 w0 r err w1 ev1 w2,
        yieldHook this (BeforeToolCall toolUseBlock (bool_decide (is_Some tool))) w
        = (Returned ev0, w0) →
        toolAttempt this tool toolUseBlock w0 = (Returned (r, err), w1) →
        yieldHook this (AfterToolCall toolUseBlock (bool_decide (is_Some tool)) r err) w1
        = (Returned ev1, w2) →
        propIsTruthy "retry" ev1 = false →
        executeTool (S fuel) this toolUseBlock toolRegistry w = (Returned r, w2)) ∧
  (∀ fuel w,
        match executeTool fuel this toolUseBlock toolRegistry w with
        | (Returned r, _) =>
            ∃ w1 w2 err, toolAttempt this tool toolUseBlock w1 = (Returned (r, err), w2)
        | (Thrown _, _) => False
        | _ => True
        end) ∧
  (∀ fuel toolUseBlocks w,
        match executeEach fuel this toolUseBlocks toolRegistry w with
        | (Returned results, _) => length results = length toolUseBlocks
        | (Thrown _, _) => False
        | _ => True
        end).
Proof.
  intros tool. repeat split.
  - intros w ->. done.
  - intros w t e w' -> Hs. simpl. unfold tryCatch. rewrite bind_unfold, Hs. done.
  - intros w t w' -> Hs. simpl. unfold tryCatch. rewrite bind_unfold, Hs. done.
  - destruct H as [->|[->|[e ->]]]; done.
  - destruct H as [->|[->|[e ->]]]; done.
  - intros fuel w ev0 w0 r err w1 ev1 w2. apply executeTool_single_pass.
  - intros fuel w.
    destruct (executeTool fuel this toolUseBlock toolRegistry w) as [[r|e|e| |] w'] eqn:E;
      try done.
    + by eapply executeTool_returns_attempt.
    + by destruct (neverThrows_executeTool fuel this toolUseBlock toolRegistry w e w').
  - intros fuel toolUseBlocks w.
    destruct (executeEach fuel this toolUseBlocks toolRegistry w) as [[rs|e|e| |] w'] eqn:E;
      try done.
    + by eapply executeEach_length.
    + by destruct (neverThrows_executeEach fuel this toolUseBlocks toolRegistry w e w').
Qed.

End ToolFacts.

(** The three failures side by side: one error result for each tool use, in
    the order of the tool uses, each with the id of its tool use. *)
Example three_failures_three_error_results :
  (threeFailures (emptyWorld tt)).1
  = Returned
      (mkMessage user
         [ToolResultBlock
            (mkToolResult "id-1" status_error
               [TextContent "Tool 'ghost' not found in registry"] None);
          ToolResultBlock
            (mkToolResult "id-2" status_error
               [TextContent "boom"] (Some (mkError PlainError "boom")));
          ToolResultBlock
            (mkToolResult "id-3" status_error
               [TextContent "Tool 'noop' did not return a result"] None)]
         None).
Proof. vm_compute. reflexivity. Qed.

Lemma tool_failures_become_error_results_witness :
  toolAttempt 0 (findTool [mkTool "calc" ExternalTool] (mkToolUse "calc" "id-7" JNull))
    (mkToolUse "calc" "id-7" JNull) failingToolWorld
  = (Returned (toolThrew (mkToolUse "calc" "id-7" JNull) (mkError PlainError "boom"),
               Some (mkError PlainError "boom")),
     mkWorld ∅ ∅ ∅ 0 [] tt []).
Proof.
  apply (proj1 (proj2 (tool_failures_become_error_results (HS:=unit) 0
                         (mkToolUse "calc" "id-7" JNull) [mkTool "calc" ExternalTool]))
           failingToolWorld (mkTool "calc" ExternalTool)).
  - reflexivity.
  - reflexivity.
Defined.


Lemma invoke_is_drained_stream_witness :
  ∃ events,
    exhausts scriptedInitialize scriptedStart scriptedNext scriptedProcess
      (stream 0 [modelEvent "a"; modelEvent "b"]) (mkRootAgent false 0)
      events (Ok (Some scriptedResult)) (mkRootAgent false 2).
Proof.
  apply (proj1 (proj1 (invoke_is_drained_stream
                         scriptedInitialize scriptedStart scriptedNext scriptedProcess
                         0 [modelEvent "a"; modelEvent "b"]
                         (mkRootAgent false 0) (mkRootAgent false 2)
                         (Ok (Some scriptedResult))))).
  exists 4. reflexivity.
Defined.

(** ** The counter of consecutive transfers *)

Section TransferFacts.
Context {HS : Type}.
Implicit Types (w : World (HS:=HS)) (P E : World (HS:=HS) → Prop).
Local Abbreviation keeps := (keepsTransfers (HS:=HS)).
Local Abbreviation hoare := (hoare (HS:=HS)).
Local Abbreviation transfersBounded := (transfersBounded (HS:=HS)).

Lemma keeps_ret {A : Type} (this : nat) (a : A) : keeps this (mret a).
Proof. by intros w. Qed.

Lemma keeps_bind {A B : Type} (this : nat) (m : M A) (f : A → M B) :
  keeps this m → (∀ a, keeps this (f a)) → keeps this (m ≫= f).
Proof.
  intros Hm Hf w. rewrite bind_unfold. specialize (Hm w).
  destruct (m w) as [[a|e|e| |] w1]; simpl in *; try done.
  by rewrite Hf.
Qed.

Lemma keeps_tryCatch {A : Type} (this : nat) (body : M A) (handler : Error → M A) :
  keeps this body → (∀ e, keeps this (handler e)) → keeps this (tryCatch body handler).
Proof.
  intros Hb Hh w. unfold tryCatch. specialize (Hb w).
  destruct (body w) as [[a|e|e| |] w1]; simpl in *; try done.
  by rewrite Hh.
Qed.

Lemma keeps_forEach {A : Type} (this : nat) (l : list A) (body : A → M unit) :
  (∀ x, keeps this (body x)) → keeps this (forEach l body).
Proof.
  intros Hb. induction l as [|x l IH]; simpl; [apply keeps_ret|].
  apply keeps_bind; [apply Hb|]. intros _. apply IH.
Qed.

Lemma keeps_same_world {A : Type} (this : nat) (m : M A) :
  (∀ w, (m w).2 = w) → keeps this m.
Proof. intros H w. by rewrite H. Qed.

Lemma keeps_same_agents {A : Type} (this : nat) (m : M A) :
  (∀ w, agents (m w).2 = agents w) → keeps this m.
Proof. intros H w. unfold transfersOf. by rewrite H. Qed.

Lemma keeps_readAgent (this ref : nat) : keeps this (readAgent ref).
Proof.
  apply keeps_same_world. intros w. unfold readAgent. rewrite bind_unfold. simpl.
  by destruct (agents w !! ref).
Qed.

Lemma keeps_readMessages (this ref : nat) : keeps this (readMessages ref).
Proof.
  apply keeps_same_world. intros w. unfold readMessages. rewrite bind_unfold. simpl.
  by destruct (messageArrays w !! ref).
Qed.

Lemma keeps_getWorld (this : nat) : keeps this getWorld.
Proof. by apply keeps_same_world. Qed.

Lemma keeps_writeMessages (this ref : nat) (l : list Message) :
  keeps this (writeMessages ref l).
Proof. by apply keeps_same_agents. Qed.

Lemma keeps_emit (this : nat) (e : AgentStreamEvent) : keeps this (emit e).
Proof. by apply keeps_same_agents. Qed.

Lemma keeps_throw {A : Type} (this : nat) (e : Error) : keeps this (throw (A:=A) e).
Proof. by apply keeps_same_world. Qed.

Lemma keeps_runHooks (this owner : nat) (event : HookEvent) :
  keeps this (runHooks owner event).
Proof.
  apply keeps_same_agents. intros w.
  unfold runHooks, readAgent, readMessages. unfold_monad.
  destruct (agents w !! owner) as [a|]; [|done]. simpl.
  by destruct (messageArrays w !! messages a).
Qed.

Lemma keeps_yieldHook (this root : nat) (d : EventData) : keeps this (yieldHook root d).
Proof.
  apply keeps_bind; [apply keeps_runHooks|]. intros [event [e|]]; simpl.
  - by apply keeps_same_world.
  - apply keeps_bind; [apply keeps_emit|]. intros _. apply keeps_ret.
Qed.

(** An assignment to a field other than the counter. *)
Lemma keeps_assign {V : Type} (this ref : nat) (setter : Agent → V → Agent) (v : V) :
  (∀ a, _consecutiveTransfers (setter a v) = _consecutiveTransfers a) →
  keeps this (assign ref setter v).
Proof.
  intros Hset w. unfold assign, readAgent, writeAgent, transfersOf. unfold_monad.
  destruct (agents w !! ref) as [a|] eqn:Ha; [|done]. simpl.
  destruct (decide (ref = this)) as [->|Hne].
  - by rewrite lookup_insert_eq, Ha; simpl; rewrite Hset.
  - by rewrite lookup_insert_ne.
Qed.

Lemma keeps_appendMessage (this root : nat) (message : Message) (a : option string) :
  keeps this (_appendMessage root message a).
Proof.
  unfold _appendMessage.
  apply keeps_bind; [apply keeps_readAgent|]. intros self.
  apply keeps_bind; [apply keeps_readMessages|]. intros history.
  apply keeps_bind; [apply keeps_writeMessages|]. intros _.
  apply keeps_bind; [apply keeps_runHooks|]. intros [event [e|]]; simpl.
  - apply keeps_throw.
  - apply keeps_ret.
Qed.

Lemma keeps_appendAndYield (this root : nat) (message : Message) (a : option string) :
  keeps this (appendAndYield root message a).
Proof.
  apply keeps_bind; [apply keeps_appendMessage|]. intros event. apply keeps_emit.
Qed.

Lemma keeps_initialize (this agent : nat) : keeps this (initialize agent).
Proof.
  apply keeps_bind; [apply keeps_readAgent|]. intros self.
  destruct (_initialized self); [apply keeps_ret|].
  apply keeps_bind.
  { apply keeps_forEach. intros client.
    destruct (listTools client); [by apply keeps_assign|apply keeps_throw]. }
  intros _.
  apply keeps_bind; [apply keeps_runHooks|]. intros [event [e|]]; simpl.
  - apply keeps_throw.
  - by apply keeps_assign.
Qed.

Lemma keeps_streamFromModel (this root activeAgent : nat) :
  keeps this (_streamFromModel root activeAgent).
Proof.
  apply keeps_bind; [apply keeps_readAgent|]. intros active.
  destruct (model active) as [|turn later]; [by apply keeps_same_world|].
  apply keeps_bind; [by apply keeps_assign|]. intros _.
  apply keeps_bind.
  - apply keeps_forEach. intros event.
    apply keeps_bind; [apply keeps_yieldHook|]. intros _. apply keeps_emit.
  - intros _. destruct (modelOutcome turn); [apply keeps_ret|apply keeps_throw].
Qed.

Lemma keeps_invokeModel (fuel : nat) (this root activeAgent : nat)
    (args : option InvokeArgs) :
  keeps this (invokeModel fuel root activeAgent args).
Proof.
  induction fuel as [|fuel IH]; simpl; [by apply keeps_same_world|].
  apply keeps_bind.
  { apply keeps_forEach. intros message. apply keeps_appendAndYield. }
  intros _. apply keeps_bind; [apply keeps_yieldHook|]. intros _.
  apply keeps_tryCatch.
  - apply keeps_bind; [apply keeps_streamFromModel|]. intros result.
    apply keeps_bind; [apply keeps_yieldHook|]. intros event.
    destruct (propIsTruthy "retry" event); [apply IH|apply keeps_ret].
  - intros e. apply keeps_bind; [apply keeps_yieldHook|]. intros event.
    destruct (propIsTruthy "retry" event); [apply IH|apply keeps_throw].
Qed.

Lemma keeps_queueTransfer (this root : nat) (target : string) :
  keeps this (queueTransfer root target).
Proof.
  apply keeps_bind; [apply keeps_readAgent|]. intros r.
  destruct (_ <=? _); [apply keeps_throw|by apply keeps_assign].
Qed.

Lemma keeps_toolStream (this root : nat) (tool : Tool) (toolUse : ToolUse) :
  keeps this (toolStream root tool toolUse).
Proof.
  unfold toolStream. destruct (toolBody tool) as [|allowed].
  - apply keeps_same_agents. intros w. unfold_monad.
    destruct (toolRuns w) as [|run later]; [done|]. simpl.
    assert (Hev : ∀ (l : list ToolStreamEvent) w0,
              agents (forEach l (λ event, emit (ToolStreamed event)) w0).2 = agents w0).
    { induction l as [|x l IH]; intros w0; simpl; [done|].
      unfold_monad. by rewrite IH. }
    match goal with
    | |- context [forEach ?l ?f ?w0] =>
        specialize (Hev l w0); destruct (forEach l f w0) as [[[]|e|e| |] w1]
    end; simpl in *; try done.
    by destruct (toolOutcome run).
  - unfold transferToolStream.
    destruct (agentNameOf (toolUseInput toolUse)) as [agentName|]; [|apply keeps_throw].
    apply keeps_bind.
    { destruct (bool_decide _); [apply keeps_ret|apply keeps_throw]. }
    intros _. apply keeps_bind; [apply keeps_queueTransfer|]. intros _. apply keeps_ret.
Qed.

Lemma keeps_toolAttempt (this root : nat) (tool : option Tool) (toolUse : ToolUse) :
  keeps this (toolAttempt root tool toolUse).
Proof.
  destruct tool as [t|]; simpl; [|apply keeps_ret].
  apply keeps_tryCatch.
  - apply keeps_bind; [apply keeps_toolStream|]. intros [r|]; apply keeps_ret.
  - intros e. apply keeps_ret.
Qed.

Lemma keeps_executeTool (fuel : nat) (this root : nat) (toolUse : ToolUse)
    (toolRegistry : list Tool) :
  keeps this (executeTool fuel root toolUse toolRegistry).
Proof.
  induction fuel as [|fuel IH]; simpl; [by apply keeps_same_world|].
  apply keeps_bind; [apply keeps_yieldHook|]. intros _.
  apply keeps_bind; [apply keeps_toolAttempt|]. intros attempt.
  apply keeps_bind; [apply keeps_yieldHook|]. intros event.
  destruct (propIsTruthy "retry" event); [apply IH|apply keeps_ret].
Qed.

Lemma keeps_executeEach (fuel : nat) (this root : nat) (toolUses : list ToolUse)
    (toolRegistry : list Tool) :
  keeps this (executeEach fuel root toolUses toolRegistry).
Proof.
  induction toolUses as [|toolUse rest IH]; simpl; [apply keeps_ret|].
  apply keeps_bind; [apply keeps_executeTool|]. intros r.
  apply keeps_bind; [apply keeps_emit|]. intros _.
  apply keeps_bind; [apply IH|]. intros others. apply keeps_ret.
Qed.

Lemma keeps_executeTools (fuel : nat) (this root : nat) (message : Message)
    (toolRegistry : list Tool) :
  keeps this (executeTools fuel root message toolRegistry).
Proof.
  apply keeps_bind; [apply keeps_yieldHook|]. intros _.
  apply keeps_bind.
  { destruct (bool_decide _); [apply keeps_throw|apply keeps_ret]. }
  intros _. apply keeps_bind; [apply keeps_executeEach|]. intros results.
  apply keeps_bind; [apply keeps_yieldHook|]. intros _. apply keeps_ret.
Qed.

Lemma hoare_bind {A B : Type} P (m : M A) (f : A → M B)
    (R : A → World → Prop) (Q : B → World → Prop) E :
  hoare P m R E → (∀ a, hoare (R a) (f a) Q E) → hoare P (m ≫= f) Q E.
Proof.
  intros Hm Hf w HP. rewrite bind_unfold. specialize (Hm w HP).
  destruct (m w) as [[a|e|e| |] w1]; try done. by apply Hf.
Qed.

Lemma hoare_conseq {A : Type} P P' (m : M A) (Q Q' : A → World → Prop) E E' :
  hoare P m Q E →
  (∀ w, P' w → P w) → (∀ a w, Q a w → Q' a w) → (∀ w, E w → E' w) →
  hoare P' m Q' E'.
Proof.
  intros Hm HP HQ HE w HP'. specialize (Hm w (HP w HP')).
  destruct (m w) as [[a|e|e| |] w1]; auto.
Qed.

Lemma hoare_pure {A : Type} (φ : Prop) P (m : M A) (Q : A → World → Prop) E :
  (φ → hoare P m Q E) → hoare (λ w, φ ∧ P w) m Q E.
Proof. intros H w [Hφ HP]. by apply H. Qed.

Lemma hoare_tryFinally {A : Type} P (body : M A) (finalizer : M unit) E :
  hoare P body (λ _, E) E → hoare E finalizer (λ _, E) E →
  hoare P (tryFinally body finalizer) (λ _, E) E.
Proof.
  intros Hb Hf w HP. unfold tryFinally. specialize (Hb w HP).
  destruct (body w) as [[a|e|e| |] w1]; try done.
  - rewrite bind_unfold. specialize (Hf w1 Hb).
    by destruct (finalizer w1) as [[[]|e|e| |] w2].
  - rewrite bind_unfold. specialize (Hf w1 Hb).
    by destruct (finalizer w1) as [[[]|e'|e'| |] w2].
Qed.

Lemma hoare_ret {A : Type} (a : A) (Q : A → World → Prop) E : hoare (Q a) (mret a) Q E.
Proof. by intros w HQ. Qed.

(** A computation that keeps the counter keeps whatever is said of it. *)
Lemma hoare_keeps {A : Type} (this : nat) (m : M A) (R : option nat → Prop) :
  keeps this m →
  hoare (λ w, R (transfersOf w this)) m
        (λ _ w, R (transfersOf w this)) (λ w, R (transfersOf w this)).
Proof.
  intros Hk w HR. specialize (Hk w).
  destruct (m w) as [[a|e|e| |] w1]; simpl in *; by rewrite Hk.
Qed.

Lemma hoare_readAgent (this : nat) (R : option nat → Prop) :
  hoare (λ w, R (transfersOf w this)) (readAgent this)
        (λ a w, R (transfersOf w this) ∧
                transfersOf w this = Some (_consecutiveTransfers a))
        (λ w, R (transfersOf w this)).
Proof.
  intros w HR. unfold readAgent, transfersOf in *. unfold_monad.
  destruct (agents w !! this) as [a|] eqn:Ha; rewrite ?Ha in *; simpl in *; [|done].
  done.
Qed.

Lemma hoare_set_transfers (this : nat) (n : nat) E :
  hoare E (assign this withConsecutiveTransfers n)
        (λ _ w, transfersOf w this = Some n) E.
Proof.
  intros w HE. unfold assign, readAgent, writeAgent, transfersOf. unfold_monad.
  destruct (agents w !! this) as [a|] eqn:Ha; simpl; [|done].
  by rewrite lookup_insert_eq.
Qed.

Lemma transfersBounded_Some (this : nat) w (n : nat) :
  transfersOf w this = Some n → n ≤ MAX_CONSECUTIVE_TRANSFERS → transfersBounded this w.
Proof. intros Hn Hle k Hk. congruence. Qed.

(** The loop of [_stream] never takes the counter of consecutive transfers
    past the ceiling. *)
Lemma streamLoop_bounded (fuel : nat) (this : nat) (currentArgs : option InvokeArgs)
    (activeAgent : nat) :
  hoare (transfersBounded this) (streamLoop fuel this currentArgs activeAgent)
        (λ _, transfersBounded this) (transfersBounded this).
Proof.
  set (bounded := λ o : option nat, ∀ n, o = Some n → n ≤ MAX_CONSECUTIVE_TRANSFERS).
  assert (Hkeep : ∀ (A : Type) (m : M A), keeps this m →
            hoare (transfersBounded this) m (λ _, transfersBounded this)
                  (transfersBounded this)).
  { intros A m Hk. apply (hoare_keeps this m bounded Hk). }
  revert currentArgs activeAgent.
  induction fuel as [|fuel IH]; intros currentArgs activeAgent.
  { by intros w Hw. }
  cbn [streamLoop].
  eapply hoare_bind; [apply Hkeep, keeps_initialize|]. intros ?; cbv beta.
  eapply hoare_bind; [apply Hkeep, keeps_getWorld|]. intros w0.
  eapply hoare_bind; [apply Hkeep, keeps_invokeModel|]. intros modelResult.
  eapply hoare_bind; [apply Hkeep, keeps_readAgent|]. intros active.
  destruct (negb (isToolUseStop modelResult.2)).
  { eapply hoare_bind; [apply Hkeep, keeps_appendAndYield|]. intros ?; cbv beta.
    eapply hoare_bind; [by apply Hkeep, keeps_assign|]. intros ?; cbv beta.
    apply Hkeep, keeps_ret. }
  eapply hoare_bind; [apply Hkeep, keeps_executeTools|]. intros toolResultMessage.
  eapply hoare_bind; [apply Hkeep, keeps_appendAndYield|]. intros ?; cbv beta.
  eapply hoare_bind; [apply Hkeep, keeps_appendAndYield|]. intros ?; cbv beta.
  eapply hoare_bind; [apply Hkeep, keeps_readAgent|]. intros root.
  eapply hoare_bind; [by apply Hkeep, keeps_assign|]. intros ?; cbv beta.
  assert (Hreset : hoare (transfersBounded this)
                     (assign this withConsecutiveTransfers 0 ;;
                      streamLoop fuel this None activeAgent)
                     (λ _, transfersBounded this) (transfersBounded this)).
  { eapply hoare_bind; [apply hoare_set_transfers|]. intros ?; cbv beta.
    eapply hoare_conseq; [apply IH| |done|done].
    intros w Hw. apply (transfersBounded_Some _ _ 0 Hw).
    unfold MAX_CONSECUTIVE_TRANSFERS. lia. }
  destruct (truthyString (_pendingTransferTarget root)) as [target|]; [|apply Hreset].
  eapply hoare_bind; [apply Hkeep, keeps_getWorld|]. intros w1.
  destruct (findAgent _ w1 this target) as [nextAgent|]; [|by apply Hkeep, keeps_throw].
  eapply hoare_bind; [apply (hoare_readAgent this bounded)|]. intros root1. cbv beta.
  destruct (Nat.leb_spec MAX_CONSECUTIVE_TRANSFERS (_consecutiveTransfers root1))
    as [Hmax|Hbelow].
  { eapply hoare_conseq; [apply Hreset| |done|done]. by intros w [Hw _]. }
  set (c := _consecutiveTransfers root1) in *.
  set (atC := λ o : option nat, o = Some c).
  assert (HatC : ∀ w, atC (transfersOf w this) → transfersBounded this w).
  { intros w Hw. apply (transfersBounded_Some _ _ c Hw). lia. }
  eapply hoare_conseq with
    (P := λ w, atC (transfersOf w this))
    (Q := λ _, transfersBounded this) (E := transfersBounded this);
    [|by intros w [_ Hw]|done|done].
  eapply hoare_bind.
  { eapply hoare_conseq; [apply (hoare_keeps this _ atC), keeps_readAgent| | |];
      [done|intros ? ? Hw; exact Hw|apply HatC]. }
  intros next.
  eapply hoare_bind.
  { eapply hoare_conseq; [apply (hoare_keeps this _ atC), keeps_yieldHook| | |];
      [done|intros ? ? Hw; exact Hw|apply HatC]. }
  intros ?; cbv beta.
  eapply hoare_bind.
  { eapply hoare_conseq; [apply (hoare_keeps this _ atC); by apply keeps_assign| | |];
      [done|intros ? ? Hw; exact Hw|apply HatC]. }
  intros ?; cbv beta.
  apply hoare_bind with
    (R := λ a w, _consecutiveTransfers a = c ∧ atC (transfersOf w this)).
  { eapply hoare_conseq; [apply (hoare_readAgent this atC)|done| |apply HatC].
    intros a' w [Hw Ha]. split; [|done]. unfold atC in Hw. congruence. }
  intros root2. apply hoare_pure. intros Hc.
  apply hoare_bind with (R := λ _, transfersBounded this).
  { eapply hoare_conseq;
      [apply (hoare_set_transfers this _ (transfersBounded this))|apply HatC| |done].
    intros ? w Hw. apply (transfersBounded_Some _ _ _ Hw). lia. }
  intros ?.
  eapply hoare_bind; [apply Hkeep, keeps_yieldHook|]. intros ?; cbv beta.
  apply IH.
Qed.

(** [_stream] and a whole invocation never take the counter past the
    ceiling either. *)
Lemma stream_bounded (fuel : nat) (this : nat) (args : InvokeArgs) (initialAgent : nat) :
  hoare (transfersBounded this) (_stream fuel this args initialAgent)
        (λ _, transfersBounded this) (transfersBounded this).
Proof.
  set (bounded := λ o : option nat, ∀ n, o = Some n → n ≤ MAX_CONSECUTIVE_TRANSFERS).
  assert (Hkeep : ∀ (A : Type) (m : M A), keeps this m →
            hoare (transfersBounded this) m (λ _, transfersBounded this)
                  (transfersBounded this)).
  { intros A m Hk. apply (hoare_keeps this m bounded Hk). }
  unfold _stream.
  eapply hoare_bind; [apply Hkeep, keeps_getWorld|]. intros w0; cbv beta.
  eapply hoare_bind; [apply Hkeep, keeps_yieldHook|]. intros ?; cbv beta.
  apply hoare_tryFinally.
  - apply streamLoop_bounded.
  - eapply hoare_bind; [apply Hkeep, keeps_yieldHook|]. intros ?; cbv beta.
    apply Hkeep, keeps_ret.
Qed.

Lemma invocation_keeps_transfers_bounded (fuel : nat) (this : nat) (args : InvokeArgs)
    (initialAgent : nat) w :
  transfersBounded this w →
  transfersBounded this (streamFromEntryBody fuel this args initialAgent w).2.
Proof.
  set (bounded := λ o : option nat, ∀ n, o = Some n → n ≤ MAX_CONSECUTIVE_TRANSFERS).
  assert (Hkeep : ∀ (A : Type) (m : M A), keeps this m →
            hoare (transfersBounded this) m (λ _, transfersBounded this)
                  (transfersBounded this)).
  { intros A m Hk. apply (hoare_keeps this m bounded Hk). }
  intros Hw. unfold streamFromEntryBody.
  assert (Hbody : hoare (transfersBounded this)
            (initialize this ;;
             result ← _stream fuel this args initialAgent;
             emit (AgentResultStreamed result) ;; mret result)
            (λ _, transfersBounded this) (transfersBounded this)).
  { eapply hoare_bind; [apply Hkeep, keeps_initialize|]. intros ?; cbv beta.
    eapply hoare_bind; [apply stream_bounded|]. intros result; cbv beta.
    eapply hoare_bind; [apply Hkeep, keeps_emit|]. intros ?; cbv beta.
    apply Hkeep, keeps_ret. }
  specialize (Hbody w Hw).
  match goal with
  | |- context [match ?m w with _ => _ end] => destruct (m w) as [[a|e|e| |] w1]
  end; done.
Qed.

End TransferFacts.

(** ** More on the sliding-window reducer *)

Section SlidingWindowReducer.
Import SlidingWindow.

Lemma findLastFrom_later (messages : list Message) (n i : nat) :
  findLastFrom messages n = Some i →
  ∀ j m, i < j → j < n → messages !! j = Some m → hasToolResult m = false.
Proof.
  induction n as [|n IH]; simpl; [done|].
  destruct (messages !! n) as [m'|] eqn:E; [|done].
  destruct (hasToolResult m') eqn:Hm'.
  - intros [= <-] j m Hij Hjn. lia.
  - intros Hi j m Hij Hjn Hm.
    destruct (decide (j = n)) as [->|Hne]; [congruence|].
    apply (IH Hi j m); [done|lia|done].
Qed.

(** X1.  [findLastMessageWithToolResults] returns the index of the last
    message that holds a tool-result block: that message holds one and no
    later message does; it returns nothing exactly when no message of the
    history holds a tool-result block. *)
Theorem findLastMessageWithToolResults_is_last (messages : list Message) :
  match findLastMessageWithToolResults messages with
  | Some idx =>
      (∃ m, messages !! idx = Some m ∧ hasToolResult m = true) ∧
      (∀ j m, idx < j → messages !! j = Some m → hasToolResult m = false)
  | None => ∀ j m, messages !! j = Some m → hasToolResult m = false
  end.
Proof.
  unfold findLastMessageWithToolResults.
  destruct (findLastFrom messages (length messages)) as [idx|] eqn:E.
  - split; [by apply findLastFrom_Some in E as [_ ?]|].
    intros j m Hj Hm. apply (findLastFrom_later _ _ _ E j m Hj); [|done].
    by eapply lookup_lt_Some.
  - intros j m Hm. apply (findLastFrom_None _ _ ltac:(done) E j m); [|done].
    by eapply lookup_lt_Some.
Qed.

Lemma truncateBlock_truncatedFrom (blocks : list ContentBlock) :
  Forall2 truncatedFrom blocks (map truncateBlock blocks).
Proof. induction blocks as [|b l IH]; constructor; [by destruct b|done]. Qed.

(** X2.  [truncateToolResults] returns [true] exactly when the index is
    that of a message whose first tool-result block is not already the
    placeholder; when it returns [false] the array is as it was; when it
    returns [true] only the message at the index is replaced: the new
    message has the role of the old one and no author, every tool-result
    block of it (not only the first) has become an error result with the
    placeholder text and its own [toolUseId], and every other block is as
    it was. *)
Theorem truncateToolResults_effect (messages : list Message) (msgIdx : Z) :
  let (messages', changed) := truncateToolResults messages msgIdx in
  (changed = true ↔
     ∃ m, (0 ≤ msgIdx)%Z ∧ messages !! Z.to_nat msgIdx = Some m ∧
          hasToolResult m = true ∧ ¬ carriesPlaceholder m) ∧
  (changed = false → messages' = messages) ∧
  (changed = true →
     length messages' = length messages ∧
     (∀ j, j ≠ Z.to_nat msgIdx → messages' !! j = messages !! j) ∧
     ∃ m m', messages !! Z.to_nat msgIdx = Some m ∧
             messages' !! Z.to_nat msgIdx = Some m' ∧
             role m' = role m ∧ author m' = None ∧
             Forall2 truncatedFrom (content m) (content m')).
Proof.
  unfold truncateToolResults.
  destruct ((msgIdx >=? Z.of_nat (length messages))%Z || (msgIdx <? 0)%Z) eqn:Hguard.
  { split; [|by split]. split; [done|]. intros (m & Hpos & Hm & _).
    apply lookup_lt_Some in Hm. apply orb_true_iff in Hguard as [H|H]; lia. }
  apply orb_false_iff in Hguard as [Hlt Hpos].
  destruct (messages !! Z.to_nat msgIdx) as [m|] eqn:Hm.
  2:{ split; [|by split]. split; [done|]. by intros (m & _ & ? & _). }
  destruct (scanContent (content m)) eqn:Hscan.
  - split; [|by split]. split; [done|]. intros (m0 & _ & [= <-] & _ & Hnot).
    by apply scanContent_placeholder in Hscan.
  - split; [|split; [done|]].
    + split; [|done]. intros _. exists m. split; [lia|]. split; [done|]. split.
      * apply scanContent_hasToolResult. by rewrite Hscan.
      * intros Hp%scanContent_placeholder. congruence.
    + intros _. split; [by rewrite length_insert|]. split.
      * intros j Hj. by rewrite list_lookup_insert_ne.
      * exists m, (mkMessage (role m) (map truncateBlock (content m)) None).
        split; [done|]. split.
        { apply list_lookup_insert_eq. by eapply lookup_lt_Some. }
        split; [done|]. split; [done|]. apply truncateBlock_truncatedFrom.
  - split; [|by split]. split; [done|]. intros (m0 & _ & [= <-] & Hres & _).
    apply scanContent_hasToolResult in Hres. done.
Qed.

(** Kinds decide where the last tool result is. *)
Lemma findLastFrom_kinds (l k : list Message) (n : nat) :
  Forall2 sameKinds l k → findLastFrom l n = findLastFrom k n.
Proof.
  intros H. induction n as [|n IH]; simpl; [done|].
  destruct (l !! n) as [a|] eqn:Ha.
  - destruct (Forall2_lookup_l _ _ _ _ _ H Ha) as (b & -> & [Hr _]).
    by rewrite Hr, IH.
  - apply lookup_ge_None in Ha. rewrite (Forall2_length _ _ _ H) in Ha.
    by rewrite (lookup_ge_None_2 k n).
Qed.

Lemma truncateToolResults_twice (messages : list Message) (msgIdx : Z) :
  (truncateToolResults (truncateToolResults messages msgIdx).1 msgIdx).2 = false.
Proof.
  unfold truncateToolResults at 2.
  destruct ((msgIdx >=? Z.of_nat (length messages))%Z || (msgIdx <? 0)%Z) eqn:Hguard.
  { simpl. unfold truncateToolResults. by rewrite Hguard. }
  destruct (messages !! Z.to_nat msgIdx) as [m|] eqn:Hm.
  2:{ simpl. unfold truncateToolResults. by rewrite Hguard, Hm. }
  destruct (scanContent (content m)) eqn:Hscan; simpl.
  1,3: unfold truncateToolResults; by rewrite Hguard, Hm, Hscan.
  unfold truncateToolResults. rewrite length_insert, Hguard.
  rewrite list_lookup_insert_eq by (by eapply lookup_lt_Some).
  simpl. pose proof (scanContent_truncated (content m)) as Hne.
  by destruct (scanContent (map truncateBlock (content m))).
Qed.

Lemma tryTruncate_after_truncation (mgr : Manager) (messages : list Message) :
  (tryTruncate mgr messages).2 = true →
  (tryTruncate mgr (tryTruncate mgr messages).1).2 = false.
Proof.
  unfold tryTruncate at 1 3.
  destruct (findLastMessageWithToolResults messages) as [idx|] eqn:Hlast; [|done].
  destruct (_shouldTruncateResults mgr) eqn:Hshould; [|done].
  intros Htrue. unfold tryTruncate.
  unfold findLastMessageWithToolResults in *.
  pose proof (truncateToolResults_kinds messages (Z.of_nat idx)) as Hk.
  rewrite <- (findLastFrom_kinds _ _ _ Hk), <- (Forall2_length _ _ _ Hk), Hlast, Hshould.
  by rewrite truncateToolResults_twice.
Qed.

Lemma lookup_drop_findLastFrom (messages : list Message) (k n : nat) :
  findLastFrom (drop k messages) n
  = match findLastFrom messages (k + n) with
    | Some i => if decide (k ≤ i) then Some (i - k) else None
    | None => None
    end.
Proof.
  induction n as [|n IH]; simpl.
  - rewrite Nat.add_0_r.
    destruct (findLastFrom messages k) as [i|] eqn:E; [|done].
    apply findLastFrom_Some in E as [Hi _]. destruct (decide _); [lia|done].
  - rewrite lookup_drop, <- Nat.add_succ_comm. simpl.
    destruct (messages !! (k + n)) as [m|] eqn:Hm.
    + destruct (hasToolResult m).
      * destruct (decide _); [|lia]. f_equal. lia.
      * apply IH.
    + done.
Qed.

Lemma tryTruncate_after_trim (mgr : Manager) (messages : list Message) (k : nat) :
  (tryTruncate mgr messages).2 = false →
  (tryTruncate mgr (drop k messages)).2 = false.
Proof.
  unfold tryTruncate, findLastMessageWithToolResults.
  rewrite lookup_drop_findLastFrom, length_drop.
  destruct (decide (k ≤ length messages)) as [Hk|Hk].
  2:{ replace (k + (length messages - k)) with k by lia.
      destruct (findLastFrom messages k) as [i|] eqn:E; [|done].
      intros _. destruct (decide _); [|done].
      destruct (_shouldTruncateResults mgr); [|done].
      unfold truncateToolResults. rewrite length_drop.
      replace (length messages - k) with 0 by lia.
      destruct (Z.geb_spec (Z.of_nat (i - k)) (Z.of_nat 0)); [done|lia]. }
  replace (k + (length messages - k)) with (length messages) by lia.
  destruct (findLastFrom messages (length messages)) as [i|] eqn:E; [|done].
  destruct (decide _) as [Hki|]; [|done].
  destruct (_shouldTruncateResults mgr); [|done].
  apply findLastFrom_Some in E as [Hi _].
  unfold truncateToolResults. rewrite length_drop, !Nat2Z.id, lookup_drop.
  replace (k + (i - k)) with i by lia.
  assert (∀ a b : nat, ((Z.of_nat a >=? Z.of_nat b)%Z || (Z.of_nat a <? 0)%Z)
                       = bool_decide (b ≤ a)) as Hguard.
  { intros a b. destruct (Z.geb_spec (Z.of_nat a) (Z.of_nat b)),
      (Z.ltb_spec (Z.of_nat a) 0); case_bool_decide; simpl; try done; lia. }
  rewrite !Hguard.
  rewrite (bool_decide_eq_false_2 (length messages ≤ i)) by lia.
  rewrite (bool_decide_eq_false_2 (length messages - k ≤ i - k)) by lia.
  destruct (messages !! i); [|done]. by destruct (scanContent _).
Qed.

(** X3.  For a window size that is an integer, a successful
    [reduceContext] makes progress and leaves something: the resulting
    history is not empty, and either it is strictly shorter or a tool
    result was truncated with the length unchanged; after any successful
    reduction the next one finds nothing to truncate, so it shortens the
    history or throws.  A reduction that throws throws the
    context-window-overflow error "Unable to trim conversation context!". *)
Theorem reduceContext_makes_progress (mgr : Manager) (messages : list Message)
    (windowSize : Z) :
  _windowSize mgr = Number.Integer windowSize →
  match reduceContext mgr messages with
  | Ok messages' =>
      messages' ≠ [] ∧
      (tryTruncate mgr messages').2 = false ∧
      (length messages' < length messages ∨
       ((tryTruncate mgr messages).2 = true ∧ length messages' = length messages))
  | Throw e => e = unableToTrim
  end.
Proof.
  intros Hw. unfold reduceContext.
  destruct (tryTruncate mgr messages) as [ms' changed] eqn:Htry.
  destruct changed.
  - assert ((tryTruncate mgr messages).2 = true) as Htrue by (by rewrite Htry).
    pose proof (tryTruncate_after_truncation mgr messages Htrue) as Hnext.
    pose proof (tryTruncate_kinds mgr messages) as Hk.
    rewrite Htry in Hnext, Hk. simpl in *.
    apply Forall2_length in Hk.
    split; [|split; [done|right; by split]].
    intros ->. unfold tryTruncate in Htry.
    destruct messages; [|done]. simpl in Htry. congruence.
  - assert ((tryTruncate mgr messages).2 = false) as Hfalse by (by rewrite Htry).
    pose proof (tryTruncate_false mgr messages Hfalse) as Hsame.
    rewrite Htry in Hsame. simpl in Hsame. subst ms'.
    rewrite (trimMessages_integer _ _ _ Hw). cbv zeta.
    destruct (decide _) as [|Hlt]; [done|].
    pose proof (scanIndexes_ge (length messages) messages
                  (integerTrimIndex windowSize messages)).
    assert (0 < integerTrimIndex windowSize messages).
    { unfold integerTrimIndex.
      destruct (Z.leb_spec (Z.of_nat (length messages)) windowSize); lia. }
    split; [|split].
    + intros Hnil%(f_equal length). rewrite length_drop in Hnil. simpl in Hnil. lia.
    + by apply tryTruncate_after_trim.
    + left. rewrite length_drop. lia.
Qed.

(** X4.  For a window size that is an integer: after a successful
    [applyManagement] the history has at most [windowSize] messages, unless
    a tool result was truncated instead, in which case the history keeps
    its length (and is still over the window); [applyManagement] throws
    only for a history over the window, and then the error of
    [reduceContext]. *)
Theorem applyManagement_window (mgr : Manager) (messages : list Message)
    (windowSize : Z) :
  _windowSize mgr = Number.Integer windowSize →
  match applyManagement mgr messages with
  | Ok messages' =>
      (Z.of_nat (length messages') ≤ windowSize)%Z ∨
      ((tryTruncate mgr messages).2 = true ∧ length messages' = length messages ∧
       (windowSize < Z.of_nat (length messages'))%Z)
  | Throw e => (windowSize < Z.of_nat (length messages))%Z ∧ e = unableToTrim
  end.
Proof.
  intros Hw. rewrite (applyManagement_integer _ _ _ Hw).
  destruct (Z.leb_spec (Z.of_nat (length messages)) windowSize) as [Hle|Hgt];
    [by left|].
  pose proof (tryTruncate_kinds mgr messages) as Hk.
  unfold reduceContext in *.
  destruct (tryTruncate mgr messages) as [ms' changed] eqn:Htry.
  destruct changed.
  - apply Forall2_length in Hk. simpl in Hk. right. split; [done|]. split; [done|]. lia.
  - assert ((tryTruncate mgr messages).2 = false) as Hfalse by (by rewrite Htry).
    pose proof (tryTruncate_false mgr messages Hfalse) as Hsame.
    rewrite Htry in Hsame. simpl in Hsame. subst ms'.
    rewrite (trimMessages_integer _ _ _ Hw). cbv zeta.
    destruct (decide _) as [|Hlt]; [done|].
    left. rewrite length_drop.
    pose proof (scanIndexes_ge (length messages) messages
                  (integerTrimIndex windowSize messages)).
    assert (integerTrimIndex windowSize messages
            = Z.to_nat (Z.of_nat (length messages) - windowSize)).
    { unfold integerTrimIndex.
      destruct (Z.leb_spec (Z.of_nat (length messages)) windowSize); lia. }
    lia.
Qed.

Lemma reduceContext_makes_progress_witness :
  match reduceContext (new (Some (Number.Integer 2)) None)
          [textMessage user "M1"; textMessage assistant "M2"; textMessage user "M3"] with
  | Ok messages' =>
      messages' ≠ [] ∧
      (tryTruncate (new (Some (Number.Integer 2)) None) messages').2 = false ∧
      (length messages' < 3 ∨
       ((tryTruncate (new (Some (Number.Integer 2)) None)
           [textMessage user "M1"; textMessage assistant "M2";
            textMessage user "M3"]).2 = true ∧
        length messages' = 3))
  | Throw e => e = unableToTrim
  end.
Proof.
  apply (reduceContext_makes_progress (new (Some (Number.Integer 2)) None)
           [textMessage user "M1"; textMessage assistant "M2"; textMessage user "M3"] 2).
  reflexivity.
Defined.

Lemma applyManagement_window_witness :
  match applyManagement (new (Some (Number.Integer 2)) None)
          [textMessage user "M1"; textMessage assistant "M2"; textMessage user "M3"] with
  | Ok messages' =>
      (Z.of_nat (length messages') ≤ 2)%Z ∨
      ((tryTruncate (new (Some (Number.Integer 2)) None)
          [textMessage user "M1"; textMessage assistant "M2";
           textMessage user "M3"]).2 = true ∧
       length messages' = 3 ∧ (2 < Z.of_nat (length messages'))%Z)
  | Throw e => (2 < 3)%Z ∧ e = unableToTrim
  end.
Proof.
  apply (applyManagement_window (new (Some (Number.Integer 2)) None)
           [textMessage user "M1"; textMessage assistant "M2"; textMessage user "M3"] 2).
  reflexivity.
Defined.

(** What the manager does with a window size that is not an integer.  With
    [windowSize = 0.5] a history of one message is over the window, the
    candidate [0.5] is not an index, and the reduction returns with every
    message in place; with [windowSize = 1.5] three messages become two,
    which is still over the window; with [NaN] no history is within the
    window and nothing is ever removed. *)
Example reduce_fractional_window_no_progress :
  reduceContext (new (Some oneHalf) (Some false)) [textMessage user "M1"]
  = Ok [textMessage user "M1"].
Proof. reflexivity. Qed.

Example apply_fractional_window_stays_over :
  applyManagement (new (Some threeHalves) (Some false))
    [textMessage user "M1"; textMessage assistant "M2"; textMessage user "M3"]
  = Ok [textMessage assistant "M2"; textMessage user "M3"].
Proof. reflexivity. Qed.

Example apply_nan_window_removes_nothing :
  applyManagement (new (Some Number.NaN) (Some false))
    [textMessage user "M1"; textMessage assistant "M2"; textMessage user "M3"]
  = Ok [textMessage user "M1"; textMessage assistant "M2"; textMessage user "M3"].
Proof. reflexivity. Qed.

Example apply_infinite_window_keeps_all :
  applyManagement (new (Some Number.Infinity) None)
    [textMessage user "M1"; textMessage assistant "M2"; textMessage user "M3"]
  = Ok [textMessage user "M1"; textMessage assistant "M2"; textMessage user "M3"].
Proof. reflexivity. Qed.

(** On integers the two ways of computing agree: the difference and the
    comparisons of [Number] on integers are those of binary64. *)
Example integers_compute_as_doubles :
  forallb
    (λ a, forallb
            (λ b,
               SFeqb (Number.toDouble (Number.sub (Number.Integer a) (Number.Integer b)))
                     (SFsub Number.prec Number.emax (Number.toDouble (Number.Integer a))
                        (Number.toDouble (Number.Integer b)))
               && Bool.eqb (Number.leb (Number.Integer a) (Number.Integer b))
                    (SFleb (Number.toDouble (Number.Integer a))
                       (Number.toDouble (Number.Integer b)))
               && Bool.eqb (Number.ltb (Number.Integer a) (Number.Integer b))
                    (SFltb (Number.toDouble (Number.Integer a))
                       (Number.toDouble (Number.Integer b))))
            [-3; 0; 1; 2; 3; 40; 41; 1000; 4294967295; 9007199254740991]%Z)
    [-3; 0; 1; 2; 3; 40; 41; 1000; 4294967295; 9007199254740991]%Z
  = true.
Proof. vm_compute. reflexivity. Qed.


End SlidingWindowReducer.

(** ** More on the sub-agent tree *)

Section TreeLookups.
Context {HS : Type}.
Implicit Types w : World (HS:=HS).

Lemma validateNames_spec (parentName : string) (names : list (option string))
    (seen : gset string) w :
  match validateNames parentName names seen w with
  | (Returned _, w') =>
      w' = w ∧ NoDup (omap id names) ∧ ∀ n, n ∈ omap id names → n ∉ seen
  | (Thrown e, w') =>
      w' = w ∧
      ∃ childName before after,
        e = mkError PlainError (duplicateNameMessage childName parentName) ∧
        omap id names = (before ++ childName :: after)%list ∧
        NoDup before ∧ (∀ n, n ∈ before → n ∉ seen) ∧
        (childName ∈ seen ∨ childName ∈ before)
  | _ => False
  end.
Proof.
  revert seen. induction names as [|[n|] rest IH]; intros seen; simpl.
  - split; [done|]. split; [constructor|]. by intros n ?%elem_of_nil.
  - case_bool_decide as Hin.
    + split; [done|]. exists n, [], (omap id rest). split; [done|]. split; [done|].
      split; [constructor|]. split; [by intros m ?%elem_of_nil|by left].
    + specialize (IH ({[n]} ∪ seen)).
      destruct (validateNames parentName rest ({[n]} ∪ seen) w) as [[[]|e|e| |] w'];
        try done.
      * destruct IH as (-> & Hnd & Hseen). split; [done|]. split.
        -- constructor; [|done]. intros Hn%Hseen.
           apply Hn, elem_of_union_l, elem_of_singleton. done.
        -- intros m [->|Hm]%elem_of_cons; [done|]. apply Hseen in Hm.
           intros ?. by apply Hm, elem_of_union_r.
      * destruct IH as (-> & c & before & after & -> & Hsplit & Hnd & Hseen & Hor).
        split; [done|]. exists c, (n :: before), after.
        split; [done|]. split; [cbn; f_equal; exact Hsplit|]. split; [|split].
        -- constructor; [|done]. intros Hn%Hseen.
           apply Hn, elem_of_union_l, elem_of_singleton. done.
        -- intros m [->|Hm]%elem_of_cons; [done|]. apply Hseen in Hm.
           intros ?. by apply Hm, elem_of_union_r.
        -- destruct Hor as [[->%elem_of_singleton|Hs]%elem_of_union|Hb].
           ++ right. left.
           ++ by left.
           ++ right. by right.
  - apply IH.
Qed.

Lemma readAgents_spec (refs : list nat) w :
  (readAgents refs w).2 = w ∧
  match (readAgents refs w).1 with
  | Returned l => mapM (λ ref, agents w !! ref) refs = Some l
  | Stuck => mapM (λ ref, agents w !! ref) refs = None
  | _ => False
  end.
Proof.
  induction refs as [|ref rest [IHw IH]]; simpl; [done|].
  unfold mbind at 1, M_bind, readAgent. unfold_monad.
  destruct (agents w !! ref) as [a|] eqn:Ha; simpl; [|done].
  destruct (readAgents rest w) as [[l|e|e| |] w'] eqn:E; simpl in *; subst; try done.
  - by rewrite IH.
  - by rewrite IH.
Qed.

(** X5.  [_validateSiblingNames] returns when the names of the children
    that have one are pairwise distinct and otherwise throws "Duplicate
    sub-agent name ..." for the first name that an earlier child carries
    already; children without a name are passed over, and nothing is
    changed either way. *)
Theorem validateSiblingNames_spec w (this : nat) (self : Agent) (children : list nat)
    (childAgents : list Agent) :
  agents w !! this = Some self →
  agentArrays w !! subAgents self = Some children →
  mapM (λ child, agents w !! child) children = Some childAgents →
  match _validateSiblingNames this w with
  | (Returned _, w') => w' = w ∧ NoDup (omap name childAgents)
  | (Thrown e, w') =>
      w' = w ∧ ¬ NoDup (omap name childAgents) ∧
      ∃ childName before after,
        omap name childAgents = (before ++ childName :: after)%list ∧
        NoDup before ∧ childName ∈ before ∧
        e = mkError PlainError
              (duplicateNameMessage childName (default "<unnamed>" (name self)))
  | _ => False
  end.
Proof.
  intros Hself Hchildren Hagents.
  unfold _validateSiblingNames, readAgent, readAgentArray. unfold_monad.
  rewrite Hself. simpl. rewrite Hchildren. simpl.
  destruct (readAgents_spec children w) as [Hw Hr].
  destruct (readAgents children w) as [[l|e|e| |] w'] eqn:E; simpl in *; subst;
    try done; [|congruence].
  assert (l = childAgents) as -> by congruence.
  pose proof (validateNames_spec (nameOrUnnamed self) (map name childAgents) ∅ w) as Hv.
  assert (omap id (map name childAgents) = omap name childAgents) as Hom.
  { clear. induction childAgents as [|a l IH]; [done|].
    cbn. destruct (name a); cbn; by f_equal. }
  rewrite Hom in Hv.
  destruct (validateNames _ _ _ w) as [[[]|e|e| |] w']; try done.
  - by destruct Hv as (-> & ? & _).
  - destruct Hv as (-> & c & before & after & -> & Hsplit & Hnd & _ & [Hin|Hin]);
      [by apply elem_of_empty in Hin|].
    split; [done|]. split; [|by exists c, before, after].
    rewrite Hsplit. intros (_ & Hno & _)%NoDup_app.
    apply (Hno c Hin). left.
Qed.

Lemma findAgent_fold_sound (f : nat → option nat) (children : list nat) (found : nat) :
  foldr (λ child later, match f child with Some x => Some x | None => later end)
        None children = Some found →
  ∃ child, child ∈ children ∧ f child = Some found.
Proof.
  induction children as [|c l IH]; simpl; [done|].
  destruct (f c) as [x|] eqn:E.
  - intros [= <-]. exists c. split; [left|done].
  - intros (child & ? & ?)%IH. exists child. split; [by right|done].
Qed.

Lemma findAgent_fold_complete (f : nat → option nat) (children : list nat) (child : nat) :
  child ∈ children → is_Some (f child) →
  is_Some (foldr (λ child later, match f child with Some x => Some x | None => later end)
                 None children).
Proof.
  induction children as [|c l IH]; simpl; [by intros ?%elem_of_nil|].
  intros [->|Hin]%elem_of_cons Hsome.
  - destruct Hsome as [x ->]. eauto.
  - destruct (f c); [eauto|]. by apply IH.
Qed.

Lemma findAgent_named (fuel : nat) w (this : nat) (target : string) (found : nat) :
  findAgent fuel w this target = Some found →
  ∃ a, agents w !! found = Some a ∧ name a = Some target.
Proof.
  revert this. induction fuel as [|fuel IH]; intros this; simpl; [done|].
  destruct (agents w !! this) as [self|] eqn:Hself; [|done].
  case_bool_decide as Hname.
  - intros [= <-]. eauto.
  - intros (child & _ & Hf)%findAgent_fold_sound. by eapply IH.
Qed.

(** X6.  [findAgent] finds an agent by name in the agent and its
    descendants: what it returns is the agent itself or a descendant and
    carries the name asked for, and it returns an agent whenever the agent
    or a descendant (within the depth walked) carries that name. *)
Theorem findAgent_spec (fuel : nat) w (this : nat) (target : string) :
  (∀ found, findAgent fuel w this target = Some found →
     ∃ depth a, depth < fuel ∧ inSubtree w depth this found ∧
                agents w !! found = Some a ∧ name a = Some target) ∧
  (∀ depth r a, depth < fuel → inSubtree w depth this r →
     agents w !! r = Some a → name a = Some target →
     is_Some (findAgent fuel w this target)).
Proof.
  split.
  - revert this. induction fuel as [|fuel IH]; intros this found; simpl; [done|].
    destruct (agents w !! this) as [self|] eqn:Hself; [|done].
    case_bool_decide as Hname.
    + intros [= <-]. exists 0, self. split; [lia|]. split; [by econstructor|done].
    + intros (child & Hchild & Hf)%findAgent_fold_sound.
      destruct (agentArrays w !! subAgents self) as [children|] eqn:Hc;
        simpl in *; [|by apply elem_of_nil in Hchild].
      destruct (IH _ _ Hf) as (depth & a & Hd & Hsub & Ha & Hn).
      exists (S depth), a. split; [lia|]. split; [by econstructor|done].
  - revert this. induction fuel as [|fuel IH]; intros this depth r a Hd Hsub Ha Hn;
      [lia|]. simpl.
    destruct Hsub as [this self Hself|depth this self children child r Hself Hc Hin Hsub].
    + rewrite Ha. rewrite bool_decide_eq_true_2 by done. eauto.
    + rewrite Hself. case_bool_decide; [eauto|].
      rewrite Hc. simpl. eapply findAgent_fold_complete; [done|].
      eapply IH; [|done..]. lia.
Qed.

(** X7.  [_resolveInitialActiveAgent] gives the agent the call was made on,
    except for a call on the root that remembers an active agent by a
    non-empty name: then it may give another agent, and that agent carries
    the remembered name. *)
Theorem resolveInitialActiveAgent_spec w (this initialAgent : nat) :
  let active := _resolveInitialActiveAgent w this initialAgent in
  active = initialAgent ∨
  (initialAgent = this ∧
   ∃ root a remembered,
     agents w !! this = Some root ∧ _activeAgentName root = Some remembered ∧
     remembered ≠ "" ∧ agents w !! active = Some a ∧ name a = Some remembered).
Proof.
  unfold _resolveInitialActiveAgent.
  case_bool_decide as Hentry; [by left|].
  assert (initialAgent = this) as -> by (destruct (decide (initialAgent = this)); tauto).
  destruct (truthyString (agents w !! this ≫= _activeAgentName)) as [remembered|]
    eqn:Hremembered; [|by left].
  destruct (findAgent (S (size (agents w))) w this remembered) as [found|] eqn:Hfound;
    [|by left].
  right. split; [done|].
  destruct (findAgent_named _ _ _ _ _ Hfound) as (a & Ha & Hn).
  destruct (agents w !! this) as [root|] eqn:Hroot; [|done].
  cbn in Hremembered. destruct (_activeAgentName root) as [text|] eqn:Htext; [|done].
  cbn in Hremembered. destruct (String.eqb text "") eqn:Hempty; [done|].
  injection Hremembered as ->. apply String.eqb_neq in Hempty.
  exists root, a, remembered. done.
Qed.

Lemma dedupeTargets_spec w (targets : list nat) (seenNames : gset string) :
  let kept := dedupeTargets w targets seenNames in
  let names := omap (λ target, (agents w !! target) ≫= name) kept in
  length names = length kept ∧ NoDup names ∧ ("" ∉ names) ∧
  (∀ n, n ∈ names → n ∉ seenNames) ∧ kept ⊆ targets.
Proof.
  revert seenNames. induction targets as [|t rest IH]; intros seen; cbn.
  - split; [done|]. split; [constructor|]. split; [by intros ?%elem_of_nil|].
    split; [by intros n ?%elem_of_nil|done].
  - destruct ((agents w !! t) ≫= name) as [n|] eqn:Hn.
    + destruct (String.eqb n "") eqn:Hempty; cbn.
      * destruct (IH seen) as (? & ? & ? & ? & ?).
        split; [done|]. split; [done|]. split; [done|]. split; [done|].
        by apply list_subseteq_cons.
      * apply String.eqb_neq in Hempty. case_bool_decide as Hseen.
        -- destruct (IH seen) as (? & ? & ? & ? & ?).
           split; [done|]. split; [done|]. split; [done|]. split; [done|].
           by apply list_subseteq_cons.
        -- destruct (IH ({[n]} ∪ seen)) as (Hlen & Hnd & He & Hs & Hsub).
           cbn. rewrite Hn. cbn. split; [by f_equal|]. split.
           { constructor; [|done]. intros Hin%Hs.
             apply Hin, elem_of_union_l, elem_of_singleton. done. }
           split; [by intros [?|?]%elem_of_cons|].
           split.
           { intros m [->|Hm]%elem_of_cons; [done|]. apply Hs in Hm.
             intros ?. by apply Hm, elem_of_union_r. }
           intros x [->|Hx]%elem_of_cons; [left|right; by apply Hsub].
    + destruct (IH seen) as (? & ? & ? & ? & ?).
      split; [done|]. split; [done|]. split; [done|]. split; [done|].
      by apply list_subseteq_cons.
Qed.

(** X8.  The transfer targets of an agent all carry a name, none of the
    names is empty and no two targets carry the same name; each target is
    a sub-agent of the agent, its parent (unless transfer to the parent is
    disallowed) or another sub-agent of its parent (unless transfer to
    peers is disallowed). *)
Theorem transferTargets_named_apart w (agent : nat) :
  let targets := _getTransferTargets w agent in
  let names := omap (λ target, (agents w !! target) ≫= name) targets in
  length names = length targets ∧ NoDup names ∧ ("" ∉ names) ∧
  ∀ target, target ∈ targets →
    ∃ a, agents w !! agent = Some a ∧
      (target ∈ default [] (agentArrays w !! subAgents a) ∨
       (parentAgent a = Some target ∧ disallowTransferToParent a = false) ∨
       (∃ parent p, parentAgent a = Some parent ∧ agents w !! parent = Some p ∧
                    target ∈ default [] (agentArrays w !! subAgents p) ∧
                    target ≠ agent ∧ disallowTransferToPeers a = false)).
Proof.
  unfold _getTransferTargets.
  destruct (agents w !! agent) as [a|] eqn:Ha; simpl.
  2:{ split; [done|]. split; [constructor|]. split; [by intros ?%elem_of_nil|].
      by intros t ?%elem_of_nil. }
  match goal with |- context [dedupeTargets w ?l ∅] =>
    destruct (dedupeTargets_spec w l ∅) as (Hlen & Hnd & He & _ & Hsub) end.
  split; [done|]. split; [done|]. split; [done|].
  intros target Ht%Hsub. exists a. split; [done|].
  apply elem_of_app in Ht as [Ht|Ht]; [by left|]. right.
  destruct (parentAgent a) as [parent|]; [|by apply elem_of_nil in Ht].
  apply elem_of_app in Ht as [Ht|Ht].
  - left. destruct (disallowTransferToParent a); [by apply elem_of_nil in Ht|].
    apply list_elem_of_singleton in Ht as ->. done.
  - right. destruct (disallowTransferToPeers a); [by apply elem_of_nil in Ht|].
    apply list_elem_of_filter in Ht as [Hne Ht].
    destruct (agents w !! parent) as [p|] eqn:Hp; simpl in Ht;
      [|by apply elem_of_nil in Ht].
    exists parent, p. done.
Qed.

End TreeLookups.

Lemma validateSiblingNames_spec_witness :
  match _validateSiblingNames 0 familyWorld with
  | (Returned _, w') =>
      w' = familyWorld ∧
      NoDup (omap name [bareAgent "math" 10 21 (Some 0) [];
                        bareAgent "physics" 10 22 (Some 0) []])
  | (Thrown e, w') =>
      w' = familyWorld ∧
      ¬ NoDup (omap name [bareAgent "math" 10 21 (Some 0) [];
                          bareAgent "physics" 10 22 (Some 0) []]) ∧
      ∃ childName before after,
        omap name [bareAgent "math" 10 21 (Some 0) [];
                   bareAgent "physics" 10 22 (Some 0) []]
        = (before ++ childName :: after)%list ∧
        NoDup before ∧ childName ∈ before ∧
        e = mkError PlainError (duplicateNameMessage childName "root")
  | _ => False
  end.
Proof.
  apply (validateSiblingNames_spec familyWorld 0
           (bareAgent "root" 10 20 None [answers "four"]) [1; 2]
           [bareAgent "math" 10 21 (Some 0) []; bareAgent "physics" 10 22 (Some 0) []]);
    reflexivity.
Defined.

(** ** Wiring the tree at construction *)

Section WiringFacts.
Context {HS : Type}.
Implicit Types (w : World (HS:=HS)) (a b : Agent (HS:=HS)).

Lemma assertNamePresent_inv (agent : nat) w out w' :
  _assertNamePresent agent w = (out, w') →
  w' = w ∧
  (∀ u, out = Returned u →
        ∃ a n, agents w !! agent = Some a ∧ name a = Some n ∧ n ≠ "").
Proof.
  unfold _assertNamePresent, readAgent. unfold_monad.
  destruct (agents w !! agent) as [a|] eqn:Ha; simpl; [|by intros [= <- <-]].
  destruct (name a) as [n|] eqn:Hn; [|by intros [= <- <-]].
  destruct (String.eqb n "") eqn:E; intros [= <- <-]; (split; [done|]); [done|].
  intros u _. apply String.eqb_neq in E. eauto.
Qed.

Lemma forEach_assertNamePresent_inv (l : list nat) w out w' :
  forEach l _assertNamePresent w = (out, w') →
  w' = w ∧
  (∀ u, out = Returned u →
        ∀ x, x ∈ l → ∃ a n, agents w !! x = Some a ∧ name a = Some n ∧ n ≠ "").
Proof.
  revert out w'. induction l as [|x l IH]; intros out w'; simpl.
  - intros [= <- <-]. split; [done|]. by intros u _ x ?%elem_of_nil.
  - rewrite bind_unfold.
    destruct (_assertNamePresent x w) as [o1 w1] eqn:E1.
    apply assertNamePresent_inv in E1 as [-> H1].
    destruct o1 as [[]|e|e| |]; try (intros [= <- <-]; by split).
    intros [-> H2]%IH. split; [done|].
    intros u Hu y [->|Hy]%elem_of_cons; [by eapply H1|by eapply H2].
Qed.

Lemma validateSiblingNames_same (this : nat) w :
  (_validateSiblingNames this w).2 = w.
Proof.
  unfold _validateSiblingNames, readAgent, readAgentArray. unfold_monad.
  destruct (agents w !! this) as [self|]; simpl; [|done].
  destruct (agentArrays w !! subAgents self) as [children|]; simpl; [|done].
  assert (∀ refs, (readAgents refs w).2 = w) as Hread.
  { induction refs as [|r refs IH]; simpl; [done|].
    rewrite bind_unfold. unfold readAgent at 1. unfold_monad.
    destruct (agents w !! r); simpl; [|done].
    destruct (readAgents refs w) as [[l|e|e| |] w1]; simpl in *; by subst. }
  specialize (Hread children).
  destruct (readAgents children w) as [[l|e|e| |] w1]; simpl in *; subst; try done.
  assert (∀ names seen, (validateNames (nameOrUnnamed self) names seen w).2 = w) as Hv.
  { induction names as [|[n|] names IH]; intros seen; simpl; [done| |apply IH].
    destruct (bool_decide _); [done|apply IH]. }
  apply Hv.
Qed.

(** One run of the body of the loop of [_wireAgentTree], on a child of
    [this]. *)
Lemma wireChild_inv (this child : nat) w w' (self : Agent) (children : list nat) :
  agents w !! this = Some self →
  agentArrays w !! subAgents self = Some children →
  child ∈ children →
  wireChild this child w = (Returned tt, w') →
  agentArrays w' = agentArrays w ∧
  messageArrays w' = messageArrays w ∧
  agents w' !! this = Some self ∧
  wiredTo w' this (messages self) child ∧
  (∀ x, wiredTo w this (messages self) x → wiredTo w' this (messages self) x) ∧
  (∀ x a, agents w !! x = Some a →
          ∃ a', agents w' !! x = Some a' ∧ name a' = name a ∧ subAgents a' = subAgents a).
Proof.
  intros Hself Hchildren Hin.
  unfold wireChild, readAgent, readAgentArray, writeAgent. unfold_monad.
  destruct (agents w !! child) as [c|] eqn:Hc; simpl; [|done].
  destruct (agentArrays w !! subAgents c) as [grandChildren|] eqn:Hg; simpl; [|done].
  case_bool_decide as Hnil; simpl; [|done]. subst grandChildren.
  assert (child ≠ this) as Hne.
  { intros ->. simplify_eq. by apply elem_of_nil in Hin. }
  assert (∀ w1 : World (HS:=HS),
            agents w1 = agents w → agentArrays w1 = agentArrays w →
            messageArrays w1 = messageArrays w →
            ∀ out,
            (let w2 := mkWorld (<[child := mkAgent (messages self) (hooks c) (name c)
                                    (subAgents c) (Some this) (disallowTransferToParent c)
                                    (disallowTransferToPeers c) (model c) (_toolRegistry c)
                                    (_mcpClients c)
                                    (_initialized c) (_activeAgentName c)
                                    (_pendingTransferTarget c) (_consecutiveTransfers c)]>
                                  (agents w1))
                          (agentArrays w1) (messageArrays w1) (nextRef w1) (toolRuns w1)
                          (hookState w1) (emitted w1) in
             out = w2 →
             agentArrays out = agentArrays w ∧
             messageArrays out = messageArrays w ∧
             agents out !! this = Some self ∧
             wiredTo out this (messages self) child ∧
             (∀ x, wiredTo w this (messages self) x → wiredTo out this (messages self) x) ∧
             (∀ x a, agents w !! x = Some a →
                     ∃ a', agents out !! x = Some a' ∧ name a' = name a ∧
                           subAgents a' = subAgents a))) as Hwrite.
  { intros w1 Hag Harr Hmsg out w2 ->. subst w2. unfold wiredTo. simpl. rewrite Hag.
    split; [done|]. split; [done|]. split; [by rewrite lookup_insert_ne|].
    split; [eexists; by rewrite lookup_insert_eq|]. split.
    - intros x (a & Ha & Hp & Hm). destruct (decide (x = child)) as [->|Hx].
      + eexists. by rewrite lookup_insert_eq.
      + exists a. by rewrite lookup_insert_ne.
    - intros x a Ha. destruct (decide (x = child)) as [->|Hx].
      + eexists. rewrite lookup_insert_eq. split; [done|]. simpl. split; congruence.
      + exists a. by rewrite lookup_insert_ne. }
  destruct (parentAgent c) as [other|] eqn:Hp.
  - case_bool_decide as Hother.
    + destruct (agents w !! other); simpl; done.
    + simpl. rewrite Hself. simpl. intros [= <-]. by eapply Hwrite.
  - simpl. rewrite Hself. simpl. intros [= <-]. by eapply Hwrite.
Qed.

Lemma forEach_wireChild_inv (this : nat) (self : Agent) (children : list nat)
    (l : list nat) w w' :
  agents w !! this = Some self →
  agentArrays w !! subAgents self = Some children →
  l ⊆ children →
  forEach l (wireChild this) w = (Returned tt, w') →
  agentArrays w' = agentArrays w ∧
  messageArrays w' = messageArrays w ∧
  agents w' !! this = Some self ∧
  (∀ x, x ∈ l → wiredTo w' this (messages self) x) ∧
  (∀ x, wiredTo w this (messages self) x → wiredTo w' this (messages self) x) ∧
  (∀ x a, agents w !! x = Some a →
          ∃ a', agents w' !! x = Some a' ∧ name a' = name a ∧ subAgents a' = subAgents a).
Proof.
  revert w. induction l as [|child l IH]; intros w Hself Hchildren Hsub; simpl.
  - intros [= <-]. split; [done|]. split; [done|]. split; [done|].
    split; [by intros x ?%elem_of_nil|]. split; [done|]. eauto.
  - rewrite bind_unfold.
    destruct (wireChild this child w) as [[[]|e|e| |] w1] eqn:E; try done.
    apply (wireChild_inv _ _ _ _ self children) in E
      as (Harr & Hmsg & Hself1 & Hwired & Hkeep & Hnames);
      [|done|done|apply Hsub; left].
    intros Hrest. apply IH in Hrest
      as (Harr' & Hmsg' & Hself' & Hwired' & Hkeep' & Hnames');
      [|done|by rewrite Harr|intros x Hx; apply Hsub; by right].
    split; [congruence|]. split; [congruence|]. split; [done|]. split; [|split].
    + intros x [->|Hx]%elem_of_cons; [by apply Hkeep'|by apply Hwired'].
    + intros x Hx. by apply Hkeep', Hkeep.
    + intros x a Ha. destruct (Hnames x a Ha) as (a1 & Ha1 & Hn1 & Hs1).
      destruct (Hnames' x a1 Ha1) as (a2 & Ha2 & Hn2 & Hs2).
      exists a2. split; [done|]. split; congruence.
Qed.

(** [_wireAgentTree], when it returns. *)
Lemma wireAgentTree_inv (this : nat) (self : Agent) w w' :
  agents w !! this = Some self →
  _wireAgentTree this w = (Returned tt, w') →
  ∃ children,
    agents w' !! this = Some self ∧
    agentArrays w' !! subAgents self = Some children ∧
    (∀ child, child ∈ children → wiredTo w' this (messages self) child) ∧
    (children ≠ [] ∨ is_Some (parentAgent self) →
       (∃ n, name self = Some n ∧ n ≠ "") ∧
       ∀ child, child ∈ children →
                ∃ c n, agents w' !! child = Some c ∧ name c = Some n ∧ n ≠ "") ∧
    (∀ parent, parentAgent self = Some parent →
       ∃ p siblings, agents w' !! parent = Some p ∧
                     agentArrays w' !! subAgents p = Some siblings ∧ this ∈ siblings).
Proof.
  intros Hself. unfold _wireAgentTree. rewrite bind_unfold.
  unfold readAgent at 1. unfold mbind at 1, M_bind at 1, getWorld. simpl.
  rewrite Hself. simpl. rewrite bind_unfold.
  unfold readAgentArray at 1. unfold mbind at 1, M_bind at 1, getWorld. simpl.
  destruct (agentArrays w !! subAgents self) as [ownChildren|] eqn:Hown; simpl; [|done].
  rewrite bind_unfold.
  (* the guard on an agent with a parent and children *)
  match goal with |- context [(if ?c then throwError _ else mret tt) w] =>
    destruct c eqn:Hguard; [done|] end.
  unfold mret at 1, M_ret at 1. rewrite bind_unfold.
  (* the parent's array *)
  match goal with |- context [match ?m w with _ => _ end] =>
    destruct (m w) as [out1 w1] eqn:Hnorm;
    assert (agents w1 = agents w ∧ messageArrays w1 = messageArrays w ∧
            (∀ u, out1 = Returned u →
               (parentAgent self = None ∧ w1 = w) ∨
               (∃ parent p siblings,
                  parentAgent self = Some parent ∧ agents w !! parent = Some p ∧
                  agentArrays w1 !! subAgents p = Some siblings ∧ this ∈ siblings ∧
                  ∀ ref, ref ≠ subAgents p → agentArrays w1 !! ref = agentArrays w !! ref)))
      as (Hag1 & Hmsg1 & Hout1) end.
  { revert Hnorm. destruct (parentAgent self) as [parent|] eqn:Hparent.
    - unfold readAgent, readAgentArray, writeAgentArray. unfold_monad.
      destruct (agents w !! parent) as [p|] eqn:Hp; simpl; [|by intros [= <- <-]].
      destruct (agentArrays w !! subAgents p) as [siblings|] eqn:Hs; simpl;
        [|by intros [= <- <-]].
      destruct (bool_decide (this ∈ siblings)) eqn:Hin; simpl;
        intros [= <- <-]; (split; [done|]); (split; [done|]);
        intros u _; right; exists parent, p.
      + apply bool_decide_eq_true in Hin. exists siblings. done.
      + exists (siblings ++ [this])%list. simpl. split; [done|]. split; [done|].
        split; [by rewrite lookup_insert_eq|]. split; [apply elem_of_app; right; left|].
        intros ref Href. by rewrite lookup_insert_ne.
    - intros [= <- <-]. split; [done|]. split; [done|]. intros u _. by left. }
  destruct out1 as [[]|e|e| |]; try done.
  specialize (Hout1 tt eq_refl).
  rewrite bind_unfold.
  unfold readAgentArray at 1. unfold mbind at 1, M_bind at 1, getWorld. simpl.
  destruct (agentArrays w1 !! subAgents self) as [children|] eqn:Hchildren; simpl; [|done].
  rewrite bind_unfold.
  assert (agents w1 !! this = Some self) as Hself1 by (by rewrite Hag1).
  destruct (forEach children (wireChild this) w1) as [[[]|e|e| |] w2] eqn:Hloop; try done.
  apply (forEach_wireChild_inv this self children) in Hloop
    as (Harr2 & Hmsg2 & Hself2 & Hwired & _ & Hnames); [|done..].
  rewrite bind_unfold.
  pose proof (validateSiblingNames_same this w2) as Hsame.
  destruct (_validateSiblingNames this w2) as [[[]|e|e| |] w3]; simpl in Hsame; subst;
    try done.
  intros Hassert. exists children.
  assert (w' = w2 ∧
          (children ≠ [] ∨ is_Some (parentAgent self) →
           (∃ n, name self = Some n ∧ n ≠ "") ∧
           ∀ child, child ∈ children →
                    ∃ c n, agents w2 !! child = Some c ∧ name c = Some n ∧ n ≠ ""))
    as [-> Hnamed].
  { revert Hassert.
    destruct (negb (bool_decide (children = [])) || bool_decide (is_Some (parentAgent self)))
      eqn:Hcond.
    - rewrite bind_unfold.
      destruct (_assertNamePresent this w2) as [o1 w4] eqn:E1.
      apply assertNamePresent_inv in E1 as [-> H1].
      destruct o1 as [[]|e|e| |]; try done.
      destruct (forEach children _assertNamePresent w2) as [o2 w5] eqn:E2.
      apply forEach_assertNamePresent_inv in E2 as [-> H2].
      intros [= -> <-]. split; [done|]. intros _. split.
      + destruct (H1 tt eq_refl) as (a & n & Ha & Hn & Hne).
        rewrite Hself2 in Ha. simplify_eq. eauto.
      + apply (H2 tt eq_refl).
    - intros [= <-]. split; [done|]. intros Hor.
      apply orb_false_iff in Hcond as [Hc Hp].
      apply negb_false_iff in Hc. apply bool_decide_eq_true in Hc.
      apply bool_decide_eq_false in Hp. tauto. }
  split; [done|]. split; [by rewrite Harr2|]. split; [done|]. split; [done|].
  intros parent Hparent.
  destruct Hout1 as [[Hnone _]|(parent' & p & siblings & Hp' & Hp & Hs & Hin & _)];
    [congruence|].
  assert (parent' = parent) as -> by congruence.
  rewrite <- Hag1 in Hp. destruct (Hnames parent p Hp) as (p' & Hp2 & _ & Hsub).
  exists p', siblings. split; [done|]. split; [|done]. by rewrite Hsub, Harr2.
Qed.

(** [new Agent(config)], when it returns. *)
Lemma newAgent_inv (config : AgentConfig) w (this : nat) w' :
  newAgent config w = (Returned this, w') →
  ∃ self children,
    agents w' !! this = Some self ∧
    name self = cfgName config ∧
    parentAgent self = cfgParentAgent config ∧
    (∀ array, cfgSubAgents config = Some array → subAgents self = array) ∧
    agentArrays w' !! subAgents self = Some children ∧
    (∀ child, child ∈ children → wiredTo w' this (messages self) child) ∧
    (children ≠ [] ∨ is_Some (parentAgent self) →
       (∃ n, name self = Some n ∧ n ≠ "") ∧
       ∀ child, child ∈ children →
                ∃ c n, agents w' !! child = Some c ∧ name c = Some n ∧ n ≠ "") ∧
    (∀ parent, parentAgent self = Some parent →
       ∃ p siblings, agents w' !! parent = Some p ∧
                     agentArrays w' !! subAgents p = Some siblings ∧ this ∈ siblings).
Proof.
  unfold newAgent. rewrite bind_unfold.
  destruct (newMessageArray (cfgMessages config) w) as [[messagesRef|e|e| |] w1] eqn:E1;
    try done.
  rewrite bind_unfold.
  match goal with |- context [match ?m w1 with _ => _ end] =>
    destruct (m w1) as [[subAgentsRef|e|e| |] w2] eqn:E2; try done end.
  rewrite bind_unfold.
  destruct (freshRef w2) as [[ref|e|e| |] w3] eqn:E3; try done.
  rewrite bind_unfold.
  match goal with |- context [writeAgent ref ?a w3] =>
    set (self := a);
    destruct (writeAgent ref self w3) as [[[]|e|e| |] w4] eqn:E4; try done end.
  assert (agents w4 !! ref = Some self) as Hself.
  { revert E4. unfold writeAgent. unfold_monad. intros [= <-]. simpl.
    by rewrite lookup_insert_eq. }
  rewrite bind_unfold.
  destruct (_wireAgentTree ref w4) as [[[]|e|e| |] w5] eqn:E5; try done.
  intros [= <- <-].
  destruct (wireAgentTree_inv ref self w4 w5 Hself E5)
    as (children & H1 & H2 & H3 & H4 & H5).
  exists self, children. split; [done|]. split; [done|]. split; [done|].
  split; [|done]. intros array Harray. subst self. simpl.
  rewrite Harray in E2. by injection E2 as <-.
Qed.

(** X9.  Constructing an agent over an array of sub-agents makes it the
    parent of each of them and makes each of them hold the parent's array
    of messages (one shared timeline); every one of the sub-agents carries
    a non-empty name and, when there is a sub-agent, so does the agent. *)
Theorem subAgents_join_the_parent_timeline (config : AgentConfig) w (this : nat) w' :
  newAgent config w = (Returned this, w') →
  ∃ self children,
    agents w' !! this = Some self ∧
    (∀ array, cfgSubAgents config = Some array → subAgents self = array) ∧
    agentArrays w' !! subAgents self = Some children ∧
    (∀ child, child ∈ children →
       ∃ c n, agents w' !! child = Some c ∧ parentAgent c = Some this ∧
              messages c = messages self ∧ name c = Some n ∧ n ≠ "") ∧
    (children ≠ [] → ∃ n, name self = Some n ∧ n ≠ "").
Proof.
  intros (self & children & H1 & _ & _ & H4 & H5 & H6 & H7 & _)%newAgent_inv.
  exists self, children. split; [done|]. split; [done|]. split; [done|]. split.
  - intros child Hchild. destruct (H6 child Hchild) as (c & Hc & Hp & Hm).
    destruct H7 as [_ H7]; [left; by intros ->; apply elem_of_nil in Hchild|].
    destruct (H7 child Hchild) as (c' & n & Hc' & Hn & Hne). simplify_eq.
    by exists c, n.
  - intros Hne. by destruct H7 as [? _]; [left|].
Qed.

(** X10.  Constructing an agent with [parentAgent] puts it among the
    sub-agents of that parent; the new agent points to the parent and
    carries a non-empty name. *)
Theorem child_joins_its_parent (config : AgentConfig) w (this : nat) w' (parent : nat) :
  cfgParentAgent config = Some parent →
  newAgent config w = (Returned this, w') →
  ∃ self p siblings n,
    agents w' !! this = Some self ∧ parentAgent self = Some parent ∧
    agents w' !! parent = Some p ∧
    agentArrays w' !! subAgents p = Some siblings ∧ this ∈ siblings ∧
    name self = Some n ∧ n ≠ "".
Proof.
  intros Hparent (self & children & H1 & _ & H3 & _ & _ & _ & H7 & H8)%newAgent_inv.
  rewrite Hparent in H3.
  destruct (H8 parent H3) as (p & siblings & Hp & Hs & Hin).
  destruct H7 as [(n & Hn & Hne) _]; [right; by rewrite H3|].
  by exists self, p, siblings, n.
Qed.

End WiringFacts.

(** [science] is made the parent of [chemistry] and [biology], which come
    to hold its array of messages. *)
Example science_adopts_its_sub_agents :
  let made := newAgent (quietAgent "science" None (Some 25)) familyWorld in
  made.1 = Returned 31 ∧
  agentArrays made.2 !! 25 = Some [3; 4] ∧
  messages <$> agents made.2 !! 31 = Some 30 ∧
  (λ c, (parentAgent c, messages c)) <$> agents made.2 !! 3 = Some (Some 31, 30) ∧
  (λ c, (parentAgent c, messages c)) <$> agents made.2 !! 4 = Some (Some 31, 30).
Proof. vm_compute. done. Qed.

Lemma subAgents_join_the_parent_timeline_witness :
  ∃ self children,
    agents (newAgent (quietAgent "science" None (Some 25)) familyWorld).2 !! 31 = Some self ∧
    (∀ array, cfgSubAgents (quietAgent "science" None (Some 25)) = Some array →
              subAgents self = array) ∧
    agentArrays (newAgent (quietAgent "science" None (Some 25)) familyWorld).2
      !! subAgents self = Some children ∧
    (∀ child, child ∈ children →
       ∃ c n, agents (newAgent (quietAgent "science" None (Some 25)) familyWorld).2 !! child
              = Some c ∧ parentAgent c = Some 31 ∧
              messages c = messages self ∧ name c = Some n ∧ n ≠ "") ∧
    (children ≠ [] → ∃ n, name self = Some n ∧ n ≠ "").
Proof.
  apply (subAgents_join_the_parent_timeline (quietAgent "science" None (Some 25))
           familyWorld 31).
  vm_compute. reflexivity.
Defined.

(** [geometry] joins the sub-agents of [root]. *)
Example geometry_joins_root :
  let made := newAgent (quietAgent "geometry" (Some 0) None) familyWorld in
  made.1 = Returned 32 ∧ agentArrays made.2 !! 20 = Some [1; 2; 32].
Proof. vm_compute. done. Qed.

Lemma child_joins_its_parent_witness :
  ∃ self p siblings n,
    agents (newAgent (quietAgent "geometry" (Some 0) None) familyWorld).2 !! 32 = Some self ∧
    parentAgent self = Some 0 ∧
    agents (newAgent (quietAgent "geometry" (Some 0) None) familyWorld).2 !! 0 = Some p ∧
    agentArrays (newAgent (quietAgent "geometry" (Some 0) None) familyWorld).2
      !! subAgents p = Some siblings ∧
    32 ∈ siblings ∧ name self = Some n ∧ n ≠ "".
Proof.
  apply (child_joins_its_parent (quietAgent "geometry" (Some 0) None) familyWorld 32
           _ 0).
  - reflexivity.
  - vm_compute. reflexivity.
Defined.

(** ** What an invocation leaves as it was *)

(** A change of run-time state that leaves the own tools alone. *)
Lemma sameConfiguration_runtime {HS : Type} (a b : Agent (HS:=HS)) :
  messages b = messages a → hooks b = hooks a → name b = name a →
  subAgents b = subAgents a → parentAgent b = parentAgent a →
  disallowTransferToParent b = disallowTransferToParent a →
  disallowTransferToPeers b = disallowTransferToPeers a →
  _mcpClients b = _mcpClients a →
  (_initialized a = true → _initialized b = true) →
  _toolRegistry b = _toolRegistry a →
  sameConfiguration a b.
Proof.
  intros ????????? Htools. repeat (split; [done|]).
  exists []. by rewrite app_nil_r.
Qed.

(** A setter of run-time state leaves the configuration as it is. *)
Ltac same_configuration := by apply sameConfiguration_runtime.

Section RunFacts.
Context {HS : Type}.
Implicit Types (w : World (HS:=HS)) (a b : Agent (HS:=HS)).

Lemma sameConfiguration_refl a : sameConfiguration a a.
Proof. by apply sameConfiguration_runtime. Qed.

Lemma sameConfiguration_trans a b c :
  sameConfiguration a b → sameConfiguration b c → sameConfiguration a c.
Proof.
  intros (?&?&?&?&?&?&?& Hc1 & Hi1 & added1 & Ht1 & Hn1 & Hl1)
         (?&?&?&?&?&?&?& Hc2 & Hi2 & added2 & Ht2 & Hn2 & Hl2).
  repeat (split; [congruence || auto|]).
  exists (added1 ++ added2)%list. split; [|split].
  - by rewrite Ht2, Ht1, <- app_assoc.
  - intros Ha. by rewrite (Hn1 Ha), (Hn2 (Hi1 Ha)).
  - apply Forall_app. split; [done|]. by rewrite <- Hc1.
Qed.

Lemma noHooks_lookup w (ref : nat) a :
  noHooks w = true → agents w !! ref = Some a → hooks a = [].
Proof.
  unfold noHooks. rewrite forallb_forall. intros H Ha.
  specialize (H (ref, a)). simpl in H.
  destruct (hooks a); [done|]. discriminate H.
  apply list_elem_of_In, elem_of_map_to_list. done.
Qed.

Lemma noHooks_intro w :
  (∀ ref a, agents w !! ref = Some a → hooks a = []) → noHooks w = true.
Proof.
  intros H. unfold noHooks. apply forallb_forall. intros [ref a] Hin.
  apply list_elem_of_In, elem_of_map_to_list in Hin. simpl.
  by rewrite (H ref a Hin).
Qed.

Lemma sameAgents_refl (m : gmap nat (Agent (HS:=HS))) (ref : nat) :
  option_Forall2 sameConfiguration (m !! ref) (m !! ref).
Proof. destruct (m !! ref); constructor. apply sameConfiguration_refl. Qed.

Lemma evolves_refl w : evolves w w.
Proof.
  split; [done|]. split; [done|]. split; [intros ref; apply sameAgents_refl|].
  split; [done|]. intros _ ref h Hh. by exists h.
Qed.

Lemma evolves_noHooks w w' : evolves w w' → noHooks w = true → noHooks w' = true.
Proof.
  intros (_ & _ & Hag & _) Hno. apply noHooks_intro. intros ref a' Ha'.
  specialize (Hag ref). rewrite Ha' in Hag.
  inversion Hag as [a ? Hsame Ha|]; subst. symmetry in Ha.
  destruct Hsame as (_ & -> & _). by eapply noHooks_lookup.
Qed.

Lemma evolves_trans w1 w2 w3 : evolves w1 w2 → evolves w2 w3 → evolves w1 w3.
Proof.
  intros H12 H23. pose proof (evolves_noHooks _ _ H12) as Hno.
  destruct H12 as (Ha1 & Hn1 & Hag1 & He1 & Hm1), H23 as (Ha2 & Hn2 & Hag2 & He2 & Hm2).
  split; [congruence|]. split; [congruence|]. split; [|split].
  - intros ref. specialize (Hag1 ref). specialize (Hag2 ref).
    destruct Hag1 as [a b Hab|]; inversion Hag2 as [b' c Hbc|]; subst; constructor.
    by eapply sameConfiguration_trans.
  - by etrans.
  - intros Hno1 ref h Hh. destruct (Hm1 Hno1 ref h Hh) as (h2 & Hh2 & Hp).
    destruct (Hm2 (Hno Hno1) ref h2 Hh2) as (h3 & Hh3 & Hp').
    exists h3. split; [done|]. by etrans.
Qed.

Lemma steady_ret {A : Type} (x : A) : steady (HS:=HS) (mret x).
Proof. intros w. apply evolves_refl. Qed.

Lemma steady_same {A : Type} (m : M (HS:=HS) A) : (∀ w, (m w).2 = w) → steady m.
Proof. intros H w. rewrite H. apply evolves_refl. Qed.

Lemma steady_bind {A B : Type} (m : M (HS:=HS) A) (f : A → M B) :
  steady m → (∀ x, steady (f x)) → steady (m ≫= f).
Proof.
  intros Hm Hf w. rewrite bind_unfold. specialize (Hm w).
  destruct (m w) as [[x|e|e| |] w1]; simpl in *; try done.
  eapply evolves_trans; [done|apply Hf].
Qed.

Lemma steady_tryCatch {A : Type} (body : M (HS:=HS) A) (handler : Error → M A) :
  steady body → (∀ e, steady (handler e)) → steady (tryCatch body handler).
Proof.
  intros Hb Hh w. unfold tryCatch. specialize (Hb w).
  destruct (body w) as [[x|e|e| |] w1]; simpl in *; try done.
  eapply evolves_trans; [done|apply Hh].
Qed.

Lemma steady_tryFinally {A : Type} (body : M (HS:=HS) A) (finalizer : M unit) :
  steady body → steady finalizer → steady (tryFinally body finalizer).
Proof.
  intros Hb Hf w. unfold tryFinally. specialize (Hb w).
  destruct (body w) as [[x|e|e| |] w1]; simpl in *; try done.
  - eapply evolves_trans; [done|].
    apply (steady_bind finalizer (λ _, mret x)); [done|]. intros _. apply steady_ret.
  - eapply evolves_trans; [done|].
    apply (steady_bind finalizer (λ _, throw e)); [done|]. intros _. by apply steady_same.
Qed.

Lemma steady_forEach {A : Type} (l : list A) (body : A → M (HS:=HS) unit) :
  (∀ x, steady (body x)) → steady (forEach l body).
Proof.
  intros Hb. induction l as [|x l IH]; simpl; [apply steady_ret|].
  apply steady_bind; [apply Hb|]. intros _. apply IH.
Qed.

Lemma steady_readAgent (ref : nat) : steady (HS:=HS) (readAgent ref).
Proof.
  apply steady_same. intros w. unfold readAgent. rewrite bind_unfold. simpl.
  by destruct (agents w !! ref).
Qed.

Lemma steady_readMessages (ref : nat) : steady (HS:=HS) (readMessages ref).
Proof.
  apply steady_same. intros w. unfold readMessages. rewrite bind_unfold. simpl.
  by destruct (messageArrays w !! ref).
Qed.

Lemma steady_getWorld : steady (HS:=HS) getWorld.
Proof. by apply steady_same. Qed.

Lemma steady_throw {A : Type} (e : Error) : steady (HS:=HS) (throw (A:=A) e).
Proof. by apply steady_same. Qed.

Lemma steady_emit (e : AgentStreamEvent) : steady (HS:=HS) (emit e).
Proof.
  intros w. unfold emit. unfold_monad.
  split; [done|]. split; [done|]. split; [|split].
  - intros ref. apply sameAgents_refl.
  - by apply prefix_app_r.
  - intros _ ref h Hh. by exists h.
Qed.

(** An assignment to one of the fields of run-time state. *)
Lemma steady_assign {V : Type} (ref : nat) (setter : Agent → V → Agent) (v : V) :
  (∀ a, sameConfiguration a (setter a v)) → steady (HS:=HS) (assign ref setter v).
Proof.
  intros Hset w. unfold assign, readAgent, writeAgent. unfold_monad.
  destruct (agents w !! ref) as [a|] eqn:Ha; simpl; [|apply evolves_refl].
  split; [done|]. split; [done|]. split; [|split].
  - intros r. simpl. destruct (decide (r = ref)) as [->|Hne].
    + rewrite lookup_insert_eq, Ha. constructor. apply Hset.
    + rewrite lookup_insert_ne by done. apply sameAgents_refl.
  - done.
  - intros _ r h Hh. by exists h.
Qed.

Lemma steady_runHooks (owner : nat) (event : HookEvent) :
  steady (HS:=HS) (runHooks owner event).
Proof.
  intros w. unfold runHooks, readAgent, readMessages. unfold_monad.
  destruct (agents w !! owner) as [a|] eqn:Ha; simpl; [|apply evolves_refl].
  destruct (messageArrays w !! messages a) as [history|] eqn:Hh; simpl;
    [|apply evolves_refl].
  split; [done|]. split; [done|]. split; [|split].
  - intros r. apply sameAgents_refl.
  - done.
  - intros Hno r h Hr. rewrite (noHooks_lookup _ _ _ Hno Ha). simpl.
    destruct (decide (r = messages a)) as [->|Hne].
    + rewrite lookup_insert_eq. exists history. split; [done|]. by rewrite Hh in Hr; simplify_eq.
    + rewrite lookup_insert_ne by done. by exists h.
Qed.

Lemma steady_yieldHook (this : nat) (d : EventData) : steady (HS:=HS) (yieldHook this d).
Proof.
  apply steady_bind; [apply steady_runHooks|]. intros [event [e|]]; simpl.
  - by apply steady_same.
  - apply steady_bind; [apply steady_emit|]. intros _. apply steady_ret.
Qed.

Lemma evolves_push w (ref : nat) (history : list Message) (x : Message) :
  messageArrays w !! ref = Some history →
  evolves w (writeMessages ref (history ++ [x]) w).2.
Proof.
  intros Hh. unfold writeMessages. unfold_monad.
  split; [done|]. split; [done|]. split; [intros r; apply sameAgents_refl|].
  split; [done|].
  intros _ r h Hr. simpl. destruct (decide (r = ref)) as [->|Hne].
  - rewrite lookup_insert_eq. eexists. split; [done|].
    rewrite Hh in Hr. simplify_eq. by apply prefix_app_r.
  - rewrite lookup_insert_ne by done. by exists h.
Qed.

Lemma steady_appendMessage (this : nat) (message : Message) (messageAuthor : option string) :
  steady (HS:=HS) (_appendMessage this message messageAuthor).
Proof.
  unfold _appendMessage.
  set (messageToAppend := match messageAuthor, author message with
                          | Some a, None => _ | _, _ => _ end).
  apply steady_bind; [apply steady_readAgent|]. intros self.
  intros w. rewrite bind_unfold.
  destruct (readMessages (messages self) w) as [out w1] eqn:Hread.
  assert (w1 = w ∧ ∀ history, out = Returned history →
                              messageArrays w !! messages self = Some history)
    as [-> Hhistory].
  { unfold readMessages in Hread. unfold_monad.
    destruct (messageArrays w !! messages self); simplify_eq; split; congruence. }
  destruct out as [history|e|e| |]; simpl; try apply evolves_refl.
  rewrite bind_unfold.
  pose proof (evolves_push w (messages self) history messageToAppend
                (Hhistory _ eq_refl)) as Hpush.
  destruct (writeMessages _ _ w) as [[[]|e|e| |] w2]; simpl in *; try done.
  eapply evolves_trans; [done|].
  apply (steady_bind _ _ (steady_runHooks _ _)).
  intros [event [e|]]; simpl; [by apply steady_same|apply steady_ret].
Qed.

Lemma steady_appendAndYield (this : nat) (message : Message) (a : option string) :
  steady (HS:=HS) (appendAndYield this message a).
Proof.
  apply steady_bind; [apply steady_appendMessage|]. intros event. apply steady_emit.
Qed.

(** The clients of an agent that is not initialized add their tools. *)
Lemma addAll_evolves (this : nat) (clients : list McpClient) w self :
  agents w !! this = Some self →
  _initialized self = false →
  clients ⊆ _mcpClients self →
  evolves w (forEach clients
               (λ client,
                  match listTools client with
                  | Ok tools => assign this addAll tools
                  | Throw e => throw e
                  end) w).2.
Proof.
  revert w self. induction clients as [|client rest IH]; intros w self Hself Hinit Hsub.
  { apply evolves_refl. }
  cbn [forEach]. rewrite bind_unfold.
  destruct (listTools client) as [tools|e] eqn:Hlist; [|apply evolves_refl].
  unfold assign at 1, readAgent at 1, writeAgent at 1. unfold_monad.
  rewrite Hself. simpl.
  set (w1 := mkWorld _ _ _ _ _ _ _).
  assert (evolves w w1) as Hstep.
  { split; [done|]. split; [done|]. split; [|split].
    - intros ref. subst w1. simpl. destruct (decide (ref = this)) as [->|Hne].
      + rewrite lookup_insert_eq, Hself. constructor.
        repeat (split; [done|]). exists tools. split; [done|]. split; [congruence|].
        apply Forall_forall. intros tool Htool. exists client, tools.
        split; [|done]. apply Hsub. by left.
      + rewrite lookup_insert_ne by done. apply sameAgents_refl.
    - done.
    - intros _ ref h Hh. by exists h. }
  eapply evolves_trans; [exact Hstep|].
  apply (IH w1 (addAll self tools)).
  - subst w1. simpl. by rewrite lookup_insert_eq.
  - done.
  - simpl. intros c Hc. apply Hsub. by right.
Qed.

Lemma steady_initialize (this : nat) : steady (HS:=HS) (initialize this).
Proof.
  intros w. unfold initialize. rewrite bind_unfold.
  unfold readAgent at 1. unfold mbind at 1, M_bind at 1, getWorld. simpl.
  destruct (agents w !! this) as [self|] eqn:Hself; [|apply evolves_refl].
  simpl. destruct (_initialized self) eqn:Hinit; [apply evolves_refl|].
  rewrite bind_unfold.
  pose proof (addAll_evolves this (_mcpClients self) w self Hself Hinit
                ltac:(done)) as Hloop.
  destruct (forEach _ _ w) as [[[]|e|e| |] w1]; simpl in *; try done.
  eapply evolves_trans; [exact Hloop|].
  apply (steady_bind (runHooks this (newEvent Initialized))); [apply steady_runHooks|].
  intros [event [e|]]; simpl.
  - apply steady_throw.
  - apply steady_assign. intros a. same_configuration.
Qed.

Lemma steady_streamFromModel (this activeAgent : nat) :
  steady (HS:=HS) (_streamFromModel this activeAgent).
Proof.
  apply steady_bind; [apply steady_readAgent|]. intros active.
  destruct (model active) as [|turn later]; [by apply steady_same|].
  apply steady_bind; [apply steady_assign; intros a; same_configuration|].
  intros _. apply steady_bind.
  { apply steady_forEach. intros event.
    apply steady_bind; [apply steady_yieldHook|]. intros _. apply steady_emit. }
  intros _. destruct (modelOutcome turn); [apply steady_ret|apply steady_throw].
Qed.

Lemma steady_invokeModel (fuel : nat) (this activeAgent : nat) (args : option InvokeArgs) :
  steady (HS:=HS) (invokeModel fuel this activeAgent args).
Proof.
  induction fuel as [|fuel IH]; simpl; [by apply steady_same|].
  apply steady_bind.
  { apply steady_forEach. intros message. apply steady_appendAndYield. }
  intros _. apply steady_bind; [apply steady_yieldHook|]. intros _.
  apply steady_tryCatch.
  - apply steady_bind; [apply steady_streamFromModel|]. intros result.
    apply steady_bind; [apply steady_yieldHook|]. intros event.
    destruct (propIsTruthy "retry" event); [apply IH|apply steady_ret].
  - intros error. apply steady_bind; [apply steady_yieldHook|]. intros event.
    destruct (propIsTruthy "retry" event); [apply IH|apply steady_throw].
Qed.

Lemma steady_queueTransfer (this : nat) (target : string) :
  steady (HS:=HS) (queueTransfer this target).
Proof.
  apply steady_bind; [apply steady_readAgent|]. intros root.
  destruct (_ <=? _); [apply steady_throw|].
  apply steady_assign. intros a. same_configuration.
Qed.

Lemma steady_toolStream (this : nat) (tool : Tool) (toolUse : ToolUse) :
  steady (HS:=HS) (toolStream this tool toolUse).
Proof.
  unfold toolStream. destruct (toolBody tool) as [|allowed].
  - intros w. rewrite bind_unfold. simpl.
    destruct (toolRuns w) as [|run later]; [apply evolves_refl|].
    rewrite bind_unfold. simpl.
    match goal with |- evolves w (?m ?w1).2 =>
      apply (evolves_trans w w1) end.
    + split; [done|]. split; [done|]. split; [|split].
      * intros r. apply sameAgents_refl.
      * done.
      * intros _ r h Hr. by exists h.
    + apply (steady_bind (forEach (toolEvents run) (λ event, emit (ToolStreamed event)))).
      * apply steady_forEach. intros event. apply steady_emit.
      * intros _. destruct (toolOutcome run); [apply steady_ret|apply steady_throw].
  - unfold transferToolStream.
    destruct (agentNameOf _) as [agentName|]; [|apply steady_throw].
    apply steady_bind.
    { destruct (bool_decide _); [apply steady_ret|apply steady_throw]. }
    intros _. apply steady_bind; [apply steady_queueTransfer|]. intros _.
    apply steady_ret.
Qed.

Lemma steady_toolAttempt (this : nat) (tool : option Tool) (toolUse : ToolUse) :
  steady (HS:=HS) (toolAttempt this tool toolUse).
Proof.
  destruct tool as [t|]; simpl; [|apply steady_ret].
  apply steady_tryCatch.
  - apply steady_bind; [apply steady_toolStream|].
    intros [r|]; apply steady_ret.
  - intros e. apply steady_ret.
Qed.

Lemma steady_executeTool (fuel : nat) (this : nat) (toolUse : ToolUse)
    (toolRegistry : list Tool) :
  steady (HS:=HS) (executeTool fuel this toolUse toolRegistry).
Proof.
  induction fuel as [|fuel IH]; simpl; [by apply steady_same|].
  apply steady_bind; [apply steady_yieldHook|]. intros _.
  apply steady_bind; [apply steady_toolAttempt|]. intros attempt.
  apply steady_bind; [apply steady_yieldHook|]. intros event.
  destruct (propIsTruthy "retry" event); [apply IH|apply steady_ret].
Qed.

Lemma steady_executeEach (fuel : nat) (this : nat) (toolUses : list ToolUse)
    (toolRegistry : list Tool) :
  steady (HS:=HS) (executeEach fuel this toolUses toolRegistry).
Proof.
  induction toolUses as [|toolUse rest IH]; simpl; [apply steady_ret|].
  apply steady_bind; [apply steady_executeTool|]. intros r.
  apply steady_bind; [apply steady_emit|]. intros _.
  apply steady_bind; [apply IH|]. intros others. apply steady_ret.
Qed.

Lemma steady_executeTools (fuel : nat) (this : nat) (message : Message)
    (toolRegistry : list Tool) :
  steady (HS:=HS) (executeTools fuel this message toolRegistry).
Proof.
  apply steady_bind; [apply steady_yieldHook|]. intros _.
  apply steady_bind.
  { destruct (bool_decide _); [apply steady_throw|apply steady_ret]. }
  intros _. apply steady_bind; [apply steady_executeEach|]. intros results.
  apply steady_bind; [apply steady_yieldHook|]. intros _. apply steady_ret.
Qed.

Lemma steady_streamLoop (fuel : nat) (this : nat) (currentArgs : option InvokeArgs)
    (activeAgent : nat) :
  steady (HS:=HS) (streamLoop fuel this currentArgs activeAgent).
Proof.
  assert (Hassign : ∀ (V : Type) ref (setter : Agent → V → Agent) v,
            (∀ a, sameConfiguration a (setter a v)) → steady (HS:=HS) (assign ref setter v))
    by (intros; by apply steady_assign).
  revert currentArgs activeAgent.
  induction fuel as [|fuel IH]; intros currentArgs activeAgent;
    [by apply steady_same|].
  cbn [streamLoop].
  apply steady_bind; [apply steady_initialize|]. intros _.
  apply steady_bind; [apply steady_getWorld|]. intros w0.
  apply steady_bind; [apply steady_invokeModel|]. intros modelResult.
  apply steady_bind; [apply steady_readAgent|]. intros active.
  destruct (negb _).
  { apply steady_bind; [apply steady_appendAndYield|]. intros _.
    apply steady_bind; [apply Hassign; intros a; same_configuration|].
    intros _. apply steady_ret. }
  apply steady_bind; [apply steady_executeTools|]. intros toolResultMessage.
  apply steady_bind; [apply steady_appendAndYield|]. intros _.
  apply steady_bind; [apply steady_appendAndYield|]. intros _.
  apply steady_bind; [apply steady_readAgent|]. intros root.
  apply steady_bind; [apply Hassign; intros a; same_configuration|].
  intros _. destruct (truthyString _) as [target|].
  2:{ apply steady_bind; [apply Hassign; intros a; same_configuration|].
      intros _. apply IH. }
  apply steady_bind; [apply steady_getWorld|]. intros w1.
  destruct (findAgent _ _ _ _) as [nextAgent|]; [|apply steady_throw].
  apply steady_bind; [apply steady_readAgent|]. intros root'.
  destruct (_ <=? _).
  { apply steady_bind; [apply Hassign; intros a; same_configuration|].
    intros _. apply IH. }
  apply steady_bind; [apply steady_readAgent|]. intros next.
  apply steady_bind; [apply steady_yieldHook|]. intros _.
  apply steady_bind; [apply Hassign; intros a; same_configuration|]. intros _.
  apply steady_bind; [apply steady_readAgent|]. intros root''.
  apply steady_bind; [apply Hassign; intros a; same_configuration|]. intros _.
  apply steady_bind; [apply steady_yieldHook|]. intros _.
  apply IH.
Qed.

Lemma steady_stream (fuel : nat) (this : nat) (args : InvokeArgs) (initialAgent : nat) :
  steady (HS:=HS) (_stream fuel this args initialAgent).
Proof.
  apply steady_bind; [apply steady_getWorld|]. intros w0.
  apply steady_bind; [apply steady_yieldHook|]. intros _.
  apply steady_tryFinally; [apply steady_streamLoop|].
  apply steady_bind; [apply steady_yieldHook|]. intros _. apply steady_ret.
Qed.

Lemma steady_streamFromEntryBody (fuel : nat) (this : nat) (args : InvokeArgs)
    (initialAgent : nat) :
  steady (HS:=HS) (streamFromEntryBody fuel this args initialAgent).
Proof.
  intros w. unfold streamFromEntryBody.
  match goal with |- context [match ?m w with _ => _ end] =>
    assert (Hm : steady m); [|specialize (Hm w); by destruct (m w) as [[?|?|?| |] ?]] end.
  apply steady_bind; [apply steady_initialize|]. intros _.
  apply steady_bind; [apply steady_stream|]. intros result.
  apply steady_bind; [apply steady_emit|]. intros _. apply steady_ret.
Qed.

(** X11.  However an invocation ends, it leaves every agent with the
    configuration it had (its array of messages, callbacks, name, array of
    sub-agents, parent, transfer flags and MCP clients), adds and removes
    no agent and changes no array of sub-agents.  The own tools of an agent
    are those it had, followed, for an agent that was not initialized, by
    tools that its MCP clients list: an agent that was initialized, or that
    has no MCP client, has exactly the own tools it had, so the transfer
    tool built for a turn is never added to them. *)
Theorem invocation_keeps_the_configuration (fuel : nat) (this : nat) (args : InvokeArgs)
    (initialAgent : nat) w :
  let w' := (streamFromEntryBody fuel this args initialAgent w).2 in
  agentArrays w' = agentArrays w ∧
  (∀ ref, option_Forall2 sameConfiguration (agents w !! ref) (agents w' !! ref)) ∧
  (∀ ref a, agents w !! ref = Some a →
     _initialized a = true ∨ _mcpClients a = [] →
     ∃ a', agents w' !! ref = Some a' ∧ _toolRegistry a' = _toolRegistry a).
Proof.
  destruct (steady_streamFromEntryBody fuel this args initialAgent w)
    as (Harrays & _ & Hagents & _).
  cbv zeta. split; [done|]. split; [done|].
  intros ref a Ha Hcase. specialize (Hagents ref). rewrite Ha in Hagents.
  inversion Hagents as [? a' Hsame Heq Ha'|]; subst.
  exists a'. split; [done|].
  destruct Hsame as (_ & _ & _ & _ & _ & _ & _ & _ & _ & added & -> & Hnone & Hlisted).
  destruct Hcase as [Hinit|Hclients].
  - by rewrite (Hnone Hinit), app_nil_r.
  - destruct added as [|tool added]; [by rewrite app_nil_r|].
    apply Forall_cons in Hlisted as [(client & tools & Hin & _) _].
    rewrite Hclients in Hin. by apply elem_of_nil in Hin.
Qed.

Lemma evolves_historyOf w w' (this : nat) (h : list Message) :
  evolves w w' → noHooks w = true → historyOf w this = Some h →
  ∃ h', historyOf w' this = Some h' ∧ h `prefix_of` h'.
Proof.
  intros (_ & _ & Hag & _ & Hm) Hno. unfold historyOf.
  specialize (Hag this).
  destruct (agents w !! this) as [a|]; [|done].
  inversion Hag as [? a' Hsame|]; subst. simpl.
  destruct Hsame as (-> & _). apply (Hm Hno).
Qed.

(** X12.  When no agent has a callback registered (the conversation
    manager is the null one), an invocation only appends to the history:
    however it ends, the history it started with is a prefix of the
    history it leaves. *)
Theorem history_only_grows_without_hooks (fuel : nat) (this : nat) (args : InvokeArgs)
    (initialAgent : nat) w (h : list Message) :
  noHooks w = true →
  historyOf w this = Some h →
  ∃ h', historyOf (streamFromEntryBody fuel this args initialAgent w).2 this = Some h' ∧
        h `prefix_of` h'.
Proof.
  intros Hno Hh. eapply evolves_historyOf; [|done..].
  apply steady_streamFromEntryBody.
Qed.

Lemma runCallbacks_payload (callbacks : list (HookCallback (HS:=HS)))
    (event : HookEvent) (history : list Message) (hs : HS) :
  Forall (λ callback : HookCallback,
            ∀ event history hs,
              eventData (effEvent (callback event history hs)) = eventData event)
         callbacks →
  eventData (effEvent (runCallbacks callbacks event history hs)) = eventData event.
Proof.
  intros H. revert event history hs.
  induction H as [|callback rest Hc _ IH]; intros event history hs; simpl; [done|].
  destruct (effThrown _); [apply Hc|]. by rewrite IH, Hc.
Qed.

Lemma evolves_callbacksKeepPayload w w' :
  evolves w w' → callbacksKeepPayload w → callbacksKeepPayload w'.
Proof.
  intros (_ & _ & Hag & _) Hkeep ref a' Ha'.
  specialize (Hag ref). rewrite Ha' in Hag.
  inversion Hag as [a ? Hsame Ha|]; subst. symmetry in Ha.
  destruct Hsame as (_ & -> & _). by eapply Hkeep.
Qed.

Lemma yieldHook_emits (this : nat) (d : EventData) w (event : HookEvent) w' :
  callbacksKeepPayload w →
  yieldHook this d w = (Returned event, w') →
  eventData event = d ∧ emitted w' = (emitted w ++ [HookStreamEvent event])%list.
Proof.
  intros Hkeep. unfold yieldHook, runHooks, readAgent, readMessages, emit.
  unfold_monad.
  destruct (agents w !! this) as [a|] eqn:Ha; simpl; [|done].
  destruct (messageArrays w !! messages a) as [history|]; simpl; [|done].
  destruct (effThrown _); simpl; [done|].
  intros [= <- <-]. split; [|done].
  unfold invokeCallbacks. rewrite runCallbacks_payload; [done|].
  apply Forall_forall. intros callback Hin.
  apply list_elem_of_In, in_map_iff in Hin as (entry & <- & Hentry).
  apply list_elem_of_In, list_elem_of_filter in Hentry as [_ Hentry].
  specialize (Hkeep _ _ Ha). rewrite Forall_forall in Hkeep. by apply Hkeep.
Qed.

(** X13.  With callbacks that leave the payload of events alone, what
    [_stream] hands on when it returns or throws starts with the
    [BeforeInvocationEvent] and ends with the [AfterInvocationEvent]: the
    [finally] block of [_stream] yields the latter also when the loop
    throws. *)
Theorem invocation_events_are_bracketed (fuel : nat) (this : nat) (args : InvokeArgs)
    (initialAgent : nat) w :
  callbacksKeepPayload w →
  match _stream fuel this args initialAgent w with
  | (Returned _, w') | (Thrown _, w') =>
      ∃ before between after,
        emitted w'
        = (emitted w ++ HookStreamEvent before :: between ++ [HookStreamEvent after])%list ∧
        eventData before = BeforeInvocation ∧ eventData after = AfterInvocation
  | _ => True
  end.
Proof.
  intros Hkeep. unfold _stream. rewrite bind_unfold. simpl. rewrite bind_unfold.
  pose proof (steady_yieldHook this BeforeInvocation w) as Hev0.
  destruct (yieldHook this BeforeInvocation w) as [[before|e|e| |] w1] eqn:Hbefore;
    try done;
    [|by destruct (neverThrows_yieldHook this BeforeInvocation w e w1)].
  simpl in Hev0.
  destruct (yieldHook_emits _ _ _ _ _ Hkeep Hbefore) as [Hd1 He1].
  unfold tryFinally.
  set (active := _resolveInitialActiveAgent w this initialAgent).
  pose proof (steady_streamLoop fuel this (Some args) active w1) as Hev1.
  assert (∀ w2, evolves w1 w2 →
            match (yieldHook this AfterInvocation ≫= λ _ : HookEvent, mret tt) w2 with
            | (Returned _, w') =>
                ∃ before between after,
                  emitted w'
                  = (emitted w ++ HookStreamEvent before :: between
                       ++ [HookStreamEvent after])%list ∧
                  eventData before = BeforeInvocation ∧ eventData after = AfterInvocation
            | (Thrown _, _) => False
            | _ => True
            end) as Hfinal.
  { intros w2 Hev. rewrite bind_unfold.
    pose proof (evolves_callbacksKeepPayload _ _ (evolves_trans _ _ _ Hev0 Hev) Hkeep)
      as Hkeep2.
    destruct (yieldHook this AfterInvocation w2) as [[after|e|e| |] w3] eqn:Hafter;
      try done.
    - destruct (yieldHook_emits _ _ _ _ _ Hkeep2 Hafter) as [Hd2 He2].
      destruct Hev as (_ & _ & _ & [between Hbetween] & _).
      exists before, between, after. split; [|done].
      simpl. rewrite He2, Hbetween, He1, <- !app_assoc. done.
    - by destruct (neverThrows_yieldHook this AfterInvocation w2 e w3). }
  destruct (streamLoop fuel this (Some args) active w1) as [[r|e|e| |] w2];
    simpl in *; try done.
  - specialize (Hfinal w2 Hev1). rewrite bind_unfold.
    by destruct ((yieldHook this AfterInvocation ≫= λ _ : HookEvent, mret tt) w2)
      as [[[]|?|?| |] ?].
  - specialize (Hfinal w2 Hev1). rewrite bind_unfold.
    by destruct ((yieldHook this AfterInvocation ≫= λ _ : HookEvent, mret tt) w2)
      as [[[]|?|?| |] ?].
Qed.

(** X14.  [executeTools] on a message without a tool-use block never
    returns: once the [BeforeToolsEvent] is handed on it throws "Model
    indicated toolUse but no tool use blocks found in message", having run
    no tool and handed on nothing else. *)
Theorem executeTools_needs_a_tool_use (fuel : nat) (this : nat) (assistantMessage : Message)
    (toolRegistry : list Tool) w :
  toolUseBlocksOf assistantMessage = [] →
  match executeTools fuel this assistantMessage toolRegistry w with
  | (Returned _, _) => False
  | (Thrown e, w') =>
      e = mkError PlainError
            "Model indicated toolUse but no tool use blocks found in message" ∧
      toolRuns w' = toolRuns w ∧
      ∃ event, emitted w' = (emitted w ++ [HookStreamEvent event])%list
  | _ => True
  end.
Proof.
  intros Hnone. unfold executeTools. rewrite bind_unfold.
  destruct (yieldHook this (BeforeTools assistantMessage) w) as [[event|e|e| |] w1] eqn:Hy;
    try done.
  - rewrite Hnone. simpl. unfold_monad.
    revert Hy. unfold yieldHook, runHooks, readAgent, readMessages, emit. unfold_monad.
    destruct (agents w !! this) as [a|]; simpl; [|done].
    destruct (messageArrays w !! messages a) as [history|]; simpl; [|done].
    destruct (effThrown _); simpl; [done|].
    intros [= <- <-]. simpl. eauto.
  - by destruct (neverThrows_yieldHook this (BeforeTools assistantMessage) w e w1).
Qed.

Lemma noHooks_callbacksKeepPayload w :
  noHooks w = true → callbacksKeepPayload w.
Proof. intros Hno ref a Ha. by rewrite (noHooks_lookup _ _ _ Hno Ha). Qed.

Local Abbreviation hoare := (hoare (HS:=HS)).
Local Abbreviation quiet := (λ w : World (HS:=HS), noHooks w = true).

Lemma hoare_quiet {A : Type} (m : M (HS:=HS) A) :
  steady m → hoare quiet m (λ _, quiet) (λ _, True).
Proof.
  intros Hm w Hno. specialize (Hm w).
  destruct (m w) as [[x|e|e| |] w1]; simpl in *; try done.
  by eapply evolves_noHooks.
Qed.

(** Without callbacks, dispatching an event changes neither an agent nor a
    history. *)
Lemma runHooks_quiet (owner : nat) (event : HookEvent) w :
  noHooks w = true →
  agents (runHooks owner event w).2 = agents w ∧
  (∀ ref, messageArrays (runHooks owner event w).2 !! ref = messageArrays w !! ref) ∧
  ∀ result, (runHooks owner event w).1 = Returned result → result.2 = None.
Proof.
  intros Hno. unfold runHooks, readAgent, readMessages. unfold_monad.
  destruct (agents w !! owner) as [a|] eqn:Ha; simpl; [|done].
  destruct (messageArrays w !! messages a) as [history|] eqn:Hh; simpl; [|done].
  rewrite (noHooks_lookup _ _ _ Hno Ha). simpl. split; [done|]. split.
  - intros ref. destruct (decide (ref = messages a)) as [->|Hne].
    + by rewrite lookup_insert_eq.
    + by rewrite lookup_insert_ne.
  - by intros result [= <-].
Qed.

Lemma historyOf_same w w' (this : nat) :
  agents w' = agents w →
  (∀ ref, messageArrays w' !! ref = messageArrays w !! ref) →
  historyOf w' this = historyOf w this.
Proof.
  intros Hag Hm. unfold historyOf. rewrite Hag.
  destruct (agents w !! this); simpl; [apply Hm|done].
Qed.

Lemma noHooks_same w w' : agents w' = agents w → noHooks w' = noHooks w.
Proof. intros Hag. unfold noHooks. by rewrite Hag. Qed.

Lemma yieldHook_quiet (this : nat) (d : EventData) (x : nat) (m : Message) :
  hoare (λ w, quiet w ∧ lastMessageIs x m w) (yieldHook this d)
        (λ _ w, quiet w ∧ lastMessageIs x m w) (λ _, True).
Proof.
  intros w [Hno Hlast]. unfold yieldHook. rewrite bind_unfold.
  destruct (runHooks_quiet this (newEvent d) w Hno) as (Hag & Hm & Hnone).
  destruct (runHooks this (newEvent d) w) as [[[event thrown]|e|e| |] w1]; try done.
  specialize (Hnone _ eq_refl). simpl in *. subst thrown. unfold emit. unfold_monad.
  split.
  - rewrite <- Hno. by apply noHooks_same.
  - unfold lastMessageIs in *. rewrite <- (historyOf_same w w1 x Hag Hm) in Hlast.
    exact Hlast.
Qed.

Lemma appendAndYield_last (this : nat) (message : Message) (messageAuthor : option string) :
  hoare quiet (appendAndYield this message messageAuthor)
        (λ _ w, quiet w ∧ lastMessageIs this message w) (λ _, True).
Proof.
  intros w Hno. unfold appendAndYield, _appendMessage.
  set (messageToAppend := match messageAuthor, author message with
                          | Some a, None => _ | _, _ => _ end).
  assert (role messageToAppend = role message ∧
          content messageToAppend = content message) as [Hrole Hcontent].
  { subst messageToAppend. by destruct messageAuthor, (author message). }
  unfold runHooks, emit, readAgent, readMessages, writeMessages. unfold_monad.
  destruct (agents w !! this) as [self|] eqn:Hself; simpl; [|done].
  destruct (messageArrays w !! messages self) as [history|] eqn:Hh; simpl; [|done].
  rewrite Hself. simpl. rewrite lookup_insert_eq. simpl.
  rewrite (noHooks_lookup _ _ _ Hno Hself). simpl.
  split; [exact Hno|].
  exists messageToAppend. split; [|done].
  unfold historyOf. simpl. rewrite Hself. simpl.
  rewrite lookup_insert_eq. simpl. by rewrite last_snoc.
Qed.

Lemma assign_last {V : Type} (this x : nat) (m : Message) (setter : Agent → V → Agent)
    (v : V) :
  (∀ a, sameConfiguration a (setter a v)) →
  hoare (λ w, quiet w ∧ lastMessageIs x m w) (assign this setter v)
        (λ _ w, quiet w ∧ lastMessageIs x m w) (λ _, True).
Proof.
  intros Hset w [Hno Hlast].
  pose proof (steady_assign this setter v Hset w) as Hev.
  unfold assign, readAgent, writeAgent in *. unfold_monad.
  destruct (agents w !! this) as [a|] eqn:Ha; simpl in *; [|done].
  split; [by eapply evolves_noHooks|].
  destruct Hlast as (y & Hy & Hr & Hc). exists y. split; [|done].
  rewrite <- Hy. unfold historyOf. simpl.
  destruct (decide (x = this)) as [->|Hne].
  - rewrite lookup_insert_eq, Ha. simpl. by destruct (Hset a) as (-> & _).
  - by rewrite lookup_insert_ne.
Qed.

(** The result of the loop of [_stream] is the message it appended last. *)
Lemma streamLoop_last (fuel : nat) (this : nat) (currentArgs : option InvokeArgs)
    (activeAgent : nat) :
  hoare quiet (streamLoop fuel this currentArgs activeAgent)
        (λ result w, quiet w ∧ lastMessageIs this (lastMessage result) w) (λ _, True).
Proof.
  assert (Hq : ∀ (A B : Type) (m : M (HS:=HS) A) (f : A → M B) Q,
            steady m → (∀ x, hoare quiet (f x) Q (λ _, True)) →
            hoare quiet (m ≫= f) Q (λ _, True)).
  { intros A B m f Q Hm Hf. eapply hoare_bind; [by apply hoare_quiet|]. intros x. apply Hf. }
  assert (Hassign : ∀ (V : Type) ref (setter : Agent → V → Agent) v,
            (∀ a, sameConfiguration a (setter a v)) → steady (HS:=HS) (assign ref setter v))
    by (intros; by apply steady_assign).
  revert currentArgs activeAgent.
  induction fuel as [|fuel IH]; intros currentArgs activeAgent; [by intros w _|].
  cbn [streamLoop].
  apply Hq; [apply steady_initialize|]. intros _.
  apply Hq; [apply steady_getWorld|]. intros w0.
  apply Hq; [apply steady_invokeModel|]. intros modelResult.
  apply Hq; [apply steady_readAgent|]. intros active.
  destruct (negb _).
  { eapply hoare_bind; [apply appendAndYield_last|]. intros ?. cbv beta.
    eapply hoare_bind; [apply assign_last; intros ?; same_configuration|]. intros ?.
    cbv beta. intros w Hw. exact Hw. }
  apply Hq; [apply steady_executeTools|]. intros toolResultMessage.
  apply Hq; [apply steady_appendAndYield|]. intros _.
  apply Hq; [apply steady_appendAndYield|]. intros _.
  apply Hq; [apply steady_readAgent|]. intros root.
  apply Hq; [apply Hassign; intros a; same_configuration|].
  intros _. destruct (truthyString _) as [target|].
  2:{ apply Hq; [apply Hassign; intros a; same_configuration|]. intros _. apply IH. }
  apply Hq; [apply steady_getWorld|]. intros w1.
  destruct (findAgent _ _ _ _) as [nextAgent|]; [|by intros w _].
  apply Hq; [apply steady_readAgent|]. intros root'.
  destruct (_ <=? _).
  { apply Hq; [apply Hassign; intros a; same_configuration|]. intros _. apply IH. }
  apply Hq; [apply steady_readAgent|]. intros next.
  apply Hq; [apply steady_yieldHook|]. intros _.
  apply Hq; [apply Hassign; intros a; same_configuration|]. intros _.
  apply Hq; [apply steady_readAgent|]. intros root''.
  apply Hq; [apply Hassign; intros a; same_configuration|]. intros _.
  apply Hq; [apply steady_yieldHook|]. intros _.
  apply IH.
Qed.

(** X15.  When no agent has a callback registered, the result an
    invocation returns carries the message the history ends with: the last
    message of the history has the role and the content of
    [result.lastMessage] (its author apart, which the loop stamps). *)
Theorem result_is_the_last_message (fuel : nat) (this : nat) (args : InvokeArgs)
    (initialAgent : nat) w (result : AgentResult) w' :
  noHooks w = true →
  streamFromEntryBody fuel this args initialAgent w = (Returned result, w') →
  lastMessageIs this (lastMessage result) w'.
Proof.
  intros Hno. unfold streamFromEntryBody.
  match goal with |- context [match ?m w with _ => _ end] =>
    assert (Hm : hoare quiet m (λ r w, lastMessageIs this (lastMessage r) w) (λ _, True));
    [|specialize (Hm w Hno); destruct (m w) as [[?|?|?| |] ?]; try done;
      by intros [= <- <-]] end.
  eapply hoare_bind; [apply hoare_quiet, steady_initialize|]. intros ?. cbv beta.
  eapply (hoare_bind _ _ _ (λ r w, quiet w ∧ lastMessageIs this (lastMessage r) w)).
  - unfold _stream.
    eapply hoare_bind; [apply hoare_quiet, steady_getWorld|]. intros w0.
    eapply hoare_bind; [apply hoare_quiet, steady_yieldHook|]. intros ?. cbv beta.
    intros w1 Hno1. unfold tryFinally.
    pose proof (streamLoop_last fuel this (Some args)
                  (_resolveInitialActiveAgent w0 this initialAgent) w1 Hno1) as Hbody.
    destruct (streamLoop _ _ _ _ w1) as [[r|e|e| |] w2]; try done.
    + rewrite bind_unfold.
      pose proof (yieldHook_quiet this AfterInvocation this (lastMessage r) w2 Hbody)
        as Hfinal.
      rewrite bind_unfold.
      by destruct (yieldHook this AfterInvocation w2) as [[ev|?|?| |] w3].
    + rewrite bind_unfold, bind_unfold.
      by destruct (yieldHook this AfterInvocation w2) as [[ev|?|?| |] w3].
  - intros r. eapply hoare_bind.
    + intros w1 [Hno1 Hlast]. unfold emit. unfold_monad.
      instantiate (1 := λ _ w, lastMessageIs this (lastMessage r) w). simpl.
      destruct Hlast as (y & Hy & ?). exists y. split; [|done]. exact Hy.
    + intros ?. cbv beta. intros w1 Hlast. exact Hlast.
Qed.

(** X16.  The transfer tool queues a transfer only for an allowed target
    and below the ceiling of consecutive transfers: then the attempt
    succeeds and the root's pending transfer is the target; for a name
    that is not a target, or at the ceiling, the attempt becomes an error
    result carrying the thrown error and the world is as it was. *)
Theorem transfer_tool_queues_allowed_targets_only w (this : nat) (root : Agent)
    (allowedTargets : list string) (toolUse : ToolUse) (agentName : string) :
  agents w !! this = Some root →
  agentNameOf (toolUseInput toolUse) = Some agentName →
  let tool := mkTool transferToolName (TransferToAgentTool allowedTargets) in
  if bool_decide (agentName ∈ allowedTargets) then
    if bool_decide (_consecutiveTransfers root < MAX_CONSECUTIVE_TRANSFERS) then
      ∃ result w',
        toolAttempt this (Some tool) toolUse w = (Returned (result, None), w') ∧
        resultStatus result = status_success ∧
        resultToolUseId result = toolUseId toolUse ∧
        agents w' = <[this := withPendingTransferTarget root (Some agentName)]> (agents w)
    else
      toolAttempt this (Some tool) toolUse w
      = (Returned (toolThrew toolUse (mkError PlainError transferGuardMessage),
                   Some (mkError PlainError transferGuardMessage)), w)
  else
    toolAttempt this (Some tool) toolUse w
    = (Returned (toolThrew toolUse (notATransferTarget agentName),
                 Some (notATransferTarget agentName)), w).
Proof.
  intros Hroot Hname tool. subst tool.
  unfold toolAttempt, toolStream, transferToolStream, tryCatch. simpl. rewrite Hname.
  rewrite !bind_unfold.
  case_bool_decide as Hallowed; [|done].
  case_bool_decide as Hbelow; unfold mret, M_ret; cbv beta iota; rewrite bind_unfold.
  - assert (∃ w', queueTransfer this agentName w = (Returned tt, w') ∧
                  agents w'
                  = <[this := withPendingTransferTarget root (Some agentName)]> (agents w))
      as (w' & Hq & Hw').
    { unfold queueTransfer, assign, readAgent, writeAgent. unfold_monad.
      rewrite Hroot. simpl. unfold MAX_CONSECUTIVE_TRANSFERS in Hbelow.
      destruct (_consecutiveTransfers root) as [|[|[|[|[|[|[|[|n]]]]]]]] eqn:Hn; try lia;
        rewrite Hroot; simpl; (eexists; split; [done|]; done). }
    rewrite Hq. simpl. eexists _, _. split; [done|]. by split.
  - rewrite (queueTransfer_refuses_at_ceiling w this root agentName Hroot); [done|lia].
Qed.

(** While the clients add their tools the agent stays uninitialized, and
    nothing but its own tools changes. *)
Lemma addAll_uninitialized (this : nat) (clients : list McpClient) w self :
  agents w !! this = Some self →
  _initialized self = false →
  let run := forEach clients
               (λ client,
                  match listTools client with
                  | Ok tools => assign this addAll tools
                  | Throw e => throw e
                  end) w in
  (∃ self', agents run.2 !! this = Some self' ∧ _initialized self' = false ∧
            messages self' = messages self ∧ hooks self' = hooks self) ∧
  messageArrays run.2 = messageArrays w ∧ hookState run.2 = hookState w ∧
  match run.1 with Returned _ | Thrown _ => True | _ => False end.
Proof.
  revert w self. induction clients as [|client rest IH]; intros w self Hself Hinit.
  { simpl. eauto 10. }
  cbn [forEach]. cbv zeta. rewrite bind_unfold.
  destruct (listTools client) as [tools|e]; [|simpl; eauto 10].
  assert (∃ w1, assign this addAll tools w = (Returned tt, w1) ∧
                agents w1 !! this = Some (addAll self tools) ∧
                messageArrays w1 = messageArrays w ∧ hookState w1 = hookState w)
    as (w1 & -> & Hself1 & Hma1 & Hhs1).
  { unfold assign, readAgent, writeAgent. unfold_monad. rewrite Hself. simpl.
    eexists. split; [done|]. simpl. by rewrite lookup_insert_eq. }
  destruct (IH w1 (addAll self tools) Hself1 Hinit)
    as ((self' & Hs & Hi & Hm & Hh) & Hma & Hhs & Hout).
  split; [by exists self'|]. split; [congruence|]. split; [congruence|done].
Qed.

(** X17.  [initialize] runs the callbacks of [InitializedEvent] once: after
    it has returned the agent is initialized and calling it again returns
    at once and changes nothing; when it throws (a callback has thrown, or
    an MCP client has failed), the agent stays uninitialized.  The model
    is stuck only where a reference does not resolve. *)
Theorem initialize_runs_once (this : nat) w :
  match initialize this w with
  | (Returned _, w') =>
      initialize this w' = (Returned tt, w') ∧
      ∃ a, agents w' !! this = Some a ∧ _initialized a = true
  | (Thrown _, w') =>
      ∃ a a', agents w !! this = Some a ∧ _initialized a = false ∧
              agents w' !! this = Some a' ∧ _initialized a' = false
  | (Stuck, w') =>
      (agents w !! this = None ∧ w' = w) ∨
      (∃ a, agents w !! this = Some a ∧ messageArrays w !! messages a = None)
  | _ => False
  end.
Proof.
  unfold initialize. rewrite bind_unfold.
  unfold readAgent at 1. unfold mbind at 1, M_bind at 1, getWorld. simpl.
  destruct (agents w !! this) as [a|] eqn:Ha; simpl; [|by left].
  destruct (_initialized a) eqn:Hinit.
  { simpl. split; [|eauto]. unfold readAgent. unfold_monad. by rewrite Ha, Hinit. }
  rewrite bind_unfold.
  pose proof (addAll_uninitialized this (_mcpClients a) w a Ha Hinit) as Hloop.
  cbv zeta in Hloop.
  destruct (forEach _ _ w) as [[[]|e|e| |] w1]; simpl in Hloop;
    destruct Hloop as ((a1 & Ha1 & Hinit1 & Hm1 & Hh1) & Hma & Hhs & Hout); try done.
  2:{ exists a, a1. done. }
  unfold runHooks, assign, readAgent, readMessages, writeAgent. unfold_monad.
  rewrite Ha1. simpl. rewrite Hma, Hm1.
  destruct (messageArrays w !! messages a) as [history|] eqn:Hhistory; simpl;
    [|right; by exists a].
  destruct (effThrown _); simpl.
  - exists a, a1. by rewrite Ha1.
  - rewrite Ha1. simpl. rewrite !lookup_insert_eq. simpl. eauto.
Qed.

End RunFacts.

Section ModelFacts.
Context {HS : Type}.
Implicit Types (w : World (HS:=HS)) (a b : Agent (HS:=HS)).

Lemma yieldHook_agents (this : nat) (d : EventData) w :
  agents (yieldHook this d w).2 = agents w.
Proof.
  unfold yieldHook, runHooks, readAgent, readMessages, emit. unfold_monad.
  destruct (agents w !! this) as [a|]; simpl; [|done].
  destruct (messageArrays w !! messages a) as [history|]; simpl; [|done].
  by destruct (effThrown _).
Qed.

Lemma forward_step (this : nat) (event : ModelStreamEvent) w :
  callbacksKeepPayload w →
  match (yieldHook this (ModelStream event) ;; emit (ModelStreamed event)) w with
  | (Returned _, w1) =>
      agents w1 = agents w ∧ callbacksKeepPayload w1 ∧
      ∃ hookEvent, eventData hookEvent = ModelStream event ∧
        emitted w1 = (emitted w ++ [HookStreamEvent hookEvent; ModelStreamed event])%list
  | (Thrown _, _) => False
  | _ => True
  end.
Proof.
  intros Hkeep. rewrite bind_unfold.
  pose proof (steady_yieldHook this (ModelStream event) w) as Hev.
  pose proof (yieldHook_agents this (ModelStream event) w) as Hag.
  destruct (yieldHook this (ModelStream event) w) as [[hookEvent|e|e| |] w1] eqn:Hy;
    simpl in *; try done;
    [|by destruct (neverThrows_yieldHook this (ModelStream event) w e w1)].
  destruct (yieldHook_emits _ _ _ _ _ Hkeep Hy) as [Hd He].
  unfold emit. unfold_monad. simpl. split; [done|]. split.
  - intros ref a Ha. by apply (evolves_callbacksKeepPayload _ _ Hev Hkeep ref a).
  - exists hookEvent. split; [done|]. by rewrite He, <- app_assoc.
Qed.

Lemma forEach_forwards (this : nat) (events : list ModelStreamEvent) w :
  callbacksKeepPayload w →
  let run := forEach events
               (λ event, yieldHook this (ModelStream event) ;; emit (ModelStreamed event)) w in
  match run.1 with
  | Returned _ =>
      agents run.2 = agents w ∧
      ∃ out, emitted run.2 = (emitted w ++ out)%list ∧ forwards events out
  | Thrown _ => False
  | _ => True
  end.
Proof.
  revert w. induction events as [|event rest IH]; intros w Hkeep.
  - simpl. split; [done|]. exists []. split; [by rewrite app_nil_r|constructor].
  - cbv zeta. change (forEach (event :: rest) ?f) with (f event ;; forEach rest f).
    rewrite bind_unfold. pose proof (forward_step this event w Hkeep) as Hstep.
    cbv beta.
    destruct ((yieldHook this (ModelStream event) ;; emit (ModelStreamed event)) w)
      as [[[]|e|e| |] w1]; try done.
    destruct Hstep as (Hag & Hkeep1 & hookEvent & Hd & He).
    specialize (IH w1 Hkeep1). cbv zeta in IH.
    destruct (forEach rest _ w1) as [[[]|e|e| |] w2]; simpl in *; try done.
    destruct IH as (Hag2 & out & Hout & Hf). split; [congruence|].
    exists (HookStreamEvent hookEvent :: ModelStreamed event :: out).
    split; [|by constructor]. by rewrite Hout, He, <- app_assoc.
Qed.

(** X22. [_streamFromModel] hands the provider's events to the consumer in the
    provider's order, each one preceded by the hook event that carries it,
    and nothing else; it ends as the provider's call ends (its result, or
    its error), and the provider has moved on by exactly one call.  Stated
    for callbacks that keep the payload of the event they are given. *)
Theorem streamFromModel_forwards_events (this activeAgent : nat) w (active : Agent)
    (turn : ModelTurn) (later : list ModelTurn) :
  callbacksKeepPayload w →
  agents w !! activeAgent = Some active →
  model active = turn :: later →
  match _streamFromModel this activeAgent w with
  | (Returned result, w') =>
      modelOutcome turn = Ok result ∧
      (model <$> agents w' !! activeAgent) = Some later ∧
      ∃ out, emitted w' = (emitted w ++ out)%list ∧ forwards (modelEvents turn) out
  | (Thrown e, w') =>
      modelOutcome turn = Throw e ∧
      (model <$> agents w' !! activeAgent) = Some later ∧
      ∃ out, emitted w' = (emitted w ++ out)%list ∧ forwards (modelEvents turn) out
  | _ => True
  end.
Proof.
  intros Hkeep Hactive Hmodel. unfold _streamFromModel. rewrite bind_unfold.
  unfold readAgent at 1. unfold mbind at 1, M_bind at 1, getWorld. simpl.
  rewrite Hactive. simpl. rewrite Hmodel. rewrite bind_unfold.
  pose proof (steady_assign activeAgent withModel later
                (λ a, ltac:(same_configuration)) w) as Hev.
  destruct (assign activeAgent withModel later w) as [[[]|e|e| |] w1] eqn:Hassign;
    try (revert Hassign; unfold assign, readAgent, writeAgent; unfold_monad;
         by rewrite Hactive).
  assert (model <$> agents w1 !! activeAgent = Some later ∧ emitted w1 = emitted w)
    as [Hlater Hemitted].
  { revert Hassign. unfold assign, readAgent, writeAgent. unfold_monad.
    rewrite Hactive. simpl. intros [= <-]. simpl. by rewrite lookup_insert_eq. }
  simpl in Hev. rewrite bind_unfold.
  pose proof (forEach_forwards this (modelEvents turn) w1
                (evolves_callbacksKeepPayload _ _ Hev Hkeep)) as Hloop.
  cbv zeta in Hloop.
  destruct (forEach (modelEvents turn) _ w1) as [[[]|e|e| |] w2]; simpl in *; try done.
  destruct Hloop as (Hag & out & Hout & Hf). rewrite Hemitted in Hout. rewrite <- Hag in Hlater.
  destruct (modelOutcome turn) as [result|e]; simpl; eauto.
Qed.

End ModelFacts.

Lemma streamFromModel_forwards_events_witness :
  match _streamFromModel 0 0 streamingWorld with
  | (Returned result, w') =>
      modelOutcome streamsFour = Ok result ∧
      (model <$> agents w' !! 0) = Some [answers "five"] ∧
      ∃ out, emitted w' = (emitted streamingWorld ++ out)%list ∧
             forwards (modelEvents streamsFour) out
  | (Thrown e, w') =>
      modelOutcome streamsFour = Throw e ∧
      (model <$> agents w' !! 0) = Some [answers "five"] ∧
      ∃ out, emitted w' = (emitted streamingWorld ++ out)%list ∧
             forwards (modelEvents streamsFour) out
  | _ => True
  end.
Proof.
  apply (streamFromModel_forwards_events 0 0 streamingWorld
           (bareAgent "root" 10 20 None [streamsFour; answers "five"])
           streamsFour [answers "five"]).
  - apply noHooks_callbacksKeepPayload. reflexivity.
  - reflexivity.
  - reflexivity.
Defined.

(** The three events of [streamsFour] reach the consumer as six. *)
Example streamingWorld_run :
  (_streamFromModel 0 0 streamingWorld).1 = Returned (fourMessage, StopEndTurn) ∧
  length (emitted (_streamFromModel 0 0 streamingWorld).2) = 6.
Proof. by vm_compute. Qed.

Lemma history_only_grows_without_hooks_witness :
  ∃ h', historyOf (streamFromEntryBody 5 0 (TextArgs "two and two?") 0 familyWorld).2 0
        = Some h' ∧
        [textMessage user "earlier"] `prefix_of` h'.
Proof.
  apply (history_only_grows_without_hooks 5 0 (TextArgs "two and two?") 0 familyWorld
           [textMessage user "earlier"]); reflexivity.
Defined.

Lemma invocation_events_are_bracketed_witness :
  match _stream 5 0 (TextArgs "two and two?") 0 familyWorld with
  | (Returned _, w') | (Thrown _, w') =>
      ∃ before between after,
        emitted w'
        = (emitted familyWorld
             ++ HookStreamEvent before :: between ++ [HookStreamEvent after])%list ∧
        eventData before = BeforeInvocation ∧ eventData after = AfterInvocation
  | _ => True
  end.
Proof.
  apply (invocation_events_are_bracketed 5 0 (TextArgs "two and two?") 0 familyWorld).
  apply noHooks_callbacksKeepPayload. reflexivity.
Defined.

Lemma executeTools_needs_a_tool_use_witness :
  match executeTools 5 0 fourMessage [] familyWorld with
  | (Returned _, _) => False
  | (Thrown e, w') =>
      e = mkError PlainError
            "Model indicated toolUse but no tool use blocks found in message" ∧
      toolRuns w' = toolRuns familyWorld ∧
      ∃ event, emitted w' = (emitted familyWorld ++ [HookStreamEvent event])%list
  | _ => True
  end.
Proof.
  apply (executeTools_needs_a_tool_use 5 0 fourMessage [] familyWorld). reflexivity.
Defined.

Lemma result_is_the_last_message_witness :
  lastMessageIs 0 fourMessage
    (streamFromEntryBody 5 0 (TextArgs "two and two?") 0 familyWorld).2.
Proof.
  apply (result_is_the_last_message 5 0 (TextArgs "two and two?") 0 familyWorld
           (mkAgentResult StopEndTurn fourMessage)).
  - reflexivity.
  - vm_compute. reflexivity.
Defined.

Lemma transfer_tool_queues_allowed_targets_only_witness :
  ∃ result w',
    toolAttempt 0 (Some (mkTool transferToolName (TransferToAgentTool ["math"; "physics"])))
      transferToMath familyWorld
    = (Returned (result, None), w') ∧
    resultStatus result = status_success ∧
    resultToolUseId result = "t1" ∧
    agents w'
    = <[0 := withPendingTransferTarget (bareAgent "root" 10 20 None [answers "four"])
                (Some "math")]> (agents familyWorld).
Proof.
  apply (transfer_tool_queues_allowed_targets_only familyWorld 0
           (bareAgent "root" 10 20 None [answers "four"]) ["math"; "physics"]
           transferToMath "math"); reflexivity.
Defined.

Example familyWorld_run :
  (streamFromEntryBody 5 0 (TextArgs "two and two?") 0 familyWorld).1
  = Returned (mkAgentResult StopEndTurn fourMessage).
Proof. vm_compute. reflexivity. Qed.

(** The first invocation adds the tools the MCP clients list after the
    agent's own; a client that fails makes the invocation throw its error,
    with the tools of the clients before it added and the agent not
    initialized. *)
Example toolboxWorld_run :
  (streamFromEntryBody 5 0 (TextArgs "two and two?") 0 (toolboxWorld [searchClient])).1
  = Returned (mkAgentResult StopEndTurn fourMessage) ∧
  (_toolRegistry
     <$> agents (streamFromEntryBody 5 0 (TextArgs "two and two?") 0
                   (toolboxWorld [searchClient])).2 !! 0)
  = Some [mkTool "calc" ExternalTool; mkTool "search" ExternalTool].
Proof. vm_compute. split; reflexivity. Qed.

Example toolboxWorld_broken_client :
  (streamFromEntryBody 5 0 (TextArgs "two and two?") 0
     (toolboxWorld [searchClient; brokenClient])).1
  = Thrown (mkError PlainError "connection refused") ∧
  ((λ a, (_toolRegistry a, _initialized a))
     <$> agents (streamFromEntryBody 5 0 (TextArgs "two and two?") 0
                   (toolboxWorld [searchClient; brokenClient])).2 !! 0)
  = Some ([mkTool "calc" ExternalTool; mkTool "search" ExternalTool], false).
Proof. vm_compute. split; reflexivity. Qed.

(** ** One call and the lock *)

Section LockFacts.
Context {St Inner Args : Type}.
Variable initializeRoot : St → option Error * St.
Variable startInner : Args → nat → Inner.
Variable nextInner : Inner → St → InnerStep Inner St.
Variable processEvent : AgentStreamEvent → St → option Error * St.

Local Abbreviation genNext' := (genNext initializeRoot startInner nextInner processEvent).
Local Abbreviation invoke' := (invoke initializeRoot startInner nextInner processEvent).
Local Abbreviation Gen := (@StreamGen Inner Args).
Local Abbreviation Root := (@RootAgent St).

(** X18.  [invoke] called while no call is in flight leaves the lock free,
    whether it returns a result or throws (an error of [initialize], of the
    loop or of a callback): the next call can take the lock. *)
Theorem invoke_releases_the_lock (fuel : nat) (this : nat) (args : Args) (root root' : Root)
    (outcome : Result (option AgentResult)) :
  _isInvoking root = false →
  invoke' fuel this args root = Some (outcome, root') →
  _isInvoking root' = false.
Proof.
  unfold invoke. intros Hfree.
  by apply (drain_releases initializeRoot startInner nextInner processEvent).
Qed.

End LockFacts.

Lemma invoke_releases_the_lock_witness :
  _isInvoking (mkRootAgent false 2) = false.
Proof.
  apply (invoke_releases_the_lock scriptedInitialize scriptedStart scriptedNext
           scriptedProcess 5 0 [modelEvent "a"; modelEvent "b"] (mkRootAgent false 0)
           (mkRootAgent false 2) (Ok (Some scriptedResult))).
  - reflexivity.
  - reflexivity.
Defined.

(** ** Tool lists *)

Example flattenTools_nested :
  flattenTools nestedToolList
  = ([mkTool "a" ExternalTool; mkTool "b" ExternalTool; mkTool "c" ExternalTool],
     [mkMcpClient "files" (Ok []); mkMcpClient "web" (Ok [])]).
Proof. reflexivity. Qed.

Lemma flattenTools_cons (item : ToolListItem) (rest : list ToolListItem) :
  flattenTools (item :: rest)
  = (((flattenItem item).1 ++ (flattenTools rest).1)%list,
     ((flattenItem item).2 ++ (flattenTools rest).2)%list).
Proof. reflexivity. Qed.

(** X19.  [flattenTools] keeps the order of the list and ignores how it is
    nested: the result for a concatenation is the concatenation of the
    results, an item that is an array counts as its items spliced in
    place, and a flat list of tools followed by clients comes back as it
    is. *)
Theorem flattenTools_ignores_nesting :
  (∀ before after : list ToolListItem,
     flattenTools (before ++ after)
     = (((flattenTools before).1 ++ (flattenTools after).1)%list,
        ((flattenTools before).2 ++ (flattenTools after).2)%list)) ∧
  (∀ items rest : list ToolListItem,
     flattenTools (NestedToolList items :: rest) = flattenTools (items ++ rest)) ∧
  (∀ (tools : list Tool) (clients : list McpClient),
     flattenTools (map ToolItem tools ++ map McpClientItem clients) = (tools, clients)).
Proof.
  assert (Happ : ∀ before after : list ToolListItem,
     flattenTools (before ++ after)
     = (((flattenTools before).1 ++ (flattenTools after).1)%list,
        ((flattenTools before).2 ++ (flattenTools after).2)%list)).
  { induction before as [|item before IH]; intros after.
    - simpl. by destruct (flattenTools after).
    - rewrite <- app_comm_cons, !flattenTools_cons, IH. simpl.
      by rewrite !app_assoc. }
  split; [done|]. split.
  - intros items rest. by rewrite flattenTools_cons, Happ.
  - intros tools clients. rewrite Happ.
    assert (∀ tools, flattenTools (map ToolItem tools) = (tools, [])) as ->.
    { induction tools0 as [|t l IH]; [done|].
      rewrite map_cons, flattenTools_cons, IH. done. }
    assert (∀ clients, flattenTools (map McpClientItem clients) = ([], clients)) as ->.
    { induction clients0 as [|c l IH]; [done|].
      rewrite map_cons, flattenTools_cons, IH. done. }
    simpl. by rewrite app_nil_r.
Qed.

(** ** Stop reasons of the Bedrock provider *)

Example snakeToCamel_known : Forall (λ entry, snakeToCamel entry.1 = entry.2) STOP_REASON_MAP.
Proof. repeat constructor. Qed.

Example snakeToCamel_underscores : snakeToCamel "__a_b__c_" = "_AB_C_".
Proof. reflexivity. Qed.

Example transformStopReason_adjusts_end_turn :
  _transformStopReason "end_turn"
    (ConverseCommandOutput
       (Some [BedrockText "calling"; BedrockToolUse (mkToolUse "calc" "t1" JNull)]))
  = StopReasonText "toolUse".
Proof. reflexivity. Qed.

Example transformStopReason_streamed_end_turn :
  _transformStopReason "end_turn" MessageStopEvent = StopReasonText "endTurn".
Proof. reflexivity. Qed.

Example transformStopReason_unknown :
  _transformStopReason "model_context_window_exceeded" NoEvent
  = StopReasonText "modelContextWindowExceeded".
Proof. reflexivity. Qed.

Example transformStopReason_inherited :
  _transformStopReason "toString" NoEvent = InheritedMember "toString".
Proof. reflexivity. Qed.

Lemma toUpperCase_not_lower (c : ascii) :
  isLowerCaseLetter c = true → isLowerCaseLetter (toUpperCase c) = false.
Proof.
  unfold isLowerCaseLetter, toUpperCase. intros [H1 H2]%andb_prop.
  apply Nat.leb_le in H1, H2.
  rewrite nat_ascii_embedding by lia.
  apply andb_false_iff. left. apply Nat.leb_gt. lia.
Qed.

Lemma toUpperCase_not_underscore (c : ascii) :
  isLowerCaseLetter c = true → toUpperCase c ≠ "_"%char.
Proof.
  unfold isLowerCaseLetter, toUpperCase. intros [H1 H2]%andb_prop.
  apply Nat.leb_le in H1, H2. intros Heq%(f_equal nat_of_ascii).
  rewrite nat_ascii_embedding in Heq by lia.
  change (nat_of_ascii "_") with 95 in Heq. lia.
Qed.

Lemma snakeToCamel_cons (c : ascii) (rest : string) :
  snakeToCamel (String c rest)
  = if Ascii.eqb c "_" && startsLowerCase rest
    then match rest with
         | String letter rest' => String (toUpperCase letter) (snakeToCamel rest')
         | EmptyString => EmptyString
         end
    else String c (snakeToCamel rest).
Proof.
  destruct rest as [|letter rest']; simpl.
  - by rewrite andb_false_r.
  - done.
Qed.

Lemma snakeToCamel_startsLowerCase (str : string) :
  startsLowerCase (snakeToCamel str) = true → startsLowerCase str = true.
Proof.
  destruct str as [|c rest]; [done|]. rewrite snakeToCamel_cons.
  destruct (Ascii.eqb c "_" && startsLowerCase rest) eqn:E; [|done].
  apply andb_prop in E as [_ Hl]. destruct rest as [|letter rest']; [done|].
  simpl in *. by rewrite toUpperCase_not_lower.
Qed.

(** Induction over a string two characters at a time. *)
Lemma string_pair_ind (P : string → Prop) :
  P EmptyString →
  (∀ c, P (String c EmptyString)) →
  (∀ c letter rest, P rest → P (String letter rest) → P (String c (String letter rest))) →
  ∀ str, P str.
Proof.
  intros H0 H1 H2 str.
  assert (P str ∧ ∀ c, P (String c str)) as [? _]; [|done].
  induction str as [|letter rest [IH1 IH2]]; [by split|].
  split; [apply IH2|]. intros c. by apply H2.
Qed.

Lemma snakeToCamel_no_boundary (str : string) :
  hasSnakeBoundary (snakeToCamel str) = false.
Proof.
  induction str as [|c|c letter rest IH1 IH2] using string_pair_ind; [done| |].
  - simpl. by rewrite andb_false_r.
  - rewrite snakeToCamel_cons.
    destruct (Ascii.eqb c "_" && startsLowerCase (String letter rest)) eqn:E.
    + cbn [hasSnakeBoundary]. rewrite IH1, orb_false_r.
      apply andb_prop in E as [_ Hl]. simpl in Hl.
      apply andb_false_iff. left. apply Ascii.eqb_neq.
      by apply toUpperCase_not_underscore.
    + cbn [hasSnakeBoundary]. rewrite IH2, orb_false_r.
      apply andb_false_iff. apply andb_false_iff in E as [E|E]; [by left|right].
      destruct (startsLowerCase (snakeToCamel (String letter rest))) eqn:Hs; [|done].
      apply snakeToCamel_startsLowerCase in Hs. congruence.
Qed.

Lemma snakeToCamel_unchanged (str : string) :
  hasSnakeBoundary str = false → snakeToCamel str = str.
Proof.
  induction str as [|c rest IH]; [done|].
  rewrite snakeToCamel_cons. cbn [hasSnakeBoundary].
  intros [-> Hrest]%orb_false_elim. by rewrite IH.
Qed.

Lemma snakeToCamel_length (str : string) :
  String.length (snakeToCamel str) ≤ String.length str.
Proof.
  induction str as [|c|c letter rest IH1 IH2] using string_pair_ind; [done|done|].
  rewrite snakeToCamel_cons.
  destruct (_ && _); cbn [String.length] in *; lia.
Qed.

(** X20.  [snakeToCamel] leaves no underscore followed by a letter of
    [a-z], so applying it twice is applying it once; it never makes a
    string longer. *)
Theorem snakeToCamel_idempotent (str : string) :
  snakeToCamel (snakeToCamel str) = snakeToCamel str ∧
  hasSnakeBoundary (snakeToCamel str) = false ∧
  String.length (snakeToCamel str) ≤ String.length str.
Proof.
  split; [|split].
  - apply snakeToCamel_unchanged, snakeToCamel_no_boundary.
  - apply snakeToCamel_no_boundary.
  - apply snakeToCamel_length.
Qed.

(** X21.  [_transformStopReason] is camel-casing followed by the
    adjustment of [endTurn]: for every raw stop reason that is not a name
    inherited from [Object.prototype] the result is ["toolUse"] when the
    camel-cased reason is ["endTurn"] and the output of the call holds a
    tool-use block, and the camel-cased reason otherwise; the entries of
    [STOP_REASON_MAP] change nothing in that. *)
Theorem transformStopReason_is_camel_casing (stopReasonRaw : string)
    (event : StopReasonEvent) :
  _transformStopReason stopReasonRaw event
  = if existsb (String.eqb stopReasonRaw) objectPrototypeKeys
    then InheritedMember stopReasonRaw
    else if String.eqb (snakeToCamel stopReasonRaw) "endTurn" && outputHasToolUse event
         then StopReasonText "toolUse"
         else StopReasonText (snakeToCamel stopReasonRaw).
Proof.
  unfold _transformStopReason, stopReasonOf, STOP_REASON_MAP. cbn [find fst snd].
  repeat match goal with
         | |- context [String.eqb ?a stopReasonRaw] =>
             let H := fresh "E" in
             destruct (String.eqb a stopReasonRaw) eqn:H;
             [apply String.eqb_eq in H; subst stopReasonRaw; reflexivity|]
         end.
  cbn [fmap option_fmap option_map].
  by destruct (existsb (String.eqb stopReasonRaw) objectPrototypeKeys).
Qed.
